(** * Ingestion scheduling and the S3 chunk index of datacube-core

    A shallow embedding of
      - [datacube/scripts/ingest.py]   (diff engine, task scheduler, lineage cache,
                                        task list, measurements of the configuration)
      - [datacube/drivers/s3/index.py] (S3 chunk index, its queries)
      - [datacube/ui/click.py]         (command-line helpers)
    together with the properties stated about them.

    Conventions.  A Python call that may raise returns [Result A], a value
    or the exception.  Code that mutates the outside world (the executor,
    the catalog, the database) is written in state-passing style.  Python
    dictionaries are [gmap]s, arrays are lists. *)

From Stdlib Require Import ZArith Lia Permutation.
From stdpp Require Import gmap strings list fin_maps.

(** ** Exceptions *)

Inductive exn : Type :=
| ValueError (msg : string)
| KeyError (msg : string)
| IndexError (msg : string)
| OtherError (name : string).

Inductive Result (A : Type) : Type :=
| Ok (a : A)
| Raise (e : exn).
Arguments Ok {A} a.
Arguments Raise {A} e.

Definition is_ValueError (e : exn) : bool :=
  match e with ValueError _ => true | _ => false end.

(** ** A state and exception monad

    [M S A] is a computation over a state [S] that returns an [A] or
    raises; the state reached when an exception is raised is kept, as a
    Python [except] clause observes it. *)

Definition M (S A : Type) : Type := S -> S * Result A.

#[global] Instance M_ret {S} : MRet (M S) := λ A a s, (s, Ok a).

#[global] Instance M_bind {S} : MBind (M S) :=
  λ A B f m s,
    match m s with
    | (s', Ok a) => f a s'
    | (s', Raise e) => (s', Raise e)
    end.

Definition raise {S A} (e : exn) : M S A := λ s, (s, Raise e).

(** Exceptions alone. *)
#[global] Instance Result_ret : MRet Result := λ A a, Ok a.

#[global] Instance Result_bind : MBind Result :=
  λ A B f m, match m with Ok a => f a | Raise e => Raise e end.

(** [for x in xs: body(x)] *)
Fixpoint for_each {S A} (xs : list A) (body : A -> M S unit) : M S unit :=
  match xs with
  | [] => mret tt
  | x :: rest => _ ← body x; for_each rest body
  end.

(** ** Rounded-up division, [ceil (t / s)] *)

Definition ceil_div (t s : nat) : nat := (t + s - 1) / s.


(** ** The diff engine ([ingest.py], [remove_duplicates] and [find_diff]) *)

Module Diff.

(** A grid index is a tuple of integers, a time stamp an integer count of
    nanoseconds. *)
Abbreviation Extent := (Z * Z)%type.
Abbreviation Time := Z.

Section Cells.

(** What a cell holds per time stamp (a tuple of source datasets) and its
    footprint are opaque to the diff engine. *)
Context {Sources Geobox : Type}.

(** [cell.sources] is an array indexed by the [time] coordinate: the
    labels with their entries, in order. *)
Record Cell : Type := mkCell {
  geobox : Geobox;
  sources : list (Time * Sources)
}.

(** [cell.sources.coords['time'].values] *)
Definition time_values (tiles : list (Time * Sources)) : list Time := tiles.*1.

(** Position lookup of one label in the time index. *)
Fixpoint get_loc (tiles : list (Time * Sources)) (label : Time)
  : option (Time * Sources) :=
  match tiles with
  | [] => None
  | e :: rest => if decide (e.1 = label) then Some e else get_loc rest label
  end.

(** The entries under the given labels, in the order of the labels. *)
Fixpoint take_labels (tiles : list (Time * Sources)) (labels : list Time)
  : option (list (Time * Sources)) :=
  match labels with
  | [] => Some []
  | l :: ls =>
      e ← get_loc tiles l;
      es ← take_labels tiles ls;
      Some (e :: es)
  end.

(** [tiles.loc[labels]]: label-based selection with a list of labels.
    The index refuses the lookup when its labels are not unique, and a
    label that is not in the index is a [KeyError]; both are [None]. *)
Definition loc (tiles : list (Time * Sources)) (labels : list Time)
  : option (list (Time * Sources)) :=
  if decide (NoDup (time_values tiles)) then take_labels tiles labels else None.

(** The set comprehension [sigs_out] of [remove_duplicates]. *)
Definition signatures (cells : gmap Extent Cell) : gset (Extent * Time) :=
  list_to_set
    (flat_map (λ '(extent, cell), (λ timestamp, (extent, timestamp)) <$> time_values (sources cell))
              (map_to_list cells)).

(** The body of the loop over [cells_in.items()]. *)
Definition remove_from_cell (sigs_out : gset (Extent * Time)) (extent : Extent) (cell : Cell)
  : option Cell :=
  let tiles := sources cell in
  let to_add := filter (λ timestamp, (extent, timestamp) ∉ sigs_out) (time_values tiles) in
  tiles' ← loc tiles to_add;
  Some {| geobox := geobox cell; sources := tiles' |}.

(** [remove_duplicates(cells_in, cells_out)].  The Python function updates
    the cells of [cells_in] in place and returns nothing; here it returns
    the updated [cells_in], or [None] when a lookup raises. *)
Definition remove_duplicates (cells_in cells_out : gmap Extent Cell)
  : option (gmap Extent Cell) :=
  if decide (cells_out = ∅) then Some cells_in
  else
    let sigs_out := signatures cells_out in
    items ← mapM (λ '(extent, cell),
                    cell' ← remove_from_cell sigs_out extent cell;
                    Some (extent, cell'))
                 (map_to_list cells_in);
    Some (list_to_map items).

(** *** Time slicing *)

(** The runs of [step] entries, the last one possibly shorter; [fuel]
    bounds their number. *)
Fixpoint runs_of (fuel step : nat) (tiles : list (Time * Sources))
  : list (list (Time * Sources)) :=
  match fuel, tiles with
  | S fuel', _ :: _ => take step tiles :: runs_of fuel' step (drop step tiles)
  | _, _ => []
  end.

(** Modelled from the spec: [Tile.split(dim, step)] of
    [datacube/api/grid_workflow.py] is not among the sources.  It splits
    the cell's time axis into contiguous runs of at most [step] time
    stamps, each run as long as possible, and yields for each run a pair
    of a coordinate value and the sub-tile; [find_diff] reads the second
    component only.  No run can be formed with [step = 0]. *)
Definition split (tile : Cell) (step : nat) : list (Time * Cell) :=
  match step with
  | 0 => []
  | S _ =>
      (λ run, (default 0%Z (head (time_values run)),
               {| geobox := geobox tile; sources := run |}))
        <$> runs_of (length (sources tile)) step (sources tile)
  end.

Record Task : Type := mkTask {
  tile : Cell;
  tile_index : Extent
}.

(** The two loops of [find_diff] after de-duplication. *)
Definition slice_tasks (cells_in : gmap Extent Cell) (time_size : nat) : list Task :=
  let tasks := (λ '(extent, cell), {| tile := cell; tile_index := extent |})
                 <$> map_to_list cells_in in
  flat_map (λ task, (λ t, {| tile := t.2; tile_index := tile_index task |})
                      <$> split (tile task) time_size)
           tasks.

Section FindDiff.
(** [GridWorkflow.list_cells], the catalog query that grids a product. *)
Context {Product Query : Type}.
Variable list_cells : Product -> Query -> gmap Extent Cell.

Definition find_diff (input_type output_type : Product) (time_size : nat) (query : Query)
  : option (list Task) :=
  let cells_in := list_cells input_type query in
  let cells_out := list_cells output_type query in
  cells_in' ← remove_duplicates cells_in cells_out;
  Some (slice_tasks cells_in' time_size).
End FindDiff.

End Cells.

Arguments Cell : clear implicits.
Arguments Task : clear implicits.

End Diff.

(** ** The S3 chunk index ([drivers/s3/index.py]) *)

Module S3.

(** A UUID; [uuid4()] draws the next one from a supply of unused ones. *)
Abbreviation UUID := nat.

Section Index.

(** Numeric-library scalars, plain scalars and [np.asscalar]. *)
Context {NpScalar Scalar : Type}.
Variable asscalar : NpScalar -> Scalar.

(** One entry of [output['key_maps']]; a slice is its [start] and [stop]. *)
Record KeyMap : Type := mkKeyMap {
  s3_key : string;
  chunk_id : Z;
  compression : string;
  chunk : list (Z * Z);
  index_min : list NpScalar;
  index_max : list NpScalar
}.

(** The storage driver's description of one band. *)
Record Output : Type := mkOutput {
  base_name : string;
  bucket : string;
  macro_shape : list Z;
  chunk_size : list Z;
  numpy_type : string;
  dimensions : list string;
  regular_dims : list bool;
  regular_index : list (option (list NpScalar));
  irregular_index : list (option (list NpScalar));
  key_maps : list KeyMap
}.

(** Rows of the tables [S3_DATASET], [S3_DATASET_CHUNK] and
    [S3_DATASET_MAPPING]. *)
Record S3DatasetRow : Type := mkS3DatasetRow {
  ds_id : UUID;
  ds_base_name : string;
  ds_band : string;
  ds_bucket : string;
  ds_macro_shape : list Z;
  ds_chunk_size : list Z;
  ds_numpy_type : string;
  ds_dimensions : list string;
  ds_regular_dims : list bool;
  ds_regular_index : list (list Scalar);
  ds_irregular_index : list (list (option Scalar))
}.

Record S3ChunkRow : Type := mkS3ChunkRow {
  ch_id : UUID;
  ch_s3_dataset_id : UUID;
  ch_s3_key : string;
  ch_chunk_id : Z;
  ch_compression_scheme : string;
  ch_micro_shape : list Z;
  ch_index_min : list Scalar;
  ch_index_max : list Scalar
}.

Record S3MappingRow : Type := mkS3MappingRow {
  mp_id : UUID;
  mp_dataset_ref : UUID;
  mp_band : string;
  mp_s3_dataset_id : UUID
}.

Inductive Insert : Type :=
| InsertDataset (row : S3DatasetRow)
| InsertChunk (row : S3ChunkRow)
| InsertMapping (row : S3MappingRow).

(** The catalog of the base index is opaque; the three S3 tables are
    lists of rows. *)
Context {Catalog : Type}.

Record Database : Type := mkDatabase {
  catalog : Catalog;
  S3_DATASET : list S3DatasetRow;
  S3_DATASET_CHUNK : list S3ChunkRow;
  S3_DATASET_MAPPING : list S3MappingRow
}.

Record State : Type := mkState {
  db : Database;
  uuid_supply : UUID
}.

Definition uuid4 : M State UUID :=
  λ s, ({| db := db s; uuid_supply := S (uuid_supply s) |}, Ok (uuid_supply s)).

Definition insert_row (stmt : Insert) (d : Database) : Database :=
  match stmt with
  | InsertDataset row =>
      {| catalog := catalog d; S3_DATASET := S3_DATASET d ++ [row];
         S3_DATASET_CHUNK := S3_DATASET_CHUNK d; S3_DATASET_MAPPING := S3_DATASET_MAPPING d |}
  | InsertChunk row =>
      {| catalog := catalog d; S3_DATASET := S3_DATASET d;
         S3_DATASET_CHUNK := S3_DATASET_CHUNK d ++ [row];
         S3_DATASET_MAPPING := S3_DATASET_MAPPING d |}
  | InsertMapping row =>
      {| catalog := catalog d; S3_DATASET := S3_DATASET d;
         S3_DATASET_CHUNK := S3_DATASET_CHUNK d;
         S3_DATASET_MAPPING := S3_DATASET_MAPPING d ++ [row] |}
  end.

(** What makes the database refuse a statement (a constraint, a lost
    connection) is not in the sources. *)
Variable refuses : Database -> Insert -> option exn.

(** [_connection.execute(TABLE.insert().values(...))] *)
Definition execute (stmt : Insert) : M State unit :=
  λ s, match refuses (db s) stmt with
       | Some e => (s, Raise e)
       | None => ({| db := insert_row stmt (db s); uuid_supply := uuid_supply s |}, Ok tt)
       end.

(** Modelled from the spec: the context manager [self._db.begin()] of
    [datacube/index/postgres] is not among the sources.  The statements
    of the [with] block run in one transaction, committed when the block
    ends and rolled back, the exception re-raised, when it raises. *)
Definition with_transaction {A} (body : M State A) : M State A :=
  λ s, match body s with
       | (s', Ok a) => (s', Ok a)
       | (s', Raise e) => ({| db := db s; uuid_supply := uuid_supply s' |}, Raise e)
       end.

Definition put_s3_mapping (dataset_ref : UUID) (band : string) (s3_dataset_id : UUID)
  : M State UUID :=
  id ← uuid4;
  _ ← execute (InsertMapping {| mp_id := id; mp_dataset_ref := dataset_ref;
                                mp_band := band; mp_s3_dataset_id := s3_dataset_id |});
  mret id.

Definition put_s3_dataset (s3_dataset_id : UUID) (base_name band bucket : string)
    (macro_shape chunk_size : list Z) (numpy_type : string) (dimensions : list string)
    (regular_dims : list bool) (regular_index : list (list Scalar))
    (irregular_index : list (list (option Scalar))) : M State UUID :=
  _ ← execute (InsertDataset
                 {| ds_id := s3_dataset_id; ds_base_name := base_name; ds_band := band;
                    ds_bucket := bucket; ds_macro_shape := macro_shape;
                    ds_chunk_size := chunk_size; ds_numpy_type := numpy_type;
                    ds_dimensions := dimensions; ds_regular_dims := regular_dims;
                    ds_regular_index := regular_index;
                    ds_irregular_index := irregular_index |});
  mret s3_dataset_id.

Definition put_s3_dataset_chunk (s3_dataset_id : UUID) (s3_key : string) (chunk_id : Z)
    (compression_scheme : string) (micro_shape : list Z) (index_min index_max : list Scalar)
  : M State UUID :=
  id ← uuid4;
  _ ← execute (InsertChunk
                 {| ch_id := id; ch_s3_dataset_id := s3_dataset_id; ch_s3_key := s3_key;
                    ch_chunk_id := chunk_id; ch_compression_scheme := compression_scheme;
                    ch_micro_shape := micro_shape; ch_index_min := index_min;
                    ch_index_max := index_max |});
  mret id.

(** [[list(map(np.asscalar, index)) for index in indices if index is not None]] *)
Fixpoint scalar_lists (indices : list (option (list NpScalar))) : list (list Scalar) :=
  match indices with
  | [] => []
  | Some index :: rest => map asscalar index :: scalar_lists rest
  | None :: rest => scalar_lists rest
  end.

(** The padding of the irregular indices in [_add_s3_dataset]. *)
Definition pad_irregular (irregular_indices : list (list Scalar))
  : list (list (option Scalar)) :=
  match irregular_indices with
  | [] => []
  | _ =>
      let irregular_max_size := max_list (length <$> irregular_indices) in
      (λ index, (Some <$> index) ++ replicate (irregular_max_size - length index) None)
        <$> irregular_indices
  end.

Definition _add_s3_dataset (s3_dataset_id : UUID) (band : string) (output : Output)
  : M State unit :=
  let regular_indices := scalar_lists (regular_index output) in
  let irregular_indices := pad_irregular (scalar_lists (irregular_index output)) in
  _ ← put_s3_dataset s3_dataset_id (base_name output) band (bucket output)
        (macro_shape output) (chunk_size output) (numpy_type output)
        (dimensions output) (regular_dims output) regular_indices irregular_indices;
  mret tt.

Definition _add_s3_dataset_chunks (s3_dataset_id : UUID) (band : string) (output : Output)
  : M State unit :=
  for_each (key_maps output) (λ key_map,
    let micro_shape := (λ chunk_dim : Z * Z, (chunk_dim.2 - chunk_dim.1)%Z) <$> chunk key_map in
    let index_min := asscalar <$> index_min key_map in
    let index_max := asscalar <$> index_max key_map in
    _ ← put_s3_dataset_chunk s3_dataset_id (s3_key key_map) (chunk_id key_map)
          (compression key_map) micro_shape index_min index_max;
    mret tt).

Definition _add_s3_dataset_mappings (s3_dataset_id : UUID) (band : string)
    (dataset_refs : list UUID) : M State unit :=
  for_each dataset_refs (λ dataset_ref,
    _ ← put_s3_mapping dataset_ref band s3_dataset_id;
    mret tt).

(** The body of the loop over [storage_output.items()]. *)
Definition add_band (dataset_refs : list UUID) (item : string * Output) : M State unit :=
  let '(band, output) := item in
  s3_dataset_id ← uuid4;
  _ ← _add_s3_dataset s3_dataset_id band output;
  _ ← _add_s3_dataset_chunks s3_dataset_id band output;
  _add_s3_dataset_mappings s3_dataset_id band dataset_refs.

Definition add_s3_tables (dataset_refs : list UUID) (storage_output : gmap string Output)
  : M State unit :=
  with_transaction (for_each (map_to_list storage_output) (add_band dataset_refs)).

(** *** Indexing a batch of datasets *)

Record Dataset : Type := mkDataset {
  id : UUID;
  uris : list string
}.

(** The array of datasets an ingestion task returns: its attributes and
    its values along the time axis; [len(datasets)] is the length of that
    axis. *)
Record Datasets : Type := mkDatasets {
  attrs : gmap string (gmap string Output);
  values : list Dataset
}.

(** [uri.split(':', 1)[1]] *)
Fixpoint after_colon (uri : string) : option string :=
  match uri with
  | EmptyString => None
  | String c rest => if Ascii.eqb c (Ascii.ascii_of_nat 58) then Some rest else after_colon rest
  end.

Definition set_scheme (uri_scheme uri : string) : M State string :=
  match after_colon uri with
  | Some rest => mret (uri_scheme +:+ ":" +:+ rest)
  | None => raise (IndexError "list index out of range")
  end.

(** The [add] of the base dataset resource ([datacube/index/_datasets.py],
    not among the sources) and what it returns. *)
Context {Added : Type}.
Variable base_add : Catalog -> Dataset -> Catalog * Result Added.

Definition super_add (dataset : Dataset) : M State Added :=
  λ s, let '(c, r) := base_add (catalog (db s)) dataset in
       ({| db := {| catalog := c; S3_DATASET := S3_DATASET (db s);
                    S3_DATASET_CHUNK := S3_DATASET_CHUNK (db s);
                    S3_DATASET_MAPPING := S3_DATASET_MAPPING (db s) |};
           uuid_supply := uuid_supply s |}, r).

Variable uri_scheme : string.

(** [DatasetResource.add] *)
Definition add (dataset : Dataset) : M State Added :=
  uris' ← mapM (set_scheme uri_scheme) (uris dataset);
  super_add {| id := id dataset; uris := uris' |}.

(** The loop of [Index.add_datasets]. *)
Fixpoint add_each (datasets : list Dataset) (dataset_refs : list UUID) (n : nat)
  : M State (list UUID * nat) :=
  match datasets with
  | [] => mret (dataset_refs, n)
  | dataset :: rest =>
      _ ← add dataset;
      add_each rest (dataset_refs ++ [id dataset]) (n + 1)
  end.

(** [Index.add_datasets] *)
Definition add_datasets (datasets : Datasets) : M State nat :=
  match attrs datasets !! "storage_output" with
  | None => raise (ValueError "s3 storage output not received, indexing aborted.")
  | Some storage_output =>
      '(dataset_refs, n) ← add_each (values datasets) [] 0;
      if decide (n = length (values datasets)) then
        _ ← add_s3_tables dataset_refs storage_output;
        mret n
      else
        raise (ValueError "Some datasets could not be indexed, hence no s3 indexing will happen.")
  end.

End Index.

Arguments KeyMap : clear implicits.
Arguments Output : clear implicits.
Arguments S3DatasetRow : clear implicits.
Arguments S3ChunkRow : clear implicits.
Arguments Insert : clear implicits.
Arguments Database : clear implicits.
Arguments State : clear implicits.
Arguments Datasets : clear implicits.

End S3.

(** ** The lineage cache ([ingest.py], [get_full_lineage]) *)

Module Lineage.
Section Cache.

(** An index object, a dataset with its sources, and
    [index.datasets.get(id_, include_sources=True)], which answers
    [None] for an unknown id. *)
Context {Index Dataset : Type}.
Variable datasets_get : Index -> S3.UUID -> Result (option Dataset).

(** [@cachetools.cached(cache={}, key=lambda index, id_: id_)]: the
    wrapper looks the key up in the dictionary, which starts empty and
    lives as long as the process, and calls the function and stores what
    it returns only when the key is missing. *)
Definition get_full_lineage (index : Index) (id_ : S3.UUID)
  : M (gmap S3.UUID (option Dataset)) (option Dataset) :=
  λ cache,
    match cache !! id_ with
    | Some v => (cache, Ok v)
    | None =>
        match datasets_get index id_ with
        | Ok v => (<[id_ := v]> cache, Ok v)
        | Raise e => (cache, Raise e)
        end
    end.

(** Any further calls, whatever their outcome. *)
Fixpoint calls (args : list (Index * S3.UUID)) (cache : gmap S3.UUID (option Dataset))
  : gmap S3.UUID (option Dataset) :=
  match args with
  | [] => cache
  | (index, id_) :: rest => calls rest (get_full_lineage index id_ cache).1
  end.

End Cache.
End Lineage.

(** ** The task scheduler ([ingest.py], [process_tasks]) *)

Module Sched.
Section ProcessTasks.

(** The world the executor and the driver manager act on, tasks, the
    handles (futures) of submitted tasks and the value of a completed
    task. *)
Context {World Task Handle Datasets : Type}.

(** The executor, [datacube.executor], is used through four methods.
    [submit] stands for [executor.submit(ingest_work, ..., **task)]. *)
Class Executor : Type := {
  submit : Task -> World -> World * Handle;
  get_ready : list Handle -> World -> World * (list Handle * list Handle * list Handle);
  result : Handle -> M World Datasets;
  results : list Handle -> M World (list Datasets)
}.
Context `{!Executor}.

(** [driver_manager.index_datasets(datasets, sources_policy='verify')] *)
Variable index_datasets : Datasets -> M World nat.

(** What [process_tasks] writes to the log. *)
Inductive LogRecord : Type :=
| SubmittingTask (task : Task)
| Ready (completed failed pending : nat)
| TaskFailed (e : exn)
| GatherFailed (e : exn).

Fixpoint index_each (results : list Datasets) (n : nat) : M World nat :=
  match results with
  | [] => mret n
  | datasets :: rest => k ← index_datasets datasets; index_each rest (n + k)
  end.

Definition _index_datasets (results : list Datasets) : M World nat :=
  index_each results 0.

Record Loop : Type := mkLoop {
  world : World;
  log : list LogRecord;
  tasks : list Task;
  pending : list Handle;
  n_successful : nat;
  n_failed : nat
}.

(** [[submit_task(task) for task in ...]] *)
Fixpoint submit_tasks (ts : list Task) (w : World) (lg : list LogRecord)
  : World * list LogRecord * list Handle :=
  match ts with
  | [] => (w, lg, [])
  | task :: rest =>
      let '(w1, future) := submit task w in
      let '(w2, lg2, futures) := submit_tasks rest w1 (lg ++ [SubmittingTask task]) in
      (w2, lg2, future :: futures)
  end.

(** The loop over [failed]. *)
Fixpoint fetch_failed (failed : list Handle) (w : World) (lg : list LogRecord) (n_failed : nat)
  : World * list LogRecord * nat :=
  match failed with
  | [] => (w, lg, n_failed)
  | future :: rest =>
      match result future w with
      | (w', Ok _) => fetch_failed rest w' lg n_failed
      | (w', Raise e) => fetch_failed rest w' (lg ++ [TaskFailed e]) (n_failed + 1)
      end
  end.

(** How many tasks the top-up pulls: [max(0, queue_size - len(pending))]. *)
Definition room (queue_size : Z) (pending : list Handle) : nat :=
  Z.to_nat (Z.max 0 (queue_size - Z.of_nat (length pending))).

(** The state of a cycle after the top-up, the poll and the loop over
    the failed handles. *)
Record Polled : Type := mkPolled {
  p_world : World;
  p_log : list LogRecord;
  p_tasks : list Task;
  p_in_flight : list Handle;
  p_completed : list Handle;
  p_failed : list Handle;
  p_pending : list Handle;
  p_n_failed : nat
}.

(** The first half of the loop body; [None] is the [break]. *)
Definition poll (queue_size : Z) (st : Loop) : option Polled :=
  let n := room queue_size (pending st) in
  let '(w1, lg1, futures) := submit_tasks (take n (tasks st)) (world st) (log st) in
  let in_flight := pending st ++ futures in
  match in_flight with
  | [] => None
  | _ :: _ =>
      let '(w2, (completed, failed, pending')) := get_ready in_flight w1 in
      let lg2 := lg1 ++ [Ready (length completed) (length failed) (length pending')] in
      let '(w3, lg3, n_failed') := fetch_failed failed w2 lg2 (n_failed st) in
      Some {| p_world := w3; p_log := lg3; p_tasks := drop n (tasks st);
              p_in_flight := in_flight; p_completed := completed; p_failed := failed;
              p_pending := pending'; p_n_failed := n_failed' |}
  end.

(** [_index_datasets(driver_manager, executor.results(completed))] *)
Definition gather (completed : list Handle) : M World nat :=
  rs ← results completed; _index_datasets rs.

Inductive Outcome : Type :=
| Return (n_successful n_failed : nat)
| Continue (st : Loop).

(** One pass through the body of [while True]. *)
Definition cycle (queue_size : Z) (st : Loop) : Outcome :=
  match poll queue_size st with
  | None => Return (n_successful st) (n_failed st)
  | Some p =>
      match p_completed p with
      | [] =>
          (* time.sleep(1); continue *)
          Continue {| world := p_world p; log := p_log p; tasks := p_tasks p;
                      pending := p_pending p; n_successful := n_successful st;
                      n_failed := p_n_failed p |}
      | _ :: _ =>
          match gather (p_completed p) (p_world p) with
          | (w, Ok n) =>
              Continue {| world := w; log := p_log p; tasks := p_tasks p;
                          pending := p_pending p; n_successful := n_successful st + n;
                          n_failed := p_n_failed p |}
          | (w, Raise e) =>
              Continue {| world := w; log := p_log p ++ [GatherFailed e]; tasks := p_tasks p;
                          pending := p_pending p ++ p_completed p;
                          n_successful := n_successful st;
                          n_failed := p_n_failed p |}
          end
      end
  end.

Definition start (w : World) (ts : list Task) : Loop :=
  {| world := w; log := []; tasks := ts; pending := []; n_successful := 0; n_failed := 0 |}.

(** The state at the start of the [k]-th top-up, if the loop gets there. *)
Fixpoint state_at (queue_size : Z) (k : nat) (st : Loop) : option Loop :=
  match k with
  | 0 => Some st
  | S k' =>
      match cycle queue_size st with
      | Return _ _ => None
      | Continue st' => state_at queue_size k' st'
      end
  end.

Fixpoint run (fuel : nat) (queue_size : Z) (st : Loop) : option (nat * nat) :=
  match fuel with
  | 0 => None
  | S fuel' =>
      match cycle queue_size st with
      | Return n_successful n_failed => Some (n_successful, n_failed)
      | Continue st' => run fuel' queue_size st'
      end
  end.

(** [process_tasks]; the loop has no bound of its own, [fuel] is the
    number of cycles it is given, and [None] is a loop that is still
    running after them.  The tasks are an iterator in the source; what
    producing a task does besides yielding it is left out. *)
Definition process_tasks (fuel : nat) (w : World) (ts : list Task) (queue_size : Z)
  : option (nat * nat) :=
  run fuel queue_size (start w ts).

End ProcessTasks.

Arguments Executor : clear implicits.
Arguments Loop : clear implicits.
Arguments Polled : clear implicits.
Arguments LogRecord : clear implicits.
Arguments Outcome : clear implicits.

End Sched.

(** ** The unit of work ([ingest.py], [ingest_work]) *)

Module Ingest.
Import Diff.

Section IngestWork.
Context {Sources Geobox NpScalar Data : Type}.

(** [Datacube.load_data] with the measurements and the fuse function of
    the configuration, [make_dataset] as the local [_make_dataset] calls
    it, and [driver_manager.write_dataset_to_storage]; none of the three
    is among the sources. *)
Variable load_data : list (Time * Sources) -> Geobox -> Result Data.
Variable make_dataset : Geobox -> Time -> Sources -> S3.Dataset.
Variable write_dataset_to_storage :
  Data -> list S3.Dataset -> Extent -> Result (gmap string (S3.Output NpScalar)).

(** [ingest_work]: [xr_apply(tile.sources, _make_dataset)] makes one
    dataset per time stamp of the tile, and the description of what the
    storage driver wrote is attached to the array as [storage_output]. *)
Definition ingest_work (tile : Cell Sources Geobox) (tile_index : Extent)
  : Result (S3.Datasets NpScalar) :=
  data ← load_data (sources tile) (geobox tile);
  let datasets := (λ '(time, srcs), make_dataset (geobox tile) time srcs) <$> sources tile in
  storage_output ← write_dataset_to_storage data datasets tile_index;
  Ok {| S3.attrs := {[ "storage_output" := storage_output ]}; S3.values := datasets |}.
End IngestWork.
End Ingest.

(** ** A small installation

    A catalog, a database and an executor to run the definitions above on
    concrete inputs. *)

Module Demo.
Import Diff S3 Sched.

(** The catalog is the list of the ids it holds.  The base [add] refuses a
    dataset whose document differs from the indexed one (here: id 13),
    skips one that is indexed already and indexes any other; it returns
    whether it indexed the dataset. *)
Definition base_add (c : list UUID) (dataset : Dataset) : list UUID * Result bool :=
  if decide (id dataset = 13) then (c, Raise (OtherError "DocumentMismatchError"))
  else if decide (id dataset ∈ c) then (c, Ok false)
  else (c ++ [id dataset], Ok true).

(** The database refuses an [S3_DATASET] row without a base name. *)
Definition refuses (d : Database Z (list UUID)) (stmt : Insert Z) : option exn :=
  match stmt with
  | InsertDataset row =>
      if decide (ds_base_name row = "") then Some (OtherError "IntegrityError") else None
  | _ => None
  end.

Definition add_datasets (datasets : Datasets Z) : M (State Z (list UUID)) nat :=
  S3.add_datasets (λ x : Z, x) refuses base_add "s3" datasets.

Definition empty_index : State Z (list UUID) :=
  {| db := {| catalog := []; S3_DATASET := []; S3_DATASET_CHUNK := [];
              S3_DATASET_MAPPING := [] |};
     uuid_supply := 100 |}.

(** Loading fails for a tile with a time stamp that has no source. *)
Definition load_data (tiles : list (Time * list UUID)) (g : unit) : Result unit :=
  if decide (Forall (λ e : Time * list UUID, e.2 ≠ []) tiles) then Ok tt
  else Raise (OtherError "no data").

Definition make_dataset (g : unit) (time : Time) (srcs : list UUID) : Dataset :=
  {| id := Z.to_nat time; uris := ["file:///data/tile.nc"] |}.

Definition key_map (key : string) : KeyMap Z :=
  {| s3_key := key; chunk_id := 0; compression := "None"; chunk := [(0, 1); (0, 2); (0, 2)]%Z;
     index_min := [0; 0; 0]%Z; index_max := [1; 2; 2]%Z |}.

(** West of the origin the driver leaves the base name empty. *)
Definition band_output (tile_index : Extent) : Output Z :=
  {| base_name := if decide (tile_index.1 < 0)%Z then "" else "tile";
     bucket := "bucket"; macro_shape := [1; 2; 2]%Z; chunk_size := [1; 2; 2]%Z;
     numpy_type := "int16"; dimensions := ["time"; "y"; "x"];
     regular_dims := [false; true; true];
     regular_index := [None; Some [0; 1; 2]; Some [0; 1; 2]]%Z;
     irregular_index := [Some [7]; None; None]%Z;
     key_maps := [key_map "tile_red_0"] |}.

Definition write_dataset_to_storage (data : unit) (datasets : list Dataset) (tile_index : Extent)
  : Result (gmap string (Output Z)) :=
  Ok {[ "red" := band_output tile_index ]}.

Definition ingest_work (task : Task (list UUID) unit) : Result (Datasets Z) :=
  Ingest.ingest_work load_data make_dataset write_dataset_to_storage
                     (tile task) (tile_index task).

(** The executor runs a task when it is submitted and keeps what came of
    it; a handle is the position of the outcome. *)
Record World : Type := mkWorld {
  outcomes : list (Result (Datasets Z));
  index : State Z (list UUID)
}.

Definition outcome (w : World) (future : nat) : option (Result (Datasets Z)) :=
  outcomes w !! future.

Definition is_completed (w : World) (future : nat) : Prop :=
  match outcome w future with Some (Ok _) => True | _ => False end.

Definition is_failed (w : World) (future : nat) : Prop :=
  match outcome w future with Some (Raise _) => True | _ => False end.

Definition is_unknown (w : World) (future : nat) : Prop := outcome w future = None.

#[global] Instance is_completed_dec w future : Decision (is_completed w future).
Proof. unfold is_completed. destruct (outcome w future) as [[?|?]|]; apply _. Defined.

#[global] Instance is_failed_dec w future : Decision (is_failed w future).
Proof. unfold is_failed. destruct (outcome w future) as [[?|?]|]; apply _. Defined.

#[global] Instance is_unknown_dec w future : Decision (is_unknown w future).
Proof. unfold is_unknown. apply _. Defined.

Definition fetch (future : nat) : M World (Datasets Z) :=
  λ w, match outcome w future with
       | Some r => (w, r)
       | None => (w, Raise (KeyError "unknown future"))
       end.

#[global] Instance executor : Executor World (Task (list UUID) unit) nat (Datasets Z) := {|
  submit task w :=
    ({| outcomes := outcomes w ++ [ingest_work task]; index := index w |},
     length (outcomes w));
  get_ready futures w :=
    (w, (filter (is_completed w) futures, filter (is_failed w) futures,
         filter (is_unknown w) futures));
  result := fetch;
  results futures := mapM fetch futures
|}.

Definition index_datasets (datasets : Datasets Z) : M World nat :=
  λ w, let '(s, r) := add_datasets datasets (index w) in
       ({| outcomes := outcomes w; index := s |}, r).

Definition world0 : World := {| outcomes := []; index := empty_index |}.

(** Tasks: a tile at a grid index with the given time stamps, each with
    the given sources. *)
Definition task_at (tile_index : Extent) (tiles : list (Time * list UUID))
  : Task (list UUID) unit :=
  {| tile := {| geobox := tt; sources := tiles |}; tile_index := tile_index |}.

Definition one_day : Task (list UUID) unit := task_at (1, 1)%Z [(1%Z, [1])].
Definition next_day : Task (list UUID) unit := task_at (1, 2)%Z [(2%Z, [2])].
Definition no_data : Task (list UUID) unit := task_at (2, 2)%Z [(3%Z, [])].
Definition two_days : Task (list UUID) unit := task_at (3, 3)%Z [(4%Z, [4]); (5%Z, [5])].
Definition out_west : Task (list UUID) unit := task_at (-1, 0)%Z [(6%Z, [6])].

(** Cells for the diff engine: the source product has five days at one
    grid index, the output product two of them. *)
Definition cells_in : gmap Extent (Cell nat unit) :=
  {[ (4, 5)%Z := {| geobox := tt;
                    sources := [(1%Z, 10); (2%Z, 20); (3%Z, 30); (4%Z, 40); (5%Z, 50)] |} ]}.

Definition cells_out : gmap Extent (Cell nat unit) :=
  {[ (4, 5)%Z := {| geobox := tt; sources := [(2%Z, 21); (4%Z, 41)] |} ]}.

Definition list_cells (product : bool) (query : unit) : gmap Extent (Cell nat unit) :=
  if product then cells_in else cells_out.

(** A batch of two datasets with its storage output, one whose second
    dataset the base index refuses, and one that repeats a dataset. *)
Definition dataset_of (n : UUID) : Dataset := {| id := n; uris := ["file:///data/tile.nc"] |}.

Definition batch_of (ids : list UUID) : Datasets Z :=
  {| attrs := {[ "storage_output" := {[ "red" := band_output (1, 1)%Z ]} ]};
     values := dataset_of <$> ids |}.

(** A catalog of lineages, for the cache. *)
Definition datasets_get (index : list (UUID * string)) (id_ : UUID)
  : Result (option string) :=
  Ok ((λ found : nat * (UUID * string), found.2.2)
        <$> list_find (λ e : UUID * string, e.1 = id_) index).

(** A storage output of two bands, the second without a base name. *)
Definition two_bands : gmap string (Output Z) :=
  {[ "red" := band_output (1, 1)%Z; "nir" := band_output (-1, 0)%Z ]}.

End Demo.

(** ** Reading the S3 tables ([drivers/s3/index.py], [get_s3_dataset],
    [get_s3_dataset_chunk] and [add_specifics]) *)

Module S3Query.
Import S3.

Section Queries.
Context {Scalar Catalog : Type}.

(** When the connection fails a query; not in the sources. *)
Variable unavailable : Database Scalar Catalog -> option exn.

(** [_connection.execute(select(...)).fetchall()] *)
Definition fetchall {A} (answer : Database Scalar Catalog -> list A)
  : M (State Scalar Catalog) (list A) :=
  λ s, match unavailable (db s) with
       | Some e => (s, Raise e)
       | None => (s, Ok (answer (db s)))
       end.

(** The query of [get_s3_dataset]: all columns of [S3_DATASET], from
    [S3_DATASET] outer-joined to [S3_DATASET_MAPPING] on
    [s3_dataset_id == id], where the mapping has the given [dataset_ref]
    and [band].  A row of [S3_DATASET] without a mapping joins to nulls,
    which the [where] clause rejects, so every row of the answer comes
    from a pair of a dataset row and a mapping row.  SQL leaves the order
    of the answer open; here it is the order of the tables. *)
Definition joined_rows (d : Database Scalar Catalog) (dataset_ref : UUID) (band : string)
  : list (S3DatasetRow Scalar) :=
  flat_map
    (λ row, (λ _ : S3MappingRow, row)
              <$> filter (λ m, mp_s3_dataset_id m = ds_id row
                               ∧ mp_dataset_ref m = dataset_ref ∧ mp_band m = band)
                         (S3_DATASET_MAPPING d))
    (S3_DATASET d).

Definition get_s3_dataset (dataset_ref : UUID) (band : string)
  : M (State Scalar Catalog) (list (S3DatasetRow Scalar)) :=
  fetchall (λ d, joined_rows d dataset_ref band).

(** The six columns [get_s3_dataset_chunk] selects. *)
Record ChunkColumns : Type := mkChunkColumns {
  cc_s3_key : string;
  cc_chunk_id : Z;
  cc_compression_scheme : string;
  cc_micro_shape : list Z;
  cc_index_min : list Scalar;
  cc_index_max : list Scalar
}.

Definition chunk_columns (row : S3ChunkRow Scalar) : ChunkColumns :=
  {| cc_s3_key := ch_s3_key row; cc_chunk_id := ch_chunk_id row;
     cc_compression_scheme := ch_compression_scheme row;
     cc_micro_shape := ch_micro_shape row;
     cc_index_min := ch_index_min row; cc_index_max := ch_index_max row |}.

Definition chunks_of (d : Database Scalar Catalog) (s3_dataset_id : UUID)
  : list ChunkColumns :=
  chunk_columns <$> filter (λ row, ch_s3_dataset_id row = s3_dataset_id) (S3_DATASET_CHUNK d).

Definition get_s3_dataset_chunk (s3_dataset_id : UUID)
  : M (State Scalar Catalog) (list ChunkColumns) :=
  fetchall (λ d, chunks_of d s3_dataset_id).

(** The loops of [add_specifics]: for each band the rows found are
    stored under the band one after the other, so that the last one
    stays. *)
Fixpoint collect_bands (dataset_id : UUID) (bands : list string)
    (s3_metadata : gmap string (S3DatasetRow Scalar))
  : M (State Scalar Catalog) (gmap string (S3DatasetRow Scalar)) :=
  match bands with
  | [] => mret s3_metadata
  | band :: rest =>
      s3_datasets ← get_s3_dataset dataset_id band;
      collect_bands dataset_id rest
        (foldl (λ meta s3_dataset, <[band := s3_dataset]> meta) s3_metadata s3_datasets)
  end.

(** [DatasetResource.add_specifics(dataset)], given [dataset.id] and the
    keys of [dataset.measurements]; it returns the [s3_metadata] it
    attaches to the dataset, each [{'s3_dataset': row}] as the row. *)
Definition add_specifics (dataset_id : UUID) (measurements : list string)
  : M (State Scalar Catalog) (gmap string (S3DatasetRow Scalar)) :=
  match measurements with
  | [] => mret ∅
  | _ :: _ => with_transaction (collect_bands dataset_id measurements ∅)
  end.

End Queries.

Arguments ChunkColumns : clear implicits.

End S3Query.

(** ** Command-line helpers ([ui/click.py], and [_validate_year] of
    [ingest.py]) *)

Module Cli.

(** *** Strings *)

(** [s.split(sep)] and [s.split(sep, maxsplit)] for a separator of one
    character: the pieces between the separators, cutting at most
    [maxsplit] times from the left. *)
Fixpoint py_split (sep : Ascii.ascii) (maxsplit : option nat) (s : string) : list string :=
  match s with
  | EmptyString => [EmptyString]
  | String c rest =>
      if Ascii.eqb c sep then
        match maxsplit with
        | Some 0 => [s]
        | Some (S n) => EmptyString :: py_split sep (Some n) rest
        | None => EmptyString :: py_split sep None rest
        end
      else
        match py_split sep maxsplit rest with
        | piece :: pieces => String c piece :: pieces
        | [] => [String c EmptyString]
        end
  end.

Definition colon : Ascii.ascii := Ascii.ascii_of_nat 58.
Definition hyphen : Ascii.ascii := Ascii.ascii_of_nat 45.
Definition quote : string := String (Ascii.ascii_of_nat 34) EmptyString.

(** What [click] raises besides Python's own exceptions:
    [ParamType.fail] and [BadParameter(...)] on the one hand, [ctx.fail]
    on the other. *)
Inductive Click (A : Type) : Type :=
| Pass (a : A)
| BadParameter (message : string)
| UsageError (message : string)
| Uncaught (e : exn).
Arguments Pass {A} a.
Arguments BadParameter {A} message.
Arguments UsageError {A} message.
Arguments Uncaught {A} e.

(** *** [compose] *)

Section Compose.
Context {A : Type}.

Definition compose2 (f g : A -> A) : A -> A := λ x, f (g x).

(** [functools.reduce(compose2, functions, lambda x: x)] *)
Definition compose (functions : list (A -> A)) : A -> A :=
  foldl compose2 (λ x, x) functions.

End Compose.

(** *** Numbers on the command line *)

Section Numbers.

(** [int(s)] for a string; [None] is its [ValueError]. *)
Variable int_ : string -> option Z.

(** [_validate_year(ctx, param, value)]; a tuple of years is the list of
    its components. *)
Definition _validate_year (value : option string) : Click (option (list Z)) :=
  match value with
  | None => Pass None
  | Some value =>
      match mapM int_ (py_split hyphen (Some 2) value) with
      | Some years =>
          match years with
          | [year] => Pass (Some [year; year])
          | _ => Pass (Some years)
          end
      | None =>
          BadParameter ("year must be specified as a single year (eg 1996) "
                        +:+ "or as an inclusive range (eg 1996-2001)")
      end
  end.

(** [parse_endpoint(value)]: unpacking anything but two pieces is a
    [ValueError], as is a port that is no number. *)
Definition parse_endpoint (value : string) : Result (string * Z) :=
  match py_split colon None value with
  | [ip; port] =>
      match int_ port with
      | Some port => Ok (ip, port)
      | None => Raise (ValueError "invalid literal for int() with base 10")
      end
  | [] | [_] => Raise (ValueError "not enough values to unpack (expected 2)")
  | _ :: _ :: _ :: _ => Raise (ValueError "too many values to unpack (expected 2)")
  end.

(** The second argument of [get_executor]: [None], a number of workers,
    or [True]. *)
Inductive Workers : Type :=
| NoWorkers
| WorkerCount (n : Z)
| WorkersTrue.

(** [get_executor] and [mk_celery_executor] of [datacube.executor]. *)
Context {Executor : Type}.
Variable get_executor : option (string * Z) -> Workers -> Result Executor.
Variable mk_celery_executor : string -> Z -> Result Executor.

(** The entries of [EXECUTOR_TYPES], applied to the second component of
    the option's value, which is [None] when the option is not given. *)
Definition serial (arg : option string) : Result Executor :=
  get_executor None NoWorkers.

Definition multiproc (workers : option string) : Result Executor :=
  match workers with
  | None => Raise (OtherError "TypeError")
  | Some workers =>
      match int_ workers with
      | Some n => get_executor None (WorkerCount n)
      | None => Raise (ValueError "invalid literal for int() with base 10")
      end
  end.

Definition distributed (addr : option string) : Result Executor :=
  match addr with
  | None => Raise (OtherError "AttributeError")
  | Some addr => endpoint ← parse_endpoint addr; get_executor (Some endpoint) WorkersTrue
  end.

Definition celery (addr : option string) : Result Executor :=
  match addr with
  | None => Raise (OtherError "AttributeError")
  | Some addr => endpoint ← parse_endpoint addr; mk_celery_executor endpoint.1 endpoint.2
  end.

Definition EXECUTOR_TYPES : gmap string (option string -> Result Executor) :=
  <["dask" := distributed]>
    (<["celery" := celery]>
       (<["distributed" := distributed]>
          (<["multiproc" := multiproc]> (<["serial" := serial]> ∅)))).

(** ['%s' % arg] *)
Definition str_of (arg : option string) : string := default "None" arg.

(** [_setup_executor(ctx, param, value)] *)
Definition _setup_executor (value : string * option string) : Click Executor :=
  match EXECUTOR_TYPES !! value.1 with
  | None => Uncaught (KeyError value.1)
  | Some make =>
      match make value.2 with
      | Ok executor => Pass executor
      | Raise (ValueError _) =>
          UsageError ("Failed to create '" +:+ value.1 +:+ "' executor with '"
                      +:+ str_of value.2 +:+ "'")
      | Raise e => Uncaught e
      end
  end.

End Numbers.

(** *** [PathlibPath] *)

Record PathlibPath : Type := mkPathlibPath {
  exists_ : bool;
  file_okay : bool;
  dir_okay : bool;
  writable : bool;
  readable : bool;
  resolve_path : bool;
  name : option string;
  path_type : option string
}.

(** [self.name = name; self.path_type = path_type] *)
Definition set_names (self : PathlibPath) (name path_type : string) : PathlibPath :=
  {| exists_ := exists_ self; file_okay := file_okay self; dir_okay := dir_okay self;
     writable := writable self; readable := readable self;
     resolve_path := resolve_path self;
     name := Some name; path_type := Some path_type |}.

(** [PathlibPath.__init__]; the arguments default to
    [exists=False, file_okay=True, dir_okay=True, writable=False,
    readable=True, resolve_path=False]. *)
Definition __init__ (exists_ file_okay dir_okay writable readable resolve_path : bool)
  : PathlibPath :=
  let self := {| exists_ := exists_; file_okay := file_okay; dir_okay := dir_okay;
                 writable := writable; readable := readable;
                 resolve_path := resolve_path; name := None; path_type := None |} in
  let self :=
    if Cli.file_okay self && negb (Cli.dir_okay self) then set_names self "file" "File"
    else self in
  if Cli.dir_okay self && negb (Cli.file_okay self) then set_names self "directory" "Directory"
  else set_names self "path" "Path".

Section Convert.

(** Paths and the file system: [Path(value)], [rv.resolve()],
    [rv.exists()], [rv.is_file()], [rv.is_dir()], [os.access(value,
    os.W_OK)], [os.access(value, os.R_OK)] and click's
    [filename_to_ui]. *)
Context {Path : Type}.
Variable path_of : string -> Path.
Variable resolve : Path -> Path.
Variable path_exists is_file is_dir : Path -> bool.
Variable access_w access_r : string -> bool.
Variable filename_to_ui : string -> string.

(** [self.fail('%s "%s" <what>' % (self.path_type, filename_to_ui(value)),
    param, ctx)] *)
Definition fail (self : PathlibPath) (value what : string) : Click Path :=
  match path_type self with
  | Some path_type =>
      BadParameter (path_type +:+ " " +:+ quote +:+ filename_to_ui value +:+ quote +:+ what)
  | None => Uncaught (OtherError "AttributeError")
  end.

(** [PathlibPath.convert(value, param, ctx)] *)
Definition convert (self : PathlibPath) (value : string) : Click Path :=
  let rv := path_of value in
  let rv := if resolve_path self then resolve rv else rv in
  if negb (exists_ self) then Pass rv
  else if exists_ self && negb (path_exists rv) then
    fail self value " does not exist."
  else if negb (file_okay self) && is_file rv then
    fail self value " is a file."
  else if negb (dir_okay self) && is_dir rv then
    fail self value " is a directory."
  else if writable self && negb (access_w value) then
    fail self value " is not writable."
  else if readable self && negb (access_r value) then
    fail self value " is not readable."
  else Pass rv.

End Convert.

End Cli.

(** ** The measurements of a configuration ([ingest.py],
    [get_measurements] and the [merge_measurement] of
    [morph_dataset_type]) *)

Module Config.
Section Values.

(** The scalars of a configuration document: [None], booleans, integers,
    floats and strings; [float_bool] is [bool(x)] for a float. *)
Context {Float : Type}.
Variable float_bool : Float -> bool.

Inductive Value : Type :=
| VNone
| VBool (b : bool)
| VInt (n : Z)
| VFloat (x : Float)
| VStr (s : string).

(** [bool(v)] *)
Definition truthy (v : Value) : bool :=
  match v with
  | VNone => false
  | VBool b => b
  | VInt n => negb (n =? 0)%Z
  | VFloat x => float_bool x
  | VStr s => negb (String.eqb s "")
  end.

(** [d[k]] and [d.get(k)] *)
Definition index {A} (d : gmap string A) (k : string) : Result A :=
  match d !! k with
  | Some v => Ok v
  | None => Raise (KeyError k)
  end.

Definition get (d : gmap string Value) (k : string) : Value := default VNone (d !! k).

(** [d[key]] for a dictionary with string keys and any scalar as the
    key. *)
Definition index_value {A} (d : gmap string A) (key : Value) : Result A :=
  match key with
  | VStr k => index d k
  | _ => Raise (KeyError "")
  end.

(** [measurement.update(items)] *)
Definition update (measurement : gmap string Value) (items : list (string * Value))
  : gmap string Value :=
  foldl (λ m item, <[item.1 := item.2]> m) measurement items.

(** The [merge_measurement] of [get_measurements]:
    [{k: spec.get(k) or measurement[k] for k in (...)}] *)
Definition merge_measurement (measurement spec : gmap string Value)
  : Result (gmap string Value) :=
  items ← mapM (λ k, v ← (if truthy (get spec k) then Ok (get spec k)
                           else index measurement k);
                     Ok (k, v))
               ["nodata"; "dtype"; "resampling_method"];
  Ok (update measurement items).

(** The [merge_measurement] of [morph_dataset_type]:
    [{k: spec.get(k, measurement[k]) for k in (...)}], the default being
    evaluated before the call. *)
Definition merge_measurement_type (measurement spec : gmap string Value)
  : Result (gmap string Value) :=
  items ← mapM (λ k, m ← index measurement k; Ok (k, default m (spec !! k)))
               ["name"; "nodata"; "dtype"];
  Ok (update measurement items).

(** [get_measurements(source_type, config)], given
    [source_type.measurements] and [config['measurements']]; each source
    measurement is copied before it is merged. *)
Definition get_measurements (measurements : gmap string (gmap string Value))
    (config_measurements : list (gmap string Value)) : Result (list (gmap string Value)) :=
  mapM (λ spec, src_varname ← index spec "src_varname";
                measurement ← index_value measurements src_varname;
                merge_measurement measurement spec)
       config_measurements.

End Values.

Arguments Value : clear implicits.

End Config.

(** ** The task list ([ingest.py], [create_task_list]) *)

Module TaskList.
Import Diff.

Section CreateTaskList.

(** The index, a dataset and its id, footprints, products, points in
    time and coordinates. *)
Context {Index D Geobox Product DateTime Coord : Type}.
Variable dataset_id : D -> S3.UUID.
Variable datasets_get : Index -> S3.UUID -> Result (option D).

(** [datetime(year=..., month=..., day=...)], which raises [ValueError]
    for a year out of its range. *)
Variable datetime : Z -> Z -> Z -> Result DateTime.

(** The keyword arguments of the search; a [Range] is the pair of its
    ends. *)
Record Query : Type := mkQuery {
  q_time : option (DateTime * DateTime);
  q_x : option (Coord * Coord);
  q_y : option (Coord * Coord)
}.

Variable list_cells : Product -> Query -> gmap Extent (Cell (list D) Geobox).

Record Bounds : Type := mkBounds {
  left : Coord;
  right : Coord;
  bottom : Coord;
  top : Coord
}.

(** What [create_task_list] reads and writes of the configuration:
    [config['ingestion_bounds']] when present,
    [config['storage']['tile_size']['time']] when present, whether
    [config] has the key [fuse_data], and [config['taskfile_version']]. *)
Record Config : Type := mkConfig {
  ingestion_bounds : option Bounds;
  tile_size_time : option nat;
  fuse_data : option string;
  taskfile_version : option Z
}.

(** [int(time.time())] *)
Variable now : Z.

Inductive LogRecord : Type :=
| TasksDiscovered (n : nat)
| Skipping (tile_index : Extent) (require_fusing : list (list D)).

(** The cache of [get_full_lineage], which outlives the call, and the
    log. *)
Record Env : Type := mkEnv {
  cache : gmap S3.UUID (option D);
  log : list LogRecord
}.

Definition write_log (record : LogRecord) : M Env unit :=
  λ env, ({| cache := cache env; log := log env ++ [record] |}, Ok tt).

Definition with_cache {A} (m : M (gmap S3.UUID (option D)) A) : M Env A :=
  λ env, let '(c, r) := m (cache env) in ({| cache := c; log := log env |}, r).

(** The query: the years from [year[0]] to [year[1]], both included,
    and the bounds of the configuration. *)
Definition time_range (year : option (list Z)) : Result (option (DateTime * DateTime)) :=
  match year with
  | None | Some [] => Ok None
  | Some (first :: rest) =>
      start ← datetime first 1 1;
      match rest with
      | [] => Raise (IndexError "tuple index out of range")
      | last :: _ => stop ← datetime (last + 1) 1 1; Ok (Some (start, stop))
      end
  end.

Definition build_query (year : option (list Z)) (config : Config) : Result Query :=
  time ← time_range year;
  Ok {| q_time := time;
        q_x := (λ bounds, (left bounds, right bounds)) <$> ingestion_bounds config;
        q_y := (λ bounds, (bottom bounds, top bounds)) <$> ingestion_bounds config |}.

(** [[source for source in tile.sources.values if len(source) > 1]] *)
Definition require_fusing (tile : Cell (list D) Geobox) : list (list D) :=
  filter (λ source, 1 < length source) (sources tile).*2.

Definition check_valid (config : Config) (task : Task (list D) Geobox) : M Env bool :=
  match fuse_data config with
  | Some _ => mret true
  | None =>
      match require_fusing (tile task) with
      | [] => mret true
      | _ :: _ =>
          _ ← write_log (Skipping (tile_index task) (require_fusing (tile task)));
          mret false
      end
  end.

Definition update_sources (index : Index) (sources : list D) : M Env (list (option D)) :=
  mapM (λ dataset, with_cache (Lineage.get_full_lineage datasets_get index (dataset_id dataset)))
       sources.

Definition update_task (index : Index) (task : Task (list D) Geobox)
  : M Env (Task (list (option D)) Geobox) :=
  sources' ← mapM (λ entry : Time * list D,
                     sources' ← update_sources index entry.2;
                     mret (entry.1, sources'))
                  (sources (tile task));
  mret {| tile := {| geobox := geobox (tile task); sources := sources' |};
          tile_index := tile_index task |}.

(** The generator of the valid tasks, each passed through
    [update_task], run to its end. *)
Fixpoint yield_tasks (config : Config) (index : Index) (tasks : list (Task (list D) Geobox))
  : M Env (list (Task (list (option D)) Geobox)) :=
  match tasks with
  | [] => mret []
  | task :: rest =>
      valid ← check_valid config task;
      if (valid : bool) then
        task' ← update_task index task;
        rest' ← yield_tasks config index rest;
        mret (task' :: rest')
      else yield_tasks config index rest
  end.

(** [create_task_list]; it returns the tasks, and the configuration with
    its new [taskfile_version].  An exception inside [find_diff] is
    passed on. *)
Definition create_task_list (index : Index) (output_type : Product) (year : option (list Z))
    (source_type : Product) (config : Config)
  : M Env (Config * list (Task (list (option D)) Geobox)) :=
  let config := {| ingestion_bounds := ingestion_bounds config;
                   tile_size_time := tile_size_time config;
                   fuse_data := fuse_data config;
                   taskfile_version := Some now |} in
  match build_query year config with
  | Raise e => raise e
  | Ok query =>
      let time_size := default 1 (tile_size_time config) in
      match find_diff list_cells source_type output_type time_size query with
      | None => raise (OtherError "find_diff")
      | Some tasks =>
          _ ← write_log (TasksDiscovered (length tasks));
          tasks' ← yield_tasks config index tasks;
          mret (config, tasks')
      end
  end.

End CreateTaskList.

Arguments Query : clear implicits.
Arguments Bounds : clear implicits.
Arguments Config : clear implicits.
Arguments LogRecord : clear implicits.
Arguments Env : clear implicits.

End TaskList.

(** * Properties *)

(** [ceil_div t s] is the least [n] with [t <= n * s]. *)
Lemma ceil_div_least (t s : nat) :
  1 <= s -> t <= ceil_div t s * s /\ forall n, t <= n * s -> ceil_div t s <= n.
Proof.
  intros Hs. unfold ceil_div. split.
  - pose proof (Nat.div_mod_eq (t + s - 1) s) as E.
    pose proof (Nat.mod_upper_bound (t + s - 1) s ltac:(lia)) as Hr.
    rewrite (Nat.mul_comm _ s). lia.
  - intros n Hn. apply Nat.lt_succ_r, Nat.Div0.div_lt_upper_bound.
    rewrite (Nat.mul_comm s). simpl. lia.
Qed.

Module DiffProps.
Import Diff.

Section CellFacts.
Context {Sources Geobox : Type}.
Implicit Types (tiles : list (Time * Sources)) (cell : Cell Sources Geobox).
Implicit Types (cells : gmap Extent (Cell Sources Geobox)).

(** In the words of the specification: the signature [(extent, timestamp)] occurs
    in [cells_out]. *)
Definition occurs_in cells (extent : Extent) (timestamp : Time) : Prop :=
  match cells !! extent with
  | Some cell => timestamp ∈ time_values (sources cell)
  | None => False
  end.

#[local] Instance occurs_in_dec cells extent timestamp :
  Decision (occurs_in cells extent timestamp).
Proof. unfold occurs_in. destruct (cells !! extent); apply _. Defined.

(** A cell of [cells_in] with exactly the time stamps of [cells_out]
    taken out. *)
Definition without cells_out (extent : Extent) cell : Cell Sources Geobox :=
  {| geobox := geobox cell;
     sources := filter (λ e, ¬ occurs_in cells_out extent e.1) (sources cell) |}.

(** The labels of a time index are unique. *)
Definition cells_wf cells : Prop :=
  map_Forall (λ _ cell, NoDup (time_values (sources cell))) cells.

Lemma get_loc_elem tiles e :
  NoDup (time_values tiles) -> e ∈ tiles -> get_loc tiles e.1 = Some e.
Proof.
  unfold time_values. induction tiles as [|x tiles IH]; intros Hnd Hin.
  - by apply elem_of_nil in Hin.
  - rewrite fmap_cons in Hnd. apply NoDup_cons in Hnd as [Hx Hnd]. simpl.
    apply elem_of_cons in Hin as [->|Hin].
    + by rewrite decide_True.
    + rewrite decide_False; [by apply IH|].
      intros Heq. apply Hx. rewrite Heq. by apply list_elem_of_fmap_2.
Qed.

Lemma take_labels_sub tiles es :
  NoDup (time_values tiles) -> es ⊆ tiles -> take_labels tiles es.*1 = Some es.
Proof.
  intros Hnd. induction es as [|e es IH]; intros Hsub; [done|].
  rewrite fmap_cons. simpl.
  rewrite get_loc_elem; [|done|apply Hsub; left]. simpl.
  rewrite IH; [done|]. intros x Hx. apply Hsub. by right.
Qed.

Lemma loc_filter (P : Time -> Prop) `{!∀ t, Decision (P t)} tiles :
  NoDup (time_values tiles) ->
  loc tiles (filter P (time_values tiles)) = Some (filter (λ e, P e.1) tiles).
Proof.
  intros Hnd. unfold loc. rewrite decide_True by done.
  replace (filter P (time_values tiles)) with ((filter (λ e, P e.1) tiles).*1).
  - apply take_labels_sub; [done|]. intros x Hx.
    by apply list_elem_of_filter in Hx as [_ Hx].
  - unfold time_values. clear Hnd. induction tiles as [|x tiles IH]; [done|].
    rewrite fmap_cons, !filter_cons. simpl.
    destruct (decide (P x.1)); rewrite ?fmap_cons, IH; done.
Qed.

Lemma elem_of_signatures cells extent timestamp :
  (extent, timestamp) ∈ signatures cells <-> occurs_in cells extent timestamp.
Proof.
  unfold signatures, occurs_in. rewrite elem_of_list_to_set, list_elem_of_In, in_flat_map.
  split.
  - intros [[ext c] [Hc Hin]]. apply list_elem_of_In, list_elem_of_fmap in Hin as [t [Heq Ht]].
    inversion Heq; subst.
    apply list_elem_of_In, elem_of_map_to_list in Hc. by rewrite Hc.
  - destruct (cells !! extent) as [c|] eqn:Hc; [|done]. intros Ht.
    exists (extent, c). split.
    + by apply list_elem_of_In, elem_of_map_to_list.
    + apply list_elem_of_In, list_elem_of_fmap. by exists timestamp.
Qed.

Lemma remove_from_cell_wf cells_out extent cell :
  NoDup (time_values (sources cell)) ->
  remove_from_cell (signatures cells_out) extent cell = Some (without cells_out extent cell).
Proof.
  intros Hnd. unfold remove_from_cell, without.
  rewrite (loc_filter (λ t, (extent, t) ∉ signatures cells_out)) by done. simpl.
  do 2 f_equal. apply list_filter_iff. intros e.
  by rewrite elem_of_signatures.
Qed.

Lemma mapM_items_wf cells_out (items : list (Extent * Cell Sources Geobox)) :
  Forall (λ kc, NoDup (time_values (sources kc.2))) items ->
  mapM (λ '(extent, cell),
          cell' ← remove_from_cell (signatures cells_out) extent cell;
          Some (extent, cell')) items
  = Some ((λ kc, (kc.1, without cells_out kc.1 kc.2)) <$> items).
Proof.
  induction 1 as [|[ext c] items Hc _ IH]; [done|].
  simpl in Hc. rewrite fmap_cons. cbn [mapM]. rewrite remove_from_cell_wf by done.
  simpl. by rewrite IH.
Qed.

Lemma lookup_items_to_map cells_out cells extent :
  (list_to_map ((λ kc, (kc.1, without cells_out kc.1 kc.2)) <$> map_to_list cells)
     : gmap Extent (Cell Sources Geobox)) !! extent
  = without cells_out extent <$> cells !! extent.
Proof.
  assert (((λ kc : Extent * Cell Sources Geobox, (kc.1, without cells_out kc.1 kc.2))
             <$> map_to_list cells).*1 = (map_to_list cells).*1) as Hfst.
  { rewrite <-list_fmap_compose. by apply list_fmap_ext. }
  destruct (cells !! extent) as [c|] eqn:Hc; simpl.
  - apply elem_of_list_to_map_1.
    + rewrite Hfst. apply NoDup_fst_map_to_list.
    + apply list_elem_of_fmap. exists (extent, c). split; [done|].
      by apply elem_of_map_to_list.
  - apply not_elem_of_list_to_map_1. rewrite Hfst.
    intros Hin. apply list_elem_of_fmap in Hin as [[k c] [Hk Hin]]. simpl in Hk. subst k.
    apply elem_of_map_to_list in Hin. congruence.
Qed.

Lemma without_empty extent cell :
  without (∅ : gmap Extent (Cell Sources Geobox)) extent cell = cell.
Proof.
  destruct cell as [g ts]. unfold without. simpl. f_equal.
  induction ts as [|e ts IH]; [done|].
  rewrite filter_cons, decide_True; [by rewrite IH|].
  unfold occurs_in. rewrite lookup_empty. tauto.
Qed.

Lemma remove_duplicates_wf cells_in cells_out :
  cells_wf cells_in ->
  ∃ cells', remove_duplicates cells_in cells_out = Some cells' ∧
    ∀ extent, cells' !! extent = without cells_out extent <$> cells_in !! extent.
Proof.
  intros Hwf. unfold remove_duplicates. destruct (decide (cells_out = ∅)) as [->|Hne].
  - exists cells_in. split; [done|]. intros extent.
    destruct (cells_in !! extent); simpl; [|done]. by rewrite without_empty.
  - rewrite mapM_items_wf.
    + simpl. eexists. split; [done|]. intros extent. apply lookup_items_to_map.
    + apply Forall_forall. intros [k c] Hin. apply elem_of_map_to_list in Hin.
      by apply (Hwf k c).
Qed.

(** C2.  [remove_duplicates] takes out of every cell of [cells_in] the
    entries whose [(extent, timestamp)] signature occurs in [cells_out],
    keeps every other entry in its place, and leaves [cells_in] as it is
    when [cells_out] is empty. *)
Theorem remove_duplicates_exact cells_in cells_out :
  (cells_out = ∅ -> remove_duplicates cells_in cells_out = Some cells_in) ∧
  (cells_wf cells_in ->
   ∃ cells', remove_duplicates cells_in cells_out = Some cells' ∧
     ∀ extent, cells' !! extent = without cells_out extent <$> cells_in !! extent).
Proof.
  split.
  - intros ->. unfold remove_duplicates. by rewrite decide_True.
  - apply remove_duplicates_wf.
Qed.

(** *** Time slicing *)

Lemma ceil_div_0 s : 1 <= s -> ceil_div 0 s = 0.
Proof. intros Hs. unfold ceil_div. apply Nat.div_small. lia. Qed.

Lemma ceil_div_step n s : 1 <= s -> 0 < n -> ceil_div n s = S (ceil_div (n - s) s).
Proof.
  intros Hs Hn. unfold ceil_div. destruct (decide (n <= s)) as [Hle|Hgt].
  - replace (n - s) with 0 by lia.
    replace (n + s - 1) with ((n - 1) + 1 * s) by lia.
    rewrite Nat.div_add by lia. rewrite !Nat.div_small by lia. done.
  - replace (n + s - 1) with ((n - s + s - 1) + 1 * s) by lia.
    rewrite Nat.div_add by lia. lia.
Qed.

Lemma runs_of_concat fuel step tiles :
  1 <= step -> length tiles <= fuel -> concat (runs_of fuel step tiles) = tiles.
Proof.
  intros Hs. revert tiles. induction fuel as [|fuel IH]; intros tiles Hlen.
  - destruct tiles; [done|simpl in Hlen; lia].
  - destruct tiles as [|e tiles]; [done|].
    cbn [runs_of concat]. rewrite IH, take_drop; [done|].
    rewrite length_drop. simpl in *. lia.
Qed.

Lemma runs_of_bounded fuel step tiles :
  Forall (λ run, length run <= step) (runs_of fuel step tiles).
Proof.
  revert tiles. induction fuel as [|fuel IH]; intros tiles; [constructor|].
  destruct tiles as [|e tiles]; [constructor|].
  cbn [runs_of]. constructor; [|apply IH]. rewrite length_take. lia.
Qed.

Lemma runs_of_length fuel step tiles :
  1 <= step -> length tiles <= fuel ->
  length (runs_of fuel step tiles) = ceil_div (length tiles) step.
Proof.
  intros Hs. revert tiles. induction fuel as [|fuel IH]; intros tiles Hlen.
  - destruct tiles; [|simpl in Hlen; lia]. simpl. by rewrite ceil_div_0.
  - destruct tiles as [|e tiles]; [simpl; by rewrite ceil_div_0|].
    cbn [runs_of length]. rewrite IH.
    + rewrite length_drop. rewrite (ceil_div_step (S (length tiles))) by lia. done.
    + rewrite length_drop. simpl in *. lia.
Qed.

(** The tasks [find_diff] emits for one cell. *)
Definition cell_tasks (extent : Extent) cell (time_size : nat) : list (Task Sources Geobox) :=
  (λ t, {| tile := t.2; tile_index := extent |}) <$> split cell time_size.

Lemma slice_tasks_flat cells time_size :
  slice_tasks cells time_size
  = flat_map (λ kc, cell_tasks kc.1 kc.2 time_size) (map_to_list cells).
Proof.
  unfold slice_tasks. induction (map_to_list cells) as [|[k c] items IH]; [done|].
  rewrite fmap_cons. simpl. by rewrite IH.
Qed.

Lemma cell_tasks_index extent cell time_size :
  Forall (λ task, tile_index task = extent) (cell_tasks extent cell time_size).
Proof. unfold cell_tasks. apply Forall_fmap, Forall_true. done. Qed.

Lemma filter_all {A} (P : A -> Prop) `{!∀ x, Decision (P x)} (l : list A) :
  Forall P l -> filter P l = l.
Proof.
  induction 1 as [|x l Hx _ IH]; [done|]. by rewrite filter_cons, decide_True, IH.
Qed.

Lemma filter_none {A} (P : A -> Prop) `{!∀ x, Decision (P x)} (l : list A) :
  Forall (λ x, ¬ P x) l -> filter P l = [].
Proof.
  induction 1 as [|x l Hx _ IH]; [done|]. by rewrite filter_cons, decide_False, IH.
Qed.

Lemma filter_tasks_other extent time_size (items : list (Extent * Cell Sources Geobox)) :
  extent ∉ items.*1 ->
  filter (λ task, tile_index task = extent)
         (flat_map (λ kc, cell_tasks kc.1 kc.2 time_size) items) = [].
Proof.
  induction items as [|[k c] items IH]; intros Hk; [done|].
  rewrite fmap_cons in Hk. apply not_elem_of_cons in Hk as [Hne Hk].
  cbn [flat_map]. rewrite filter_app, IH by done. rewrite app_nil_r.
  apply filter_none. eapply Forall_impl; [apply cell_tasks_index|].
  simpl. intros task -> Heq. by apply Hne.
Qed.

Lemma filter_tasks_cell extent cell time_size (items : list (Extent * Cell Sources Geobox)) :
  NoDup items.*1 -> (extent, cell) ∈ items ->
  filter (λ task, tile_index task = extent)
         (flat_map (λ kc, cell_tasks kc.1 kc.2 time_size) items)
  = cell_tasks extent cell time_size.
Proof.
  induction items as [|[k c] items IH]; intros Hnd Hin.
  - by apply elem_of_nil in Hin.
  - rewrite fmap_cons in Hnd. apply NoDup_cons in Hnd as [Hk Hnd].
    cbn [flat_map]. rewrite filter_app. simpl in *.
    apply elem_of_cons in Hin as [Heq|Hin].
    + inversion Heq; subst k c.
      rewrite filter_tasks_other by done. rewrite app_nil_r.
      apply filter_all, cell_tasks_index.
    + assert (k ≠ extent) as Hne.
      { intros ->. apply Hk. by apply (list_elem_of_fmap_2 fst _ (extent, cell)). }
      rewrite IH by done.
      rewrite filter_none; [done|].
      eapply Forall_impl; [apply cell_tasks_index|]. simpl. congruence.
Qed.

Lemma cell_tasks_runs extent cell step :
  1 <= step ->
  (λ task, sources (tile task)) <$> cell_tasks extent cell step
  = runs_of (length (sources cell)) step (sources cell).
Proof.
  intros Hs. unfold cell_tasks, split. destruct step as [|step]; [lia|].
  rewrite <-!list_fmap_compose. apply list_fmap_id.
Qed.

Lemma cell_tasks_provenance extent cell time_size task :
  task ∈ cell_tasks extent cell time_size ->
  tile_index task = extent ∧ geobox (tile task) = geobox cell
  ∧ sources (tile task) ⊆ sources cell.
Proof.
  unfold cell_tasks, split. destruct time_size as [|n]; [by intros ?%elem_of_nil|].
  rewrite <-list_fmap_compose. intros [run [-> Hrun]]%list_elem_of_fmap. simpl.
  split_and!; [done..|]. intros e He.
  rewrite <-(runs_of_concat (length (sources cell)) (S n) (sources cell)) by lia.
  apply list_elem_of_In, in_concat. exists run. by rewrite <-!list_elem_of_In.
Qed.

Section FindDiffFacts.
Context {Product Query : Type}.
Variable list_cells : Product -> Query -> gmap Extent (Cell Sources Geobox).

(** C3.  With a slice size of at least one, [find_diff] emits for a
    cell that keeps [T] time stamps after de-duplication exactly
    [ceil (T / time_size)] tasks, each of at most [time_size] time
    stamps, whose time stamps put end to end are the cell's, in order;
    every emitted task carries the grid index of the cell its tile is
    a fragment of. *)
Theorem find_diff_time_slices input_type output_type time_size query :
  1 <= time_size ->
  cells_wf (list_cells input_type query) ->
  ∃ cells tasks,
    remove_duplicates (list_cells input_type query) (list_cells output_type query)
      = Some cells ∧
    find_diff list_cells input_type output_type time_size query = Some tasks ∧
    (∀ task, task ∈ tasks ->
       ∃ cell, cells !! tile_index task = Some cell
               ∧ geobox (tile task) = geobox cell
               ∧ sources (tile task) ⊆ sources cell) ∧
    (∀ extent cell, cells !! extent = Some cell ->
       let emitted := filter (λ task, tile_index task = extent) tasks in
       length emitted = ceil_div (length (sources cell)) time_size
       ∧ Forall (λ task, length (time_values (sources (tile task))) <= time_size) emitted
       ∧ concat ((λ task, time_values (sources (tile task))) <$> emitted)
         = time_values (sources cell)).
Proof.
  intros Hs Hwf.
  destruct (remove_duplicates_wf _ (list_cells output_type query) Hwf)
    as [cells [Hrd _]].
  exists cells, (slice_tasks cells time_size). unfold find_diff. rewrite Hrd.
  split; [done|]. split; [done|]. split.
  - intros task. rewrite slice_tasks_flat, list_elem_of_In, in_flat_map.
    intros [[k c] [Hkc Htask]]. simpl in Htask.
    apply list_elem_of_In, elem_of_map_to_list in Hkc.
    apply list_elem_of_In, cell_tasks_provenance in Htask as (-> & Hg & Hsub).
    by exists c.
  - intros extent cell Hcell. cbv zeta.
    rewrite slice_tasks_flat.
    rewrite (filter_tasks_cell extent cell);
      [|apply NoDup_fst_map_to_list|by apply elem_of_map_to_list].
    pose proof (cell_tasks_runs extent cell time_size Hs) as Hruns.
    split_and!.
    + rewrite <-(length_fmap (λ task, sources (tile task))), Hruns.
      by apply runs_of_length.
    + pose proof (runs_of_bounded (length (sources cell)) time_size (sources cell)) as Hb.
      rewrite <-Hruns in Hb. apply Forall_fmap in Hb.
      eapply Forall_impl; [exact Hb|]. simpl. intros task Hlen.
      unfold time_values. by rewrite length_fmap.
    + replace ((λ task, time_values (sources (tile task)))
                 <$> cell_tasks extent cell time_size)
        with (time_values <$> ((λ task, sources (tile task))
                                 <$> cell_tasks extent cell time_size))
        by (by rewrite <-list_fmap_compose).
      rewrite Hruns. unfold time_values.
      rewrite <-(runs_of_concat (length (sources cell)) time_size (sources cell)) at 3
        by done.
      generalize (runs_of (length (sources cell)) time_size (sources cell)).
      intros runs. induction runs as [|r runs IH]; [done|].
      rewrite fmap_cons. simpl. by rewrite fmap_app, IH.
Qed.
End FindDiffFacts.

End CellFacts.
End DiffProps.

Module SchedProps.
Import Sched.

Section Scheduler.
Context {World Task Handle Datasets : Type} {Exec : Executor World Task Handle Datasets}.
Variable index_datasets : Datasets -> M World nat.

Implicit Types (st : Loop World Task Handle) (p : Polled World Task Handle).
Implicit Types (w : World) (hs : list Handle).

(** *** The executor contract *)

(** [get_ready] partitions the handles it is given into the completed,
    the failed and the still pending ones. *)
Definition ready_partitions : Prop :=
  ∀ hs w, let '(_, (completed, failed, pending')) := get_ready hs w in
          completed ++ failed ++ pending' ≡ₚ hs.

(** Fetching the result of each of [failed] in turn re-raises. *)
Fixpoint all_reraise (failed : list Handle) (w : World) : Prop :=
  match failed with
  | [] => True
  | future :: rest => ∃ w' e, result future w = (w', Raise e) ∧ all_reraise rest w'
  end.

Definition failed_reraise : Prop :=
  ∀ hs w, let '(w', (_, failed, _)) := get_ready hs w in all_reraise failed w'.

(** *** The parts of a cycle *)

Lemma submit_tasks_length ts w lg :
  length (submit_tasks ts w lg).2 = length ts.
Proof.
  revert w lg. induction ts as [|t ts IH]; intros w lg; [done|].
  simpl. destruct (submit t w) as [w1 h].
  specialize (IH w1 (lg ++ [SubmittingTask t])).
  destruct (submit_tasks ts w1 _) as [[w2 lg2] hs]. simpl in *. by rewrite IH.
Qed.

Lemma poll_unfold queue_size st p :
  poll queue_size st = Some p ->
  let n := room queue_size (pending st) in
  ∃ w1 lg1 futures w2,
    submit_tasks (take n (tasks st)) (world st) (log st) = (w1, lg1, futures)
    ∧ p_in_flight p = pending st ++ futures
    ∧ p_in_flight p ≠ []
    ∧ get_ready (p_in_flight p) w1 = (w2, (p_completed p, p_failed p, p_pending p))
    ∧ fetch_failed (p_failed p) w2
        (lg1 ++ [Ready (length (p_completed p)) (length (p_failed p)) (length (p_pending p))])
        (n_failed st)
      = (p_world p, p_log p, p_n_failed p)
    ∧ p_tasks p = drop n (tasks st).
Proof.
  intros Hp. cbv zeta. unfold poll in Hp.
  destruct (submit_tasks (take (room queue_size (pending st)) (tasks st)) (world st) (log st))
    as [[w1 lg1] futures] eqn:Hs.
  destruct (pending st ++ futures) as [|h hs] eqn:Hin; [done|].
  destruct (get_ready (h :: hs) w1) as [w2 [[c f] p']] eqn:Hr.
  destruct (fetch_failed f w2 _ (n_failed st)) as [[w3 lg3] nf] eqn:Hf.
  inversion Hp; subst p; simpl. exists w1, lg1, futures, w2.
  rewrite Hr. by split_and!.
Qed.

Lemma poll_in_flight_length queue_size st p :
  poll queue_size st = Some p ->
  length (p_in_flight p)
  = length (pending st) + Nat.min (room queue_size (pending st)) (length (tasks st)).
Proof.
  intros Hp. apply poll_unfold in Hp as (w1 & lg1 & futures & w2 & Hs & -> & _).
  rewrite length_app. f_equal.
  pose proof (submit_tasks_length (take (room queue_size (pending st)) (tasks st))
                (world st) (log st)) as Hlen.
  rewrite Hs in Hlen. simpl in Hlen. by rewrite Hlen, length_take.
Qed.

Lemma poll_partition queue_size st p :
  ready_partitions -> poll queue_size st = Some p ->
  p_completed p ++ p_failed p ++ p_pending p ≡ₚ p_in_flight p.
Proof.
  intros Hpart Hp. apply poll_unfold in Hp as (w1 & lg1 & futures & w2 & _ & _ & _ & Hr & _).
  specialize (Hpart (p_in_flight p) w1). by rewrite Hr in Hpart.
Qed.

(** The next pending set is what the poll left pending, with the
    completed batch appended when gathering it failed. *)
Lemma cycle_pending queue_size st st' :
  cycle index_datasets queue_size st = Continue st' ->
  ∃ p, poll queue_size st = Some p
       ∧ tasks st' = p_tasks p
       ∧ n_failed st' = p_n_failed p
       ∧ (pending st' = p_pending p ∨ pending st' = p_pending p ++ p_completed p).
Proof.
  unfold cycle. destruct (poll queue_size st) as [p|]; [|done].
  intros Hc. exists p. split; [done|].
  destruct (p_completed p) as [|h hs].
  - inversion Hc; subst; simpl. auto.
  - destruct (gather index_datasets (h :: hs) (p_world p)) as [w [n|e]];
      inversion Hc; subst; simpl; auto.
Qed.

Lemma cycle_bound queue_size st st' :
  ready_partitions ->
  (Z.of_nat (length (pending st)) <= queue_size)%Z ->
  cycle index_datasets queue_size st = Continue st' ->
  (Z.of_nat (length (pending st')) <= queue_size)%Z.
Proof.
  intros Hpart Hb Hc. apply cycle_pending in Hc as (p & Hp & _ & _ & Hpend).
  pose proof (poll_in_flight_length _ _ _ Hp) as Hlen.
  pose proof (poll_partition _ _ _ Hpart Hp) as Hperm.
  apply Permutation_length in Hperm. rewrite !length_app in Hperm.
  assert (length (pending st') <= length (p_in_flight p)) as Hle.
  { destruct Hpend as [-> | ->]; rewrite ?length_app; lia. }
  unfold room in Hlen. lia.
Qed.

(** C1.  With an executor whose [get_ready] partitions its argument and
    a queue size of at least one, [pending] holds at most [queue_size]
    handles at the start of every top-up, whatever happened in the
    cycles before, a failed indexing pass that pushed its batch back
    included. *)
Theorem pending_within_queue_size queue_size w ts k st :
  ready_partitions ->
  (1 <= queue_size)%Z ->
  state_at index_datasets queue_size k (start w ts) = Some st ->
  (Z.of_nat (length (pending st)) <= queue_size)%Z.
Proof.
  intros Hpart Hq.
  assert (Z.of_nat (length (pending (start w ts : Loop World Task Handle))) <= queue_size)%Z
    as Hb by (simpl; lia).
  revert Hb. generalize (start w ts : Loop World Task Handle). revert st.
  induction k as [|k IH]; intros st st0 Hb Hk; simpl in Hk.
  - by inversion Hk; subst.
  - destruct (cycle index_datasets queue_size st0) as [|st1] eqn:Hc; [done|].
    eapply IH; [|exact Hk]. by eapply cycle_bound.
Qed.

(** *** Failed handles *)

(** The tasks the log records as submitted, in order. *)
Fixpoint submitted (lg : list (LogRecord Task)) : list Task :=
  match lg with
  | [] => []
  | SubmittingTask task :: rest => task :: submitted rest
  | _ :: rest => submitted rest
  end.

(** How often the log records a failed task. *)
Fixpoint task_failures (lg : list (LogRecord Task)) : nat :=
  match lg with
  | [] => 0
  | TaskFailed _ :: rest => S (task_failures rest)
  | _ :: rest => task_failures rest
  end.

Lemma submitted_app lg1 lg2 : submitted (lg1 ++ lg2) = submitted lg1 ++ submitted lg2.
Proof.
  induction lg1 as [|r lg1 IH]; [done|]. destruct r; simpl; by rewrite IH.
Qed.

Lemma task_failures_app lg1 lg2 :
  task_failures (lg1 ++ lg2) = task_failures lg1 + task_failures lg2.
Proof.
  induction lg1 as [|r lg1 IH]; [done|]. destruct r; simpl; by rewrite IH.
Qed.

Lemma submit_tasks_log ts w lg :
  submitted (submit_tasks ts w lg).1.2 = submitted lg ++ ts
  ∧ task_failures (submit_tasks ts w lg).1.2 = task_failures lg.
Proof.
  revert w lg. induction ts as [|t ts IH]; intros w lg; simpl.
  - by rewrite app_nil_r.
  - destruct (submit t w) as [w1 h].
    specialize (IH w1 (lg ++ [SubmittingTask t])).
    destruct (submit_tasks ts w1 _) as [[w2 lg2] hs]. simpl in *.
    destruct IH as [-> ->]. rewrite submitted_app, task_failures_app. simpl.
    rewrite <-app_assoc. split; [done|lia].
Qed.

Lemma fetch_failed_reraise failed w lg n :
  all_reraise failed w ->
  ∃ w' lg', fetch_failed failed w lg n = (w', lg', n + length failed)
            ∧ submitted lg' = submitted lg
            ∧ task_failures lg' = task_failures lg + length failed.
Proof.
  revert w lg n. induction failed as [|h failed IH]; intros w lg n Hall; simpl.
  - exists w, lg. split_and!; [f_equal|..]; try done; lia.
  - destruct Hall as (w1 & e & -> & Hall).
    destruct (IH w1 (lg ++ [TaskFailed e]) (n + 1) Hall) as (w' & lg' & -> & Hs & Hf).
    exists w', lg'. rewrite Hs, Hf, submitted_app, task_failures_app. simpl.
    rewrite app_nil_r. split_and!; [f_equal|..]; try done; lia.
Qed.

Lemma cycle_continues queue_size st p :
  poll queue_size st = Some p ->
  ∃ st', cycle index_datasets queue_size st = Continue st'
         ∧ tasks st' = p_tasks p
         ∧ n_failed st' = p_n_failed p
         ∧ submitted (log st') = submitted (p_log p)
         ∧ task_failures (log st') = task_failures (p_log p)
         ∧ (pending st' = p_pending p ∨ pending st' = p_pending p ++ p_completed p).
Proof.
  intros Hp. unfold cycle. rewrite Hp. destruct (p_completed p) as [|h hs].
  - eexists. split; [done|]. simpl. split_and!; auto.
  - destruct (gather index_datasets (h :: hs) (p_world p)) as [w [n|e]].
    + eexists. split; [done|]. simpl. split_and!; auto.
    + eexists. split; [done|]. simpl.
      rewrite submitted_app, task_failures_app. simpl. rewrite app_nil_r.
      split_and!; auto.
Qed.

Lemma poll_failed_counted queue_size st p :
  failed_reraise -> poll queue_size st = Some p ->
  p_n_failed p = n_failed st + length (p_failed p)
  ∧ task_failures (p_log p) = task_failures (log st) + length (p_failed p)
  ∧ submitted (p_log p) ++ p_tasks p = submitted (log st) ++ tasks st.
Proof.
  intros Hfail Hp.
  apply poll_unfold in Hp as (w1 & lg1 & futures & w2 & Hs & Hin & _ & Hr & Hf & Hdrop).
  specialize (Hfail (p_in_flight p) w1). rewrite Hr in Hfail.
  match type of Hf with
  | fetch_failed _ _ ?lg _ = _ =>
      destruct (fetch_failed_reraise _ _ lg (n_failed st) Hfail)
        as (w3 & lg3 & Hf' & Hs3 & Hf3)
  end.
  rewrite Hf in Hf'. inversion Hf' as [[Hw Hlg Hn]].
  pose proof (submit_tasks_log (take (room queue_size (pending st)) (tasks st))
                (world st) (log st)) as [Hsl Hfl].
  rewrite Hs in Hsl, Hfl. simpl in Hsl, Hfl.
  rewrite submitted_app, task_failures_app in *. simpl in *.
  rewrite app_nil_r in *.
  split; [done|]. split; [rewrite Hlg, Hf3, Hfl; lia|].
  rewrite Hlg, Hs3, Hsl, Hdrop, <-app_assoc. by rewrite take_drop.
Qed.

(** C9.  In a cycle that polls, the result of every handle the executor
    reports as failed is fetched, which re-raises by the executor
    contract: each is logged and counted as one failure.  The failed
    handles leave the in-flight set, and the tasks submitted so far
    followed by those not yet pulled remain the input sequence, so that
    no task is submitted again. *)
Theorem failed_counted_not_retried queue_size st p :
  ready_partitions -> failed_reraise ->
  poll queue_size st = Some p ->
  ∃ st', cycle index_datasets queue_size st = Continue st'
    ∧ n_failed st' = n_failed st + length (p_failed p)
    ∧ task_failures (log st') = task_failures (log st) + length (p_failed p)
    ∧ p_failed p ++ pending st' ⊆+ p_in_flight p
    ∧ (NoDup (p_in_flight p) -> ∀ future, future ∈ p_failed p -> future ∉ pending st')
    ∧ submitted (log st') ++ tasks st' = submitted (log st) ++ tasks st.
Proof.
  intros Hpart Hfail Hp.
  pose proof (poll_partition _ _ _ Hpart Hp) as Hperm.
  destruct (poll_failed_counted _ _ _ Hfail Hp) as (Hn & Hlog & Hseq).
  destruct (cycle_continues _ _ _ Hp)
    as (st' & Hc & Htasks & Hnf & Hsub & Htf & Hpend).
  assert (p_failed p ++ pending st' ⊆+ p_in_flight p) as Hleft.
  { rewrite <-Hperm. destruct Hpend as [-> | ->].
    - by apply submseteq_inserts_l.
    - apply Permutation_submseteq. rewrite (app_assoc (p_failed p)).
      apply Permutation_app_comm. }
  exists st'. split; [done|]. split; [by rewrite Hnf|].
  split; [by rewrite Htf|]. split; [done|]. split.
  - intros Hnd future Hin1 Hin2.
    apply submseteq_Permutation in Hleft as [rest Hrest].
    rewrite Hrest in Hnd. apply NoDup_app in Hnd as (Hnd & _ & _).
    apply NoDup_app in Hnd as (_ & Hdisj & _). by apply (Hdisj future).
  - by rewrite Hsub, Htasks.
Qed.

(** *** A failed indexing pass *)

Lemma poll_again queue_size st :
  pending st ≠ [] ->
  ∃ p futures, poll queue_size st = Some p ∧ p_in_flight p = pending st ++ futures.
Proof.
  intros Hne. unfold poll.
  destruct (submit_tasks (take (room queue_size (pending st)) (tasks st)) (world st) (log st))
    as [[w1 lg1] futures].
  destruct (pending st ++ futures) as [|h hs] eqn:Hin.
  { apply app_eq_nil in Hin as [? _]. done. }
  destruct (get_ready (h :: hs) w1) as [w2 [[c f] p']].
  destruct (fetch_failed f w2 _ (n_failed st)) as [[w3 lg3] nf].
  eexists _, futures. split; [done|]. done.
Qed.

(** C5.  When gathering and indexing the completed batch of a cycle
    raises, the whole batch is appended to [pending], the success count
    stays as it was and the failure is logged.  The loop then goes round
    again and polls a set that holds the whole batch; once the executor
    reports the batch completed again, that cycle gathers and indexes
    it again. *)
Theorem failed_gather_requeued queue_size st p w e :
  poll queue_size st = Some p ->
  p_completed p ≠ [] ->
  gather index_datasets (p_completed p) (p_world p) = (w, Raise e) ->
  ∃ st', cycle index_datasets queue_size st = Continue st'
    ∧ pending st' = p_pending p ++ p_completed p
    ∧ n_successful st' = n_successful st
    ∧ log st' = p_log p ++ [GatherFailed e]
    ∧ ∃ p', poll queue_size st' = Some p'
        ∧ p_completed p ⊆ p_in_flight p'
        ∧ (p_completed p ⊆ p_completed p' ->
           ∃ st'', cycle index_datasets queue_size st' = Continue st''
             ∧ world st'' = (gather index_datasets (p_completed p') (p_world p')).1).
Proof.
  intros Hp Hne Hg.
  assert (∃ st', cycle index_datasets queue_size st = Continue st'
            ∧ pending st' = p_pending p ++ p_completed p
            ∧ n_successful st' = n_successful st
            ∧ log st' = p_log p ++ [GatherFailed e]) as (st' & Hc & Hpend & Hn & Hlog).
  { unfold cycle. rewrite Hp. destruct (p_completed p) as [|h hs] eqn:Hcomp; [done|].
    rewrite Hg. eexists. split; [done|]. done. }
  exists st'. split_and!; try done.
  destruct (poll_again queue_size st') as (p' & futures & Hp' & Hin).
  { rewrite Hpend. intros [_ ?]%app_eq_nil. done. }
  exists p'. split; [done|]. split.
  - rewrite Hin, Hpend. intros h Hh. set_solver.
  - intros Hagain. unfold cycle. rewrite Hp'.
    destruct (p_completed p') as [|h' hs'] eqn:Hcomp'.
    + destruct (p_completed p) as [|h hs]; [done|].
      specialize (Hagain h). set_solver.
    + destruct (gather index_datasets (h' :: hs') (p_world p')) as [w' [n|e']];
        eexists; (split; [done|]); done.
Qed.

(** *** The counts of a run *)

Section Counts.
(** What is known of the worlds a run goes through, and the tasks
    whose result holds a single dataset. *)
Variable Inv : World -> Prop.
Variable single : Task -> Prop.

Record preserved : Prop := {
  inv_submit : ∀ t w, single t -> Inv w -> Inv (submit t w).1;
  inv_get_ready : ∀ hs w, Inv w -> Inv (get_ready hs w).1;
  inv_result : ∀ h w, Inv w -> Inv (result h w).1;
  inv_results : ∀ hs w, Inv w -> Inv (results hs w).1;
  inv_index_datasets : ∀ ds w, Inv w -> Inv (index_datasets ds w).1
}.

(** Indexing the result counts one dataset. *)
Definition one_dataset (ds : Datasets) : Prop :=
  ∀ w w' n, Inv w -> index_datasets ds w = (w', Ok n) -> n = 1.

(** [results] answers with one result per handle, each of one dataset. *)
Definition results_one_each : Prop :=
  ∀ hs w w' rs, Inv w -> results hs w = (w', Ok rs) ->
                length rs = length hs ∧ Forall one_dataset rs.

Hypothesis Hpres : preserved.

Lemma submit_tasks_inv ts w lg :
  Forall single ts -> Inv w -> Inv (submit_tasks ts w lg).1.1.
Proof.
  intros Hts. revert w lg. induction Hts as [|t ts Ht _ IH]; intros w lg Hw; [done|].
  simpl.
  pose proof (inv_submit Hpres t w Ht Hw) as Hw1. destruct (submit t w) as [w1 h].
  specialize (IH w1 (lg ++ [SubmittingTask t]) Hw1).
  by destruct (submit_tasks ts w1 _) as [[w2 lg2] hs].
Qed.

Lemma fetch_failed_inv failed w lg n : Inv w -> Inv (fetch_failed failed w lg n).1.1.
Proof.
  revert w lg n. induction failed as [|h failed IH]; intros w lg n Hw; [done|]. simpl.
  pose proof (inv_result Hpres h w Hw) as Hw1.
  destruct (result h w) as [w1 [v|e]]; by apply IH.
Qed.

Lemma poll_inv queue_size st p :
  Forall single (tasks st) ->
  Inv (world st) -> poll queue_size st = Some p ->
  Inv (p_world p) ∧
  ∃ w1, Inv w1 ∧ (get_ready (p_in_flight p) w1).2 = (p_completed p, p_failed p, p_pending p)
        ∧ ∃ lg, fetch_failed (p_failed p) (get_ready (p_in_flight p) w1).1 lg (n_failed st)
                = (p_world p, p_log p, p_n_failed p).
Proof.
  intros Hts Hw Hp.
  apply poll_unfold in Hp as (w1 & lg1 & futures & w2 & Hs & _ & _ & Hr & Hf & _).
  pose proof (submit_tasks_inv (take (room queue_size (pending st)) (tasks st))
                (world st) (log st) (Forall_take _ _ _ Hts) Hw) as Hw1.
  rewrite Hs in Hw1. simpl in Hw1.
  pose proof (inv_get_ready Hpres (p_in_flight p) w1 Hw1) as Hw2.
  rewrite Hr in Hw2. simpl in Hw2.
  match type of Hf with
  | fetch_failed _ _ ?lg _ = _ =>
      pose proof (fetch_failed_inv (p_failed p) w2 lg (n_failed st) Hw2) as Hw3
  end.
  rewrite Hf in Hw3. split; [done|].
  exists w1. rewrite Hr. simpl. eauto.
Qed.

Lemma index_each_one rs n w :
  Inv w -> Forall one_dataset rs ->
  Inv (index_each index_datasets rs n w).1
  ∧ ∀ k, (index_each index_datasets rs n w).2 = Ok k -> k = n + length rs.
Proof.
  intros Hw Hrs. revert n w Hw.
  induction Hrs as [|ds rs Hds _ IH]; intros n w Hw; simpl.
  - split; [done|]. intros k [= <-]. lia.
  - unfold mbind, M_bind.
    pose proof (inv_index_datasets Hpres ds w Hw) as Hw1.
    destruct (index_datasets ds w) as [w1 [m|e]] eqn:Hi; simpl in *; [|done].
    apply Hds in Hi as ->; [|done].
    destruct (IH (n + 1) w1 Hw1) as [HI Hk]. split; [done|].
    intros k Hk'. apply Hk in Hk'. lia.
Qed.

Lemma gather_one hs w :
  results_one_each -> Inv w ->
  Inv (gather index_datasets hs w).1
  ∧ ∀ k, (gather index_datasets hs w).2 = Ok k -> k = length hs.
Proof.
  intros Hres Hw. unfold gather, mbind, M_bind.
  pose proof (inv_results Hpres hs w Hw) as Hw1.
  destruct (results hs w) as [w1 [rs|e]] eqn:Hr; simpl in *; [|done].
  destruct (Hres hs w w1 rs Hw Hr) as [Hlen Hone].
  destruct (index_each_one rs 0 w1 Hw1 Hone) as [HI Hk]. split; [done|].
  intros k Hk'. apply Hk in Hk'. lia.
Qed.

(** The tasks of a run are all accounted for. *)
Definition accounted (total : nat) st : Prop :=
  Inv (world st) ∧ Forall single (tasks st)
  ∧ n_successful st + n_failed st + length (pending st) + length (tasks st) = total.

Lemma cycle_accounted total queue_size st st' :
  ready_partitions -> failed_reraise -> results_one_each ->
  accounted total st ->
  cycle index_datasets queue_size st = Continue st' ->
  accounted total st'.
Proof.
  intros Hpart Hfail Hres (Hw & Hts & Hsum). unfold cycle.
  destruct (poll queue_size st) as [p|] eqn:Hp; [|done].
  pose proof (poll_in_flight_length _ _ _ Hp) as Hlen.
  pose proof (poll_partition _ _ _ Hpart Hp) as Hperm.
  apply Permutation_length in Hperm. rewrite !length_app in Hperm.
  destruct (poll_inv _ _ _ Hts Hw Hp) as [Hw3 _].
  destruct (poll_failed_counted _ _ _ Hfail Hp) as (Hnf1 & _).
  assert (length (p_tasks p) = length (tasks st) - room queue_size (pending st)
          ∧ Forall single (p_tasks p)) as [Htl Hts'].
  { apply poll_unfold in Hp as (? & ? & ? & ? & _ & _ & _ & _ & _ & ->).
    rewrite length_drop. split; [done|]. by apply Forall_drop. }
  destruct (p_completed p) as [|h hs] eqn:Hcomp.
  - intros [= <-]. split_and!; simpl in *; [done..|lia].
  - destruct (gather_one (h :: hs) (p_world p) Hres Hw3) as [Hw4 Hk].
    destruct (gather index_datasets (h :: hs) (p_world p)) as [w4 [n|e]];
      intros [= <-]; split_and!; simpl in *; try done.
    + specialize (Hk n eq_refl). lia.
    + rewrite length_app. simpl. lia.
Qed.

Lemma cycle_return total queue_size st n_ok n_bad :
  (1 <= queue_size)%Z ->
  accounted total st ->
  cycle index_datasets queue_size st = Return n_ok n_bad ->
  n_ok + n_bad = total.
Proof.
  intros Hq (Hw & Hts & Hsum). unfold cycle.
  destruct (poll queue_size st) as [p|] eqn:Hp.
  { destruct (p_completed p); [done|].
    by destruct (gather index_datasets _ (p_world p)) as [? [?|?]]. }
  intros [= <- <-]. unfold poll in Hp.
  pose proof (submit_tasks_length (take (room queue_size (pending st)) (tasks st))
                (world st) (log st)) as Hlen.
  destruct (submit_tasks _ (world st) (log st)) as [[w1 lg1] futures]. simpl in Hlen.
  destruct (pending st ++ futures) as [|h hs] eqn:Hin.
  - apply app_eq_nil in Hin as [Hpe ->]. rewrite length_take in Hlen.
    rewrite Hpe in *. unfold room in Hlen. simpl in *. lia.
  - destruct (get_ready (h :: hs) w1) as [w2 [[c f] p']].
    by destruct (fetch_failed f w2 _ (n_failed st)) as [[w3 lg3] nf].
Qed.

(** C4, amended.  When the result of every task holds a single
    dataset, so that every gathered result is indexed as one dataset,
    a run of [process_tasks] that returns has counted every task once:
    the success and failure counts add up to the number of tasks. *)
Theorem counts_add_up_single_dataset fuel w ts queue_size n_ok n_bad :
  ready_partitions -> failed_reraise -> results_one_each ->
  Inv w -> Forall single ts ->
  (1 <= queue_size)%Z ->
  process_tasks index_datasets fuel w ts queue_size = Some (n_ok, n_bad) ->
  n_ok + n_bad = length ts.
Proof.
  intros Hpart Hfail Hres Hw Hts Hq. unfold process_tasks.
  assert (accounted (length ts) (start w ts : Loop World Task Handle)) as Hacc
    by (split_and!; [done..|simpl; lia]).
  revert Hacc. generalize (start w ts : Loop World Task Handle).
  induction fuel as [|fuel IH]; intros st Hacc Hrun; [done|]. simpl in Hrun.
  destruct (cycle index_datasets queue_size st) as [a b|st'] eqn:Hc.
  - inversion Hrun; subst. by eapply cycle_return.
  - eapply IH; [|exact Hrun]. by eapply cycle_accounted.
Qed.
End Counts.

End Scheduler.
End SchedProps.

Module S3Props.
Import S3.

Section Padding.
Context {NpScalar Scalar : Type}.
Variable asscalar : NpScalar -> Scalar.

(** In the words of the specification: a row with its trailing null sentinels
    stripped. *)
Fixpoint strip_nulls (row : list (option Scalar)) : list (option Scalar) :=
  match row with
  | [] => []
  | x :: rest =>
      match x, strip_nulls rest with
      | None, [] => []
      | _, rest' => x :: rest'
      end
  end.

(** The coordinates a stripped row holds. *)
Definition decode_row (row : list (option Scalar)) : list Scalar :=
  flat_map (λ x, match x with Some v => [v] | None => [] end) (strip_nulls row).

Lemma strip_nulls_padding k : strip_nulls (replicate k None) = [].
Proof. induction k as [|k IH]; [done|]. simpl. by rewrite IH. Qed.

Lemma strip_nulls_padded (index : list Scalar) k :
  strip_nulls ((Some <$> index) ++ replicate k None) = Some <$> index.
Proof.
  induction index as [|x index IH].
  - apply strip_nulls_padding.
  - rewrite fmap_cons. cbn [app strip_nulls]. rewrite IH.
    by destruct (Some <$> index).
Qed.

Lemma decode_row_padded (index : list Scalar) k :
  decode_row ((Some <$> index) ++ replicate k None) = index.
Proof.
  unfold decode_row. rewrite strip_nulls_padded.
  induction index as [|x index IH]; [done|].
  rewrite fmap_cons. cbn [flat_map app]. by rewrite IH.
Qed.

Lemma max_list_bound (lengths : list nat) n : n ∈ lengths -> n <= max_list lengths.
Proof.
  induction lengths as [|m lengths IH]; [by intros ?%elem_of_nil|].
  intros [->|Hin]%elem_of_cons; simpl; [lia|]. specialize (IH Hin). lia.
Qed.

Lemma pad_irregular_rows (lists : list (list Scalar)) :
  pad_irregular lists
  = (λ index, (Some <$> index)
                ++ replicate (max_list (length <$> lists) - length index) None) <$> lists.
Proof. by destruct lists. Qed.

(** C7.  The irregular index that [_add_s3_dataset] stores pads every
    coordinate list on the right with the null sentinel to the length of
    the longest list: the rows have that one length, and stripping the
    trailing null sentinels of each row gives back the coordinate
    lists. *)
Theorem irregular_index_roundtrip (irregular_index : list (option (list NpScalar))) :
  let lists := scalar_lists asscalar irregular_index in
  let rows := pad_irregular lists in
  Forall (λ row, length row = max_list (length <$> lists)) rows
  ∧ Forall2 (λ row index, ∃ k, row = (Some <$> index) ++ replicate k None) rows lists
  ∧ decode_row <$> rows = lists.
Proof.
  cbv zeta. generalize (scalar_lists asscalar irregular_index). intros lists.
  rewrite pad_irregular_rows. split_and!.
  - apply Forall_fmap, Forall_forall. intros index Hin. simpl.
    rewrite length_app, length_fmap, length_replicate.
    assert (length index <= max_list (length <$> lists)); [|lia].
    apply max_list_bound. by apply list_elem_of_fmap_2.
  - apply Forall2_fmap_l, Forall2_same_length_lookup_2; [done|].
    intros i x y Hx Hy. simplify_eq. eauto.
  - generalize (max_list (length <$> lists)). intros m.
    induction lists as [|index lists IH]; [done|].
    rewrite !fmap_cons, IH. by rewrite decode_row_padded.
Qed.

End Padding.

(** *** Computations in the monad *)

Section Monad.
Context {S : Type}.

Lemma bind_unfold {A B} (m : M S A) (k : A -> M S B) s :
  (m ≫= k) s
  = match m s with
    | (s', Ok a) => k a s'
    | (s', Raise e) => (s', Raise e)
    end.
Proof. done. Qed.

Lemma bind_ok {A B} (m : M S A) (k : A -> M S B) s s' b :
  (m ≫= k) s = (s', Ok b) -> ∃ s1 a, m s = (s1, Ok a) ∧ k a s1 = (s', Ok b).
Proof.
  unfold mbind, M_bind. destruct (m s) as [s1 [a|e]]; [|done]. eauto.
Qed.

Lemma for_each_cons_ok {A} (x : A) xs (body : A -> M S unit) s s' :
  for_each (x :: xs) body s = (s', Ok tt) ->
  ∃ s1, body x s = (s1, Ok tt) ∧ for_each xs body s1 = (s', Ok tt).
Proof.
  simpl. intros (s1 & [] & Hb & Hrest)%bind_ok. eauto.
Qed.
End Monad.

Section Transaction.
Context {NpScalar Scalar Catalog : Type}.
Variable asscalar : NpScalar -> Scalar.
Variable refuses : Database Scalar Catalog -> Insert Scalar -> option exn.

Implicit Types (s : State Scalar Catalog).
Implicit Types (ds : list (S3DatasetRow Scalar)) (cs : list (S3ChunkRow Scalar)).
Implicit Types (ms : list S3MappingRow).

(** [s'] is [s] with rows appended to the three tables and possibly
    UUIDs drawn. *)
Definition extends s s' ds cs ms : Prop :=
  catalog (db s') = catalog (db s)
  ∧ S3_DATASET (db s') = S3_DATASET (db s) ++ ds
  ∧ S3_DATASET_CHUNK (db s') = S3_DATASET_CHUNK (db s) ++ cs
  ∧ S3_DATASET_MAPPING (db s') = S3_DATASET_MAPPING (db s) ++ ms
  ∧ uuid_supply s <= uuid_supply s'.

Lemma extends_refl s : extends s s [] [] [].
Proof. unfold extends. by rewrite !app_nil_r. Qed.

Lemma extends_trans s1 s2 s3 ds cs ms ds' cs' ms' :
  extends s1 s2 ds cs ms -> extends s2 s3 ds' cs' ms' ->
  extends s1 s3 (ds ++ ds') (cs ++ cs') (ms ++ ms').
Proof.
  intros (Hc & Hd & Hch & Hm & Hu) (Hc' & Hd' & Hch' & Hm' & Hu'). unfold extends.
  rewrite Hc', Hc, Hd', Hd, Hch', Hch, Hm', Hm, !app_assoc. split_and!; try done. lia.
Qed.

Lemma uuid4_ok s s' (u : UUID) :
  uuid4 s = (s', Ok u) ->
  u = uuid_supply s ∧ extends s s' [] [] [] ∧ uuid_supply s' = Datatypes.S (uuid_supply s).
Proof.
  unfold uuid4. intros [= <- <-]. unfold extends. simpl.
  rewrite !app_nil_r. split_and!; try done. lia.
Qed.

Lemma execute_ok stmt s s' :
  execute refuses stmt s = (s', Ok tt) ->
  db s' = insert_row stmt (db s) ∧ uuid_supply s' = uuid_supply s.
Proof.
  unfold execute. destruct (refuses (db s) stmt); [done|]. by intros [= <-].
Qed.

Lemma put_s3_dataset_chunk_ok id key cid comp shape imin imax s s' u :
  put_s3_dataset_chunk refuses id key cid comp shape imin imax s = (s', Ok u) ->
  ∃ c, extends s s' [] [c] [] ∧ ch_s3_dataset_id c = id ∧ ch_s3_key c = key.
Proof.
  unfold put_s3_dataset_chunk.
  intros (s1 & u1 & (-> & He1 & Hu1)%uuid4_ok & (s2 & [] & Hex & Hret)%bind_ok)%bind_ok.
  apply execute_ok in Hex as [Hdb Hu2]. inversion Hret; subst s2 u.
  destruct He1 as (Hc & Hd & Hch & Hm & Hu).
  eexists. split.
  { unfold extends. rewrite Hdb. simpl. rewrite Hc, Hd, Hch, Hm, !app_nil_r.
    split_and!; try done. lia. }
  done.
Qed.

Lemma put_s3_mapping_ok dataset_ref band id s s' u :
  put_s3_mapping refuses dataset_ref band id s = (s', Ok u) ->
  ∃ m, extends s s' [] [] [m] ∧ mp_s3_dataset_id m = id ∧ mp_band m = band
       ∧ mp_dataset_ref m = dataset_ref.
Proof.
  unfold put_s3_mapping.
  intros (s1 & u1 & (-> & He1 & Hu1)%uuid4_ok & (s2 & [] & Hex & Hret)%bind_ok)%bind_ok.
  apply execute_ok in Hex as [Hdb Hu2]. inversion Hret; subst s2 u.
  destruct He1 as (Hc & Hd & Hch & Hm & Hu).
  eexists. split.
  { unfold extends. rewrite Hdb. simpl. rewrite Hc, Hd, Hch, Hm, !app_nil_r.
    split_and!; try done. lia. }
  done.
Qed.

Lemma add_s3_dataset_ok id band output s s' :
  _add_s3_dataset asscalar refuses id band output s = (s', Ok tt) ->
  ∃ d, extends s s' [d] [] [] ∧ ds_id d = id ∧ ds_band d = band
       ∧ ds_irregular_index d
         = pad_irregular (scalar_lists asscalar (irregular_index output)).
Proof.
  unfold _add_s3_dataset, put_s3_dataset.
  intros (s1 & u1 & (s2 & [] & Hex & Hret)%bind_ok & Hret')%bind_ok.
  apply execute_ok in Hex as [Hdb Hu]. inversion Hret; subst. inversion Hret'; subst.
  eexists. split.
  { unfold extends. rewrite Hdb. simpl. rewrite !app_nil_r. split_and!; try done. lia. }
  done.
Qed.

Lemma add_s3_dataset_chunks_ok id band output s s' :
  _add_s3_dataset_chunks asscalar refuses id band output s = (s', Ok tt) ->
  ∃ cs, extends s s' [] cs []
        ∧ Forall (λ c, ch_s3_dataset_id c = id) cs
        ∧ ch_s3_key <$> cs = s3_key <$> key_maps output.
Proof.
  unfold _add_s3_dataset_chunks. generalize (key_maps output). intros kms. revert s.
  induction kms as [|km kms IH]; intros s.
  - intros [= <-]. exists []. split_and!; [apply extends_refl|done..].
  - intros (s1 & (s2 & u & (c & He & Hid & Hkey)%put_s3_dataset_chunk_ok & Hret)%bind_ok
            & Hrest)%for_each_cons_ok.
    inversion Hret; subst s2. apply IH in Hrest as (cs & He' & Hall & Hkeys).
    exists (c :: cs). split_and!.
    + apply (extends_trans _ _ _ [] [c] [] [] cs [] He He').
    + by constructor.
    + rewrite !fmap_cons. by rewrite Hkey, Hkeys.
Qed.

Lemma add_s3_dataset_mappings_ok id band dataset_refs s s' :
  _add_s3_dataset_mappings refuses id band dataset_refs s = (s', Ok tt) ->
  ∃ ms, extends s s' [] [] ms
        ∧ Forall (λ m, mp_s3_dataset_id m = id ∧ mp_band m = band) ms
        ∧ mp_dataset_ref <$> ms = dataset_refs.
Proof.
  unfold _add_s3_dataset_mappings. revert s.
  induction dataset_refs as [|ref refs IH]; intros s.
  - intros [= <-]. exists []. split_and!; [apply extends_refl|done..].
  - intros (s1 & (s2 & u & (m & He & Hid & Hband & Href)%put_s3_mapping_ok & Hret)%bind_ok
            & Hrest)%for_each_cons_ok.
    inversion Hret; subst s2. apply IH in Hrest as (ms & He' & Hall & Hrefs).
    exists (m :: ms). split_and!.
    + apply (extends_trans _ _ _ [] [] [m] [] [] ms He He').
    + by constructor.
    + rewrite fmap_cons. by rewrite Href, Hrefs.
Qed.

(** What one pass of the loop over the bands writes. *)
Definition band_written (dataset_refs : list UUID) (item : string * Output NpScalar)
    (d : S3DatasetRow Scalar) cs ms : Prop :=
  ds_band d = item.1
  ∧ ds_irregular_index d = pad_irregular (scalar_lists asscalar (irregular_index item.2))
  ∧ Forall (λ c, ch_s3_dataset_id c = ds_id d) cs
  ∧ ch_s3_key <$> cs = s3_key <$> key_maps item.2
  ∧ Forall (λ m, mp_s3_dataset_id m = ds_id d ∧ mp_band m = item.1) ms
  ∧ mp_dataset_ref <$> ms = dataset_refs.

Lemma add_band_ok dataset_refs item s s' :
  add_band asscalar refuses dataset_refs item s = (s', Ok tt) ->
  ∃ d cs ms, extends s s' [d] cs ms
             ∧ ds_id d = uuid_supply s
             ∧ uuid_supply s < uuid_supply s'
             ∧ band_written dataset_refs item d cs ms.
Proof.
  destruct item as [band output]. unfold add_band.
  intros (s1 & u & (-> & He1 & Hu1)%uuid4_ok
          & (s2 & [] & (d & He2 & Hid & Hband & Hirr)%add_s3_dataset_ok
             & (s3 & [] & (cs & He3 & Hcs & Hkeys)%add_s3_dataset_chunks_ok
                & (ms & He4 & Hms & Hrefs)%add_s3_dataset_mappings_ok)%bind_ok)%bind_ok)%bind_ok.
  exists d, cs, ms. split_and!.
  - pose proof (extends_trans _ _ _ _ _ _ _ _ _ He1 He2) as H12.
    pose proof (extends_trans _ _ _ _ _ _ _ _ _ H12 He3) as H13.
    pose proof (extends_trans _ _ _ _ _ _ _ _ _ H13 He4) as H14.
    simpl in H14. by rewrite !app_nil_r in H14.
  - done.
  - destruct He2 as (_ & _ & _ & _ & ?), He3 as (_ & _ & _ & _ & ?),
      He4 as (_ & _ & _ & _ & ?). lia.
  - unfold band_written. simpl. rewrite Hid. split_and!; done.
Qed.

(** The rows written for one band: its [S3_DATASET] row, its chunk rows
    and its mapping rows. *)
Definition Group : Type :=
  S3DatasetRow Scalar * list (S3ChunkRow Scalar) * list S3MappingRow.

Definition group_row (g : Group) : S3DatasetRow Scalar := g.1.1.
Definition group_chunks (g : Group) : list (S3ChunkRow Scalar) := g.1.2.
Definition group_mappings (g : Group) : list S3MappingRow := g.2.

(** All bands written, each under a UUID of its own drawn during the
    call. *)
Definition bands_written (dataset_refs : list UUID)
    (items : list (string * Output NpScalar)) s s' (groups : list Group) : Prop :=
  extends s s' (group_row <$> groups) (concat (group_chunks <$> groups))
          (concat (group_mappings <$> groups))
  ∧ Forall2 (λ item g, band_written dataset_refs item
                         (group_row g) (group_chunks g) (group_mappings g))
            items groups
  ∧ NoDup ((λ g, ds_id (group_row g)) <$> groups)
  ∧ Forall (λ g, uuid_supply s <= ds_id (group_row g) < uuid_supply s') groups.

Lemma bands_ok dataset_refs items s s' :
  for_each items (add_band asscalar refuses dataset_refs) s = (s', Ok tt) ->
  ∃ groups, bands_written dataset_refs items s s' groups.
Proof.
  revert s. induction items as [|item items IH]; intros s.
  - intros [= <-]. exists []. unfold bands_written. simpl.
    split_and!; [apply extends_refl|constructor|constructor|constructor].
  - intros (s1 & (d & cs & ms & He & Hid & Hlt & Hw)%add_band_ok & Hrest)%for_each_cons_ok.
    apply IH in Hrest as (groups & He' & Hall & Hnd & Hfresh).
    exists ((d, cs, ms) :: groups). unfold bands_written.
    rewrite !fmap_cons. cbn [concat]. split_and!.
    + apply (extends_trans _ _ _ [d] cs ms _ _ _ He He').
    + by constructor.
    + apply NoDup_cons. split; [|done].
      intros (g & Heq & Hg)%list_elem_of_fmap.
      rewrite Forall_forall in Hfresh. specialize (Hfresh g Hg).
      unfold group_row in *. simpl in *. lia.
    + destruct He as (_ & _ & _ & _ & Hle), He' as (_ & _ & _ & _ & Hle').
      constructor.
      * unfold group_row. simpl. lia.
      * eapply Forall_impl; [exact Hfresh|]. simpl. intros g Hg. lia.
Qed.

(** C6.  [add_s3_tables] is all or nothing.  When it returns, every band
    of [storage_output] has its [S3_DATASET] row under a UUID drawn for
    that band, different from the other bands' and from every UUID drawn
    before, with a chunk row per key map and a mapping row per dataset
    reference that point to it.  When a write for any band raises, the
    call raises and the database is as it was before the call: no row of
    any of the three tables is kept. *)
Theorem add_s3_tables_all_or_nothing dataset_refs storage_output s s' r :
  add_s3_tables asscalar refuses dataset_refs storage_output s = (s', r) ->
  match r with
  | Ok _ => ∃ groups, bands_written dataset_refs (map_to_list storage_output) s s' groups
  | Raise _ => db s' = db s
  end.
Proof.
  unfold add_s3_tables, with_transaction.
  destruct (for_each (map_to_list storage_output) (add_band asscalar refuses dataset_refs) s)
    as [s1 [[]|e]] eqn:Hbody; intros [= <- <-].
  - by apply bands_ok.
  - done.
Qed.

End Transaction.

Section Batch.
Context {NpScalar Scalar Catalog Added : Type}.
Variable asscalar : NpScalar -> Scalar.
Variable refuses : Database Scalar Catalog -> Insert Scalar -> option exn.
Variable base_add : Catalog -> Dataset -> Catalog * Result Added.
Variable uri_scheme : string.

Implicit Types (s : State Scalar Catalog).

(** The loop of [add_datasets] counts every dataset it gets through,
    whatever the base [add] did with it. *)
Lemma add_each_ok datasets refs n s s' refs' n' :
  add_each base_add uri_scheme datasets refs n s = (s', Ok (refs', n')) ->
  refs' = refs ++ (id <$> datasets) ∧ n' = n + length datasets.
Proof.
  revert refs n s. induction datasets as [|d datasets IH]; intros refs n s.
  - intros [= <- <- <-]. rewrite app_nil_r. split; [done|]. simpl. lia.
  - simpl. intros (s1 & a & _ & Hrest)%bind_ok.
    apply IH in Hrest as [-> ->]. rewrite <-app_assoc. split; [done|].
    simpl. lia.
Qed.

(** Without a [storage_output] attribute nothing is indexed. *)
Lemma add_datasets_no_storage_output datasets s :
  attrs datasets !! "storage_output" = None ->
  add_datasets asscalar refuses base_add uri_scheme datasets s
  = (s, Raise (ValueError "s3 storage output not received, indexing aborted.")).
Proof. intros Hnone. unfold add_datasets. by rewrite Hnone. Qed.

(** The test [n == len(datasets)] cannot fail: with a [storage_output],
    [add_datasets] is the loop followed by [add_s3_tables]. *)
Lemma add_datasets_guard_holds datasets storage_output s :
  attrs datasets !! "storage_output" = Some storage_output ->
  add_datasets asscalar refuses base_add uri_scheme datasets s
  = (added ← add_each base_add uri_scheme (values datasets) [] 0;
     _ ← add_s3_tables asscalar refuses added.1 storage_output;
     mret (length (values datasets))) s.
Proof.
  intros Hso. unfold add_datasets. rewrite Hso. unfold mbind at 1 3, M_bind.
  destruct (add_each base_add uri_scheme (values datasets) [] 0 s)
    as [s1 [[refs n]|e]] eqn:Hloop; [|done].
  apply add_each_ok in Hloop as [-> ->]. simpl. by rewrite decide_True.
Qed.

Lemma add_datasets_count datasets s s' n :
  add_datasets asscalar refuses base_add uri_scheme datasets s = (s', Ok n) ->
  n = length (values datasets).
Proof.
  destruct (attrs datasets !! "storage_output") as [so|] eqn:Hso.
  - rewrite (add_datasets_guard_holds _ so) by done.
    intros (s1 & a & _ & (s2 & [] & _ & Hret)%bind_ok)%bind_ok. by inversion Hret.
  - by rewrite add_datasets_no_storage_output.
Qed.
End Batch.
End S3Props.

Module LineageProps.
Import Lineage.

Section CacheFacts.
Context {Index Dataset : Type}.
Variable datasets_get : Index -> S3.UUID -> Result (option Dataset).

Implicit Types (cache : gmap S3.UUID (option Dataset)).

(** A call never changes what the cache holds for an id. *)
Lemma get_full_lineage_keeps index id_ cache id' v :
  cache !! id' = Some v ->
  (get_full_lineage datasets_get index id_ cache).1 !! id' = Some v.
Proof.
  intros Hv. unfold get_full_lineage.
  destruct (cache !! id_) as [u|] eqn:Hid; [done|].
  destruct (datasets_get index id_) as [u|e]; [|done]. simpl.
  rewrite lookup_insert_ne; [done|]. intros ->. congruence.
Qed.

Lemma calls_keep args cache id' v :
  cache !! id' = Some v -> calls datasets_get args cache !! id' = Some v.
Proof.
  revert cache. induction args as [|[index id_] args IH]; intros cache Hv; [done|].
  simpl. by apply IH, get_full_lineage_keeps.
Qed.

Lemma get_full_lineage_stored index id_ cache cache' v :
  get_full_lineage datasets_get index id_ cache = (cache', Ok v) ->
  cache' !! id_ = Some v.
Proof.
  unfold get_full_lineage. destruct (cache !! id_) as [u|] eqn:Hid.
  - by intros [= <- <-].
  - destruct (datasets_get index id_) as [u|e]; [|done].
    intros [= <- <-]. apply lookup_insert_eq.
Qed.

(** C10.  Once [get_full_lineage(index1, id_)] has returned a value,
    every later call for the same id returns that value, whatever index
    it is given and whatever calls were made in between, and leaves the
    cache as it is.  The index of the later call is not consulted: the
    answer is the same whatever its lookup [any_get] would say. *)
Theorem get_full_lineage_memoized index1 index2 id_ cache cache1 v args
    (any_get : Index -> S3.UUID -> Result (option Dataset)) :
  get_full_lineage datasets_get index1 id_ cache = (cache1, Ok v) ->
  let cache2 := calls datasets_get args cache1 in
  get_full_lineage any_get index2 id_ cache2 = (cache2, Ok v).
Proof.
  intros Hfirst cache2. apply get_full_lineage_stored in Hfirst.
  unfold get_full_lineage. subst cache2.
  by rewrite (calls_keep args cache1 id_ v Hfirst).
Qed.

End CacheFacts.
End LineageProps.

(** ** The installation meets the executor contract *)

Module DemoProps.
Import Diff S3 Sched Demo SchedProps S3Props.

Lemma filter_three {A} (P Q R : A -> Prop)
    `{!∀ x, Decision (P x), !∀ x, Decision (Q x), !∀ x, Decision (R x)} (l : list A) :
  (∀ x, (P x ∧ ¬ Q x ∧ ¬ R x) ∨ (¬ P x ∧ Q x ∧ ¬ R x) ∨ (¬ P x ∧ ¬ Q x ∧ R x)) ->
  filter P l ++ filter Q l ++ filter R l ≡ₚ l.
Proof.
  intros Hone. induction l as [|x l IH]; [done|].
  rewrite !filter_cons.
  destruct (Hone x) as [(HP & HQ & HR)|[(HP & HQ & HR)|(HP & HQ & HR)]].
  - rewrite (decide_True (P := P x)), (decide_False (P := Q x)),
      (decide_False (P := R x)) by done.
    simpl. by rewrite IH.
  - rewrite (decide_False (P := P x)), (decide_True (P := Q x)),
      (decide_False (P := R x)) by done.
    rewrite <-app_comm_cons, <-Permutation_middle. by rewrite IH.
  - rewrite (decide_False (P := P x)), (decide_False (P := Q x)),
      (decide_True (P := R x)) by done.
    rewrite app_assoc, <-Permutation_middle, <-app_assoc. by rewrite IH.
Qed.

Lemma demo_partitions : ready_partitions (Exec := executor).
Proof.
  intros hs w. simpl. apply filter_three. intros h.
  unfold is_completed, is_failed, is_unknown.
  destruct (outcome w h) as [[ds|e]|]; naive_solver.
Qed.

Lemma demo_reraise : failed_reraise (Exec := executor).
Proof.
  intros hs w. simpl. induction hs as [|h hs IH]; [done|].
  rewrite filter_cons. destruct (decide (is_failed w h)) as [Hf|]; [|done].
  simpl. unfold fetch, is_failed in *.
  destruct (outcome w h) as [[ds|e]|]; try done. eauto.
Qed.

(** Every stored result holds one dataset; a task of one time stamp. *)
Definition one_each (w : World) : Prop :=
  Forall (λ r, match r with Ok ds => length (values ds) = 1 | Raise _ => True end)
         (outcomes w).

Definition single (task : Task (list UUID) unit) : Prop :=
  length (sources (tile task)) = 1.

Lemma mapM_fetch hs w :
  ∃ r, mapM fetch hs w = (w, r)
       ∧ ∀ rs, r = Ok rs -> Forall2 (λ h ds, outcome w h = Some (Ok ds)) hs rs.
Proof.
  induction hs as [|h hs (r & IHw & IHr)].
  - eexists. split; [done|]. intros rs [= <-]. constructor.
  - cbn [mapM]. rewrite bind_unfold. unfold fetch at 1.
    destruct (outcome w h) as [[ds|e]|] eqn:Hh; cbv beta iota; [|by eexists..].
    rewrite bind_unfold, IHw. destruct r as [rs|e]; cbv beta iota; [|by eexists].
    eexists. split; [done|]. intros rs' [= <-]. constructor; [done|]. by apply IHr.
Qed.

Lemma ingest_work_values task ds :
  ingest_work task = Ok ds -> length (values ds) = length (sources (tile task)).
Proof.
  unfold ingest_work, Ingest.ingest_work, write_dataset_to_storage.
  destruct (load_data _ _); simpl; [|done]. intros [= <-]. simpl.
  by rewrite length_fmap.
Qed.

Lemma demo_preserved : preserved (Exec := executor) index_datasets one_each single.
Proof.
  split.
  - intros t w Ht Hw. simpl. unfold one_each in *. simpl.
    apply Forall_app. split; [done|]. constructor; [|done].
    destruct (ingest_work t) as [ds|e] eqn:Hi; [|done].
    apply ingest_work_values in Hi. by rewrite Hi.
  - done.
  - intros h w Hw. simpl. unfold fetch. by destruct (outcome w h).
  - intros hs w Hw. simpl. by destruct (mapM_fetch hs w) as (r & -> & _).
  - intros ds w Hw. unfold index_datasets. by destruct (add_datasets ds (index w)).
Qed.

Lemma demo_results_one_each : results_one_each (Exec := executor) index_datasets one_each.
Proof.
  intros hs w w' rs Hw Hr. simpl in Hr.
  destruct (mapM_fetch hs w) as (r & Hm & Hrs). rewrite Hr in Hm.
  inversion Hm; subst. specialize (Hrs rs eq_refl).
  split; [symmetry; by eapply Forall2_length|].
  clear Hr Hm. induction Hrs as [|h ds hs rs Hh _ IH]; [constructor|].
  constructor; [|done].
  intros w1 w2 n _ Hi. unfold index_datasets in Hi.
  destruct (add_datasets ds (index w1)) as [s r] eqn:Ha. inversion Hi; subst.
  apply add_datasets_count in Ha. rewrite Ha.
  unfold outcome in Hh. apply list_elem_of_lookup_2 in Hh.
  unfold one_each in Hw. rewrite Forall_forall in Hw. by apply (Hw _ Hh).
Qed.

(** ** The properties on the installation *)

Lemma cells_in_wf : DiffProps.cells_wf cells_in.
Proof.
  intros extent cell Hcell. unfold cells_in in Hcell.
  apply lookup_singleton_Some in Hcell as [<- <-]. simpl.
  apply (bool_decide_unpack _). by vm_compute.
Qed.

Lemma remove_duplicates_exact_run :
  remove_duplicates cells_in (∅ : gmap Extent (Cell nat unit)) = Some cells_in
  ∧ ∃ cells', remove_duplicates cells_in cells_out = Some cells'
      ∧ ∀ extent, cells' !! extent
                  = DiffProps.without cells_out extent <$> cells_in !! extent.
Proof.
  split.
  - apply (DiffProps.remove_duplicates_exact cells_in ∅). reflexivity.
  - apply (DiffProps.remove_duplicates_exact cells_in cells_out). exact cells_in_wf.
Defined.

Lemma find_diff_time_slices_run :
  ∃ cells tasks,
    remove_duplicates (list_cells true tt) (list_cells false tt) = Some cells
    ∧ find_diff list_cells true false 2 tt = Some tasks
    ∧ (∀ task, task ∈ tasks ->
         ∃ cell, cells !! tile_index task = Some cell
                 ∧ geobox (tile task) = geobox cell
                 ∧ sources (tile task) ⊆ sources cell)
    ∧ (∀ extent cell, cells !! extent = Some cell ->
         let emitted := filter (λ task, tile_index task = extent) tasks in
         length emitted = ceil_div (length (sources cell)) 2
         ∧ Forall (λ task, length (time_values (sources (tile task))) <= 2) emitted
         ∧ concat ((λ task, time_values (sources (tile task))) <$> emitted)
           = time_values (sources cell)).
Proof.
  apply (DiffProps.find_diff_time_slices list_cells true false 2 tt); [lia|].
  exact cells_in_wf.
Defined.

Lemma pending_within_queue_size_run :
  ∃ st, state_at index_datasets 2 2 (start world0 [one_day; out_west; no_data]) = Some st
        ∧ (Z.of_nat (length (pending st)) <= 2)%Z.
Proof.
  eexists. split; [vm_compute; reflexivity|].
  apply (pending_within_queue_size index_datasets 2 world0 [one_day; out_west; no_data] 2);
    [exact demo_partitions | lia | vm_compute; reflexivity].
Defined.

Lemma counts_add_up_single_dataset_run :
  process_tasks index_datasets 10 world0 [one_day; next_day; no_data] 2 = Some (2, 1)
  ∧ 2 + 1 = length [one_day; next_day; no_data].
Proof.
  split; [vm_compute; reflexivity|].
  apply (counts_add_up_single_dataset index_datasets one_each single demo_preserved
           10 world0 [one_day; next_day; no_data] 2 2 1);
    [exact demo_partitions | exact demo_reraise | exact demo_results_one_each
    | constructor | repeat constructor | lia | vm_compute; reflexivity].
Defined.

(** C4 as stated fails: a task whose tile has two time stamps is indexed
    as two datasets.  The run below is a happy path, one task submitted,
    completed and indexed at the first attempt, and returns two successes
    for the one task. *)
Lemma counts_exceed_tasks :
  process_tasks index_datasets 10 world0 [two_days] 3 = Some (2, 0)
  ∧ 2 + 0 ≠ length [two_days]
  ∧ log <$> state_at index_datasets 3 1 (start world0 [two_days])
    = Some [SubmittingTask two_days; Ready 1 0 0]
  ∧ ¬ (∀ fuel ts queue_size n_ok n_bad,
         (1 <= queue_size)%Z ->
         process_tasks index_datasets fuel world0 ts queue_size = Some (n_ok, n_bad) ->
         n_ok + n_bad = length ts).
Proof.
  assert (process_tasks index_datasets 10 world0 [two_days] 3 = Some (2, 0)) as Hrun
    by (vm_compute; reflexivity).
  split_and!; [exact Hrun | simpl; lia | vm_compute; reflexivity |].
  intros Hall. specialize (Hall 10 [two_days] 3%Z 2 0 ltac:(lia) Hrun). simpl in Hall. lia.
Qed.

Lemma failed_gather_requeued_run :
  ∃ p w e, poll 2 (start world0 [one_day; out_west]) = Some p
    ∧ gather index_datasets (p_completed p) (p_world p) = (w, Raise e)
    ∧ ∃ st', cycle index_datasets 2 (start world0 [one_day; out_west]) = Continue st'
        ∧ pending st' = p_pending p ++ p_completed p
        ∧ n_successful st' = 0
        ∧ log st' = p_log p ++ [GatherFailed e]
        ∧ ∃ p', poll 2 st' = Some p'
            ∧ p_completed p ⊆ p_in_flight p'
            ∧ (p_completed p ⊆ p_completed p' ->
               ∃ st'', cycle index_datasets 2 st' = Continue st''
                 ∧ world st'' = (gather index_datasets (p_completed p') (p_world p')).1).
Proof.
  eexists _, _, _. split; [vm_compute; reflexivity|]. split; [vm_compute; reflexivity|].
  eapply (failed_gather_requeued index_datasets 2 (start world0 [one_day; out_west]));
    [vm_compute; reflexivity | discriminate | vm_compute; reflexivity].
Defined.

Lemma failed_counted_not_retried_run :
  ∃ p, poll 2 (start world0 [one_day; no_data]) = Some p
    ∧ p_failed p = [1]
    ∧ ∃ st', cycle index_datasets 2 (start world0 [one_day; no_data]) = Continue st'
        ∧ n_failed st' = 0 + length (p_failed p)
        ∧ task_failures (log st') = 0 + length (p_failed p)
        ∧ p_failed p ++ pending st' ⊆+ p_in_flight p
        ∧ (NoDup (p_in_flight p) -> ∀ future, future ∈ p_failed p -> future ∉ pending st')
        ∧ submitted (log st') ++ tasks st' = [] ++ [one_day; no_data].
Proof.
  eexists. split; [vm_compute; reflexivity|]. split; [reflexivity|].
  apply (failed_counted_not_retried index_datasets 2 (start world0 [one_day; no_data]));
    [exact demo_partitions | exact demo_reraise | vm_compute; reflexivity].
Defined.

Lemma add_s3_tables_all_or_nothing_run :
  (∃ s' e, add_s3_tables (λ x : Z, x) refuses [1; 2] two_bands empty_index = (s', Raise e)
           ∧ db s' = db empty_index)
  ∧ ∃ s',
      add_s3_tables (λ x : Z, x) refuses [1; 2] {[ "red" := band_output (1, 1)%Z ]} empty_index
      = (s', Ok tt)
      ∧ ∃ groups,
          bands_written (λ x : Z, x) [1; 2] (map_to_list {[ "red" := band_output (1, 1)%Z ]})
                        empty_index s' groups.
Proof.
  split.
  - eexists _, _. split; [vm_compute; reflexivity|].
    eapply (add_s3_tables_all_or_nothing (λ x : Z, x) refuses [1; 2] two_bands empty_index
              _ (Raise _)).
    vm_compute; reflexivity.
  - eexists. split; [vm_compute; reflexivity|].
    eapply (add_s3_tables_all_or_nothing (λ x : Z, x) refuses [1; 2]
              {[ "red" := band_output (1, 1)%Z ]} empty_index _ (Ok tt)).
    vm_compute; reflexivity.
Defined.

Lemma get_full_lineage_memoized_run :
  ∃ cache1,
    Lineage.get_full_lineage datasets_get [(1, "scene 1")] 1 ∅ = (cache1, Ok (Some "scene 1"))
    ∧ let cache2 := Lineage.calls datasets_get [([(2, "scene 2")], 2); ([], 3)] cache1 in
      Lineage.get_full_lineage (λ _ _, Raise (OtherError "unreachable"))
                               ([] : list (UUID * string)) 1 cache2
      = (cache2, Ok (Some "scene 1")).
Proof.
  eexists. split; [vm_compute; reflexivity|].
  apply (LineageProps.get_full_lineage_memoized datasets_get [(1, "scene 1")] [] 1 ∅).
  vm_compute; reflexivity.
Defined.

(** C7 on a single axis of length one, and on axes of very different
    lengths. *)
Example irregular_index_single_axis :
  pad_irregular (scalar_lists (λ x : Z, x) [Some [7%Z]]) = [[Some 7%Z]].
Proof. reflexivity. Qed.

Example irregular_index_unequal_axes :
  pad_irregular (scalar_lists (λ x : Z, x) [Some [1; 2; 3; 4; 5]%Z; None; Some [9%Z]])
  = [[Some 1; Some 2; Some 3; Some 4; Some 5]%Z; [Some 9%Z; None; None; None; None]]
  ∧ decode_row <$> pad_irregular
                     (scalar_lists (λ x : Z, x) [Some [1; 2; 3; 4; 5]%Z; None; Some [9%Z]])
    = [[1; 2; 3; 4; 5]%Z; [9%Z]].
Proof. split; reflexivity. Qed.

(** C8.  [add_datasets] on a batch with a storage output whose second
    dataset the base index refuses: the exception of the base index comes
    out, not the [ValueError] of the test on [n], and the first dataset
    stays indexed.  On a batch that repeats a dataset the base index skips
    the repetition, yet [add_datasets] writes the S3 tables and returns
    two for the one dataset indexed. *)
Theorem add_datasets_counts_unindexed :
  (let '(s, r) := add_datasets (batch_of [1; 13]) empty_index in
   r = Raise (OtherError "DocumentMismatchError")
   ∧ is_ValueError (OtherError "DocumentMismatchError") = false
   ∧ catalog (db s) = [1] ∧ S3_DATASET (db s) = [])
  ∧ (let '(s, r) := add_datasets (batch_of [1; 1]) empty_index in
     r = Ok 2 ∧ catalog (db s) = [1] ∧ length (S3_DATASET (db s)) = 1
     ∧ length (S3_DATASET_MAPPING (db s)) = 2).
Proof. vm_compute. by split_and!. Qed.


End DemoProps.

(** ** Facts about lists *)

Module ListFacts.

Lemma filter_nothing {A} (P : A -> Prop) `{!∀ x, Decision (P x)} (l : list A) :
  Forall (λ x, ¬ P x) l -> filter P l = [].
Proof.
  induction 1 as [|x l Hx _ IH]; [done|]. by rewrite filter_cons, decide_False, IH.
Qed.

Lemma filter_everything {A} (P : A -> Prop) `{!∀ x, Decision (P x)} (l : list A) :
  Forall P l -> filter P l = l.
Proof.
  induction 1 as [|x l Hx _ IH]; [done|]. by rewrite filter_cons, decide_True, IH.
Qed.

(** An element of a list without repetitions is found once. *)
Lemma filter_eq_NoDup `{EqDecision A} (x : A) (l : list A) :
  NoDup l -> x ∈ l -> filter (λ y, y = x) l = [x].
Proof.
  induction 1 as [|y l Hy Hnd IH]; [by intros ?%elem_of_nil|].
  intros [->|Hin]%elem_of_cons; rewrite filter_cons.
  - rewrite decide_True by done. f_equal. apply filter_nothing.
    apply Forall_forall. intros z Hz ->. done.
  - rewrite decide_False by (intros ->; done). by apply IH.
Qed.

End ListFacts.

(** ** Reading back what [add_s3_tables] wrote *)

Module S3QueryProps.
Import S3 S3Props S3Query ListFacts.

Section Stored.
Context {NpScalar Scalar Catalog : Type}.
Variable asscalar : NpScalar -> Scalar.
Variable refuses : Database Scalar Catalog -> Insert Scalar -> option exn.

Implicit Types (s : State Scalar Catalog) (g : Group (Scalar := Scalar)).
Implicit Types (d : Database Scalar Catalog).

(** The row of [S3_DATASET] for a band, the row of [S3_DATASET_CHUNK] for
    a key map and the row of [S3_DATASET_MAPPING] for a dataset
    reference. *)
Definition chunk_set_row (id : UUID) (band : string) (output : Output NpScalar)
  : S3DatasetRow Scalar :=
  {| ds_id := id; ds_base_name := base_name output; ds_band := band;
     ds_bucket := bucket output; ds_macro_shape := macro_shape output;
     ds_chunk_size := chunk_size output; ds_numpy_type := numpy_type output;
     ds_dimensions := dimensions output; ds_regular_dims := regular_dims output;
     ds_regular_index := scalar_lists asscalar (regular_index output);
     ds_irregular_index := pad_irregular (scalar_lists asscalar (irregular_index output)) |}.

Definition chunk_row (row_id s3_dataset_id : UUID) (key_map : KeyMap NpScalar)
  : S3ChunkRow Scalar :=
  {| ch_id := row_id; ch_s3_dataset_id := s3_dataset_id; ch_s3_key := s3_key key_map;
     ch_chunk_id := chunk_id key_map; ch_compression_scheme := compression key_map;
     ch_micro_shape := (λ chunk_dim : Z * Z, (chunk_dim.2 - chunk_dim.1)%Z) <$> chunk key_map;
     ch_index_min := asscalar <$> index_min key_map;
     ch_index_max := asscalar <$> index_max key_map |}.

Definition mapping_row (row_id dataset_ref : UUID) (band : string) (s3_dataset_id : UUID)
  : S3MappingRow :=
  {| mp_id := row_id; mp_dataset_ref := dataset_ref; mp_band := band;
     mp_s3_dataset_id := s3_dataset_id |}.

(** The rows written for one band, in full. *)
Definition band_stored (dataset_refs : list UUID) (item : string * Output NpScalar) g : Prop :=
  group_row g = chunk_set_row (ds_id (group_row g)) item.1 item.2
  ∧ Forall2 (λ c key_map, c = chunk_row (ch_id c) (ds_id (group_row g)) key_map)
            (group_chunks g) (key_maps item.2)
  ∧ Forall2 (λ m dataset_ref, m = mapping_row (mp_id m) dataset_ref item.1 (ds_id (group_row g)))
            (group_mappings g) dataset_refs.

Lemma chunks_stored id band output s s' :
  _add_s3_dataset_chunks asscalar refuses id band output s = (s', Ok tt) ->
  ∃ cs, extends s s' [] cs []
        ∧ Forall2 (λ c key_map, c = chunk_row (ch_id c) id key_map) cs (key_maps output).
Proof.
  unfold _add_s3_dataset_chunks. generalize (key_maps output). intros kms. revert s.
  induction kms as [|km kms IH]; intros s.
  - intros [= <-]. exists []. split; [apply extends_refl|constructor].
  - intros (s1 & (s2 & u & Hput & Hret)%bind_ok & Hrest)%for_each_cons_ok.
    inversion Hret; subst s2. clear Hret. unfold put_s3_dataset_chunk in Hput.
    apply bind_ok in Hput as (s3 & u1 & (-> & He1 & Hu1)%uuid4_ok
                              & (s4 & [] & Hex & Hret)%bind_ok).
    apply (execute_ok refuses) in Hex as [Hdb Hu2]. inversion Hret; subst s4 u. clear Hret.
    apply IH in Hrest as (cs & He' & Hall).
    eexists (_ :: cs). split.
    + eapply (extends_trans _ s1 _ [] [_] [] [] cs []); [|exact He'].
      destruct He1 as (Hc & Hd & Hch & Hm & Hu).
      unfold extends. rewrite Hdb. simpl. rewrite Hc, Hd, Hch, Hm, !app_nil_r.
      split_and!; try done. lia.
    + constructor; [|done]. reflexivity.
Qed.

Lemma mappings_stored id band dataset_refs s s' :
  _add_s3_dataset_mappings refuses id band dataset_refs s = (s', Ok tt) ->
  ∃ ms, extends s s' [] [] ms
        ∧ Forall2 (λ m dataset_ref, m = mapping_row (mp_id m) dataset_ref band id) ms dataset_refs.
Proof.
  unfold _add_s3_dataset_mappings. revert s.
  induction dataset_refs as [|ref refs IH]; intros s.
  - intros [= <-]. exists []. split; [apply extends_refl|constructor].
  - intros (s1 & (s2 & u & Hput & Hret)%bind_ok & Hrest)%for_each_cons_ok.
    inversion Hret; subst s2. clear Hret. unfold put_s3_mapping in Hput.
    apply bind_ok in Hput as (s3 & u1 & (-> & He1 & Hu1)%uuid4_ok
                              & (s4 & [] & Hex & Hret)%bind_ok).
    apply (execute_ok refuses) in Hex as [Hdb Hu2]. inversion Hret; subst s4 u. clear Hret.
    apply IH in Hrest as (ms & He' & Hall).
    eexists (_ :: ms). split.
    + eapply (extends_trans _ s1 _ [] [] [_] [] [] ms); [|exact He'].
      destruct He1 as (Hc & Hd & Hch & Hm & Hu).
      unfold extends. rewrite Hdb. simpl. rewrite Hc, Hd, Hch, Hm, !app_nil_r.
      split_and!; try done. lia.
    + constructor; [|done]. reflexivity.
Qed.

Lemma chunk_set_stored id band output s s' :
  _add_s3_dataset asscalar refuses id band output s = (s', Ok tt) ->
  extends s s' [chunk_set_row id band output] [] [].
Proof.
  unfold _add_s3_dataset, put_s3_dataset.
  intros (s1 & u1 & (s2 & [] & Hex & Hret)%bind_ok & Hret')%bind_ok.
  apply (execute_ok refuses) in Hex as [Hdb Hu]. inversion Hret; subst. inversion Hret'; subst.
  unfold extends. rewrite Hdb. simpl. rewrite !app_nil_r. split_and!; try done. lia.
Qed.

Lemma band_stored_ok dataset_refs item s s' :
  add_band asscalar refuses dataset_refs item s = (s', Ok tt) ->
  ∃ g, extends s s' [group_row g] (group_chunks g) (group_mappings g)
       ∧ ds_id (group_row g) = uuid_supply s
       ∧ uuid_supply s < uuid_supply s'
       ∧ band_stored dataset_refs item g.
Proof.
  destruct item as [band output]. unfold add_band.
  intros (s1 & u & (-> & He1 & Hu1)%uuid4_ok
          & (s2 & [] & He2%chunk_set_stored
             & (s3 & [] & (cs & He3 & Hcs)%chunks_stored
                & (ms & He4 & Hms)%mappings_stored)%bind_ok)%bind_ok)%bind_ok.
  exists (chunk_set_row (uuid_supply s) band output, cs, ms).
  unfold band_stored, group_row, group_chunks, group_mappings. simpl. split_and!; try done.
  - pose proof (extends_trans _ _ _ _ _ _ _ _ _ He1 He2) as H12.
    pose proof (extends_trans _ _ _ _ _ _ _ _ _ H12 He3) as H13.
    pose proof (extends_trans _ _ _ _ _ _ _ _ _ H13 He4) as H14.
    simpl in H14. by rewrite !app_nil_r in H14.
  - destruct He2 as (_ & _ & _ & _ & ?), He3 as (_ & _ & _ & _ & ?),
      He4 as (_ & _ & _ & _ & ?). lia.
Qed.

(** All bands written, in full. *)
Definition bands_stored (dataset_refs : list UUID)
    (items : list (string * Output NpScalar)) s s' (groups : list Group) : Prop :=
  extends s s' (group_row <$> groups) (concat (group_chunks <$> groups))
          (concat (group_mappings <$> groups))
  ∧ Forall2 (band_stored dataset_refs) items groups
  ∧ NoDup ((λ g, ds_id (group_row g)) <$> groups)
  ∧ Forall (λ g, uuid_supply s <= ds_id (group_row g) < uuid_supply s') groups.

Lemma bands_stored_ok dataset_refs items s s' :
  for_each items (add_band asscalar refuses dataset_refs) s = (s', Ok tt) ->
  ∃ groups, bands_stored dataset_refs items s s' groups.
Proof.
  revert s. induction items as [|item items IH]; intros s.
  - intros [= <-]. exists []. unfold bands_stored. simpl.
    split_and!; [apply extends_refl|constructor|constructor|constructor].
  - intros (s1 & (g & He & Hid & Hlt & Hw)%band_stored_ok & Hrest)%for_each_cons_ok.
    apply IH in Hrest as (groups & He' & Hall & Hnd & Hfresh).
    exists (g :: groups). unfold bands_stored.
    rewrite !fmap_cons. cbn [concat]. split_and!.
    + apply (extends_trans _ _ _ [group_row g] _ _ _ _ _ He He').
    + by constructor.
    + apply NoDup_cons. split; [|done].
      intros (g' & Heq & Hg)%list_elem_of_fmap.
      rewrite Forall_forall in Hfresh. specialize (Hfresh g' Hg). lia.
    + destruct He as (_ & _ & _ & _ & Hle), He' as (_ & _ & _ & _ & Hle').
      constructor; [lia|].
      eapply Forall_impl; [exact Hfresh|]. simpl. intros g' Hg. lia.
Qed.

Lemma add_s3_tables_stored dataset_refs storage_output s s' :
  add_s3_tables asscalar refuses dataset_refs storage_output s = (s', Ok tt) ->
  ∃ groups, bands_stored dataset_refs (map_to_list storage_output) s s' groups.
Proof.
  unfold add_s3_tables, with_transaction.
  destruct (for_each (map_to_list storage_output) (add_band asscalar refuses dataset_refs) s)
    as [s1 [[]|e]] eqn:Hbody; intros [= <-]. by apply bands_stored_ok.
Qed.

(** *** The join of [get_s3_dataset] on tables that grow *)

Definition join (ds : list (S3DatasetRow Scalar)) (ms : list S3MappingRow)
    (dataset_ref : UUID) (band : string) : list (S3DatasetRow Scalar) :=
  flat_map
    (λ row, (λ _ : S3MappingRow, row)
              <$> filter (λ m, mp_s3_dataset_id m = ds_id row
                               ∧ mp_dataset_ref m = dataset_ref ∧ mp_band m = band) ms)
    ds.

Lemma joined_rows_join d ref band :
  joined_rows d ref band = join (S3_DATASET d) (S3_DATASET_MAPPING d) ref band.
Proof. done. Qed.

Lemma join_app_l ds1 ds2 ms ref band :
  join (ds1 ++ ds2) ms ref band = join ds1 ms ref band ++ join ds2 ms ref band.
Proof. unfold join. apply flat_map_app. Qed.

Lemma join_app_r ds ms1 ms2 ref band :
  join ds (ms1 ++ ms2) ref band ≡ₚ join ds ms1 ref band ++ join ds ms2 ref band.
Proof.
  unfold join. induction ds as [|row ds IH]; [done|]. cbn [flat_map].
  rewrite IH, filter_app, fmap_app.
  rewrite <-!app_assoc. apply Permutation_app_head.
  rewrite !app_assoc. apply Permutation_app_tail. apply Permutation_app_comm.
Qed.

Lemma join_apart ds ms ref band :
  (∀ row m, row ∈ ds -> m ∈ ms -> mp_s3_dataset_id m ≠ ds_id row) ->
  join ds ms ref band = [].
Proof.
  intros Hapart. unfold join. induction ds as [|row ds IH]; [done|]. cbn [flat_map].
  rewrite IH by (intros r m Hr; apply Hapart; by right). rewrite app_nil_r.
  rewrite (filter_nothing _ ms); [done|].
  apply Forall_forall. intros m Hm (Hid & _). eapply Hapart; [left|exact Hm|exact Hid].
Qed.

(** The rows the join finds through the mappings of one band. *)
Definition own g (dataset_ref : UUID) (band : string) : list (S3DatasetRow Scalar) :=
  join [group_row g] (group_mappings g) dataset_ref band.

Lemma band_stored_mapping dataset_refs item g m :
  band_stored dataset_refs item g -> m ∈ group_mappings g ->
  mp_s3_dataset_id m = ds_id (group_row g) ∧ mp_band m = item.1
  ∧ mp_dataset_ref m ∈ dataset_refs.
Proof.
  intros (_ & _ & Hms) Hm. apply list_elem_of_lookup in Hm as [i Hi].
  destruct (Forall2_lookup_l _ _ _ _ _ Hms Hi) as (ref & Href & ->). simpl.
  split_and!; [done..|]. by eapply list_elem_of_lookup_2.
Qed.

Lemma band_stored_chunk dataset_refs item g c :
  band_stored dataset_refs item g -> c ∈ group_chunks g ->
  ch_s3_dataset_id c = ds_id (group_row g).
Proof.
  intros (_ & Hcs & _) Hc. apply list_elem_of_lookup in Hc as [i Hi].
  by destruct (Forall2_lookup_l _ _ _ _ _ Hcs Hi) as (km & Hkm & ->).
Qed.

Lemma join_groups dataset_refs items groups ref band :
  Forall2 (band_stored dataset_refs) items groups ->
  NoDup ((λ g, ds_id (group_row g)) <$> groups) ->
  join (group_row <$> groups) (concat (group_mappings <$> groups)) ref band
  ≡ₚ concat ((λ g, own g ref band) <$> groups).
Proof.
  induction 1 as [|item g items groups Hg Hall IH]; [done|].
  rewrite !fmap_cons. cbn [concat]. intros [Hfresh Hnd]%NoDup_cons.
  change (group_row g :: (group_row <$> groups)) with ([group_row g] ++ (group_row <$> groups)).
  rewrite join_app_l, !join_app_r.
  rewrite (join_apart [group_row g] (concat (group_mappings <$> groups))).
  - rewrite (join_apart (group_row <$> groups) (group_mappings g)).
    + rewrite app_nil_r. simpl. by rewrite IH.
    + intros row m (g' & -> & Hg')%list_elem_of_fmap Hm Heq.
      apply (band_stored_mapping _ _ _ _ Hg) in Hm as (Hid & _).
      apply Hfresh. apply list_elem_of_fmap. exists g'. split; [congruence|done].
  - intros row m ->%list_elem_of_singleton Hm Heq.
    apply list_elem_of_In, in_concat in Hm as (ms & Hms & Hm).
    apply list_elem_of_In, list_elem_of_fmap in Hms as (g' & -> & Hg').
    apply list_elem_of_lookup in Hg' as [i Hi].
    destruct (Forall2_lookup_r _ _ _ _ _ Hall Hi) as (item' & _ & Hst).
    apply list_elem_of_In in Hm.
    apply (band_stored_mapping _ _ _ _ Hst) in Hm as (Hid & _).
    apply Hfresh. apply list_elem_of_fmap. exists g'.
    split; [congruence|by eapply list_elem_of_lookup_2].
Qed.

Lemma own_other dataset_refs item g ref band :
  band_stored dataset_refs item g -> item.1 ≠ band ∨ ref ∉ dataset_refs ->
  own g ref band = [].
Proof.
  intros Hg Hnot. unfold own, join. cbn [flat_map]. rewrite app_nil_r.
  rewrite filter_nothing; [done|]. apply Forall_forall. intros m Hm (_ & Href & Hband).
  apply (band_stored_mapping _ _ _ _ Hg) in Hm as (_ & Hb & Hr).
  destruct Hnot as [Hne|Hne]; [apply Hne; congruence|apply Hne; congruence].
Qed.

Lemma own_band dataset_refs item g ref :
  band_stored dataset_refs item g -> NoDup dataset_refs -> ref ∈ dataset_refs ->
  own g ref item.1 = [group_row g].
Proof.
  intros (_ & _ & Hms) Hnd Hin. unfold own, join. cbn [flat_map]. rewrite app_nil_r.
  revert Hms Hnd Hin. generalize (group_mappings g), (ds_id (group_row g)).
  intros ms0 id Hms.
  induction Hms as [|m r ms refs Hm Hms IH]; [by intros _ ?%elem_of_nil|].
  intros [Hr Hnd]%NoDup_cons Hin. rewrite filter_cons.
  destruct (decide (r = ref)) as [->|Hne].
  - rewrite decide_True by (by rewrite Hm). simpl. f_equal.
    rewrite filter_nothing; [done|]. apply Forall_forall. intros m' Hm' (_ & Href & _).
    apply list_elem_of_lookup in Hm' as [i Hi].
    destruct (Forall2_lookup_l _ _ _ _ _ Hms Hi) as (r' & Hr' & Heq).
    rewrite Heq in Href. simpl in Href. subst r'.
    apply Hr. by eapply list_elem_of_lookup_2.
  - rewrite decide_False.
    + apply IH; [done|]. by apply elem_of_cons in Hin as [->|Hin].
    + rewrite Hm. simpl. intros (_ & ? & _). done.
Qed.

Lemma concat_own_other dataset_refs items groups ref band :
  Forall2 (band_stored dataset_refs) items groups ->
  band ∉ items.*1 ->
  concat ((λ g, own g ref band) <$> groups) = [].
Proof.
  induction 1 as [|item g items groups Hg Hall IH]; [done|].
  rewrite !fmap_cons. intros [Hne Hnot]%not_elem_of_cons. cbn [concat].
  rewrite (own_other _ _ _ _ _ Hg) by (left; congruence). by rewrite IH.
Qed.

Lemma concat_own dataset_refs items groups ref band output :
  Forall2 (band_stored dataset_refs) items groups ->
  NoDup items.*1 -> (band, output) ∈ items ->
  NoDup dataset_refs -> ref ∈ dataset_refs ->
  ∃ g, g ∈ groups ∧ band_stored dataset_refs (band, output) g
       ∧ concat ((λ g, own g ref band) <$> groups) = [group_row g].
Proof.
  intros Hall Hkeys Hitem Hnd Href.
  induction Hall as [|item g items groups Hg Hall IH]; [by apply elem_of_nil in Hitem|].
  rewrite fmap_cons in Hkeys. apply NoDup_cons in Hkeys as [Hk Hkeys].
  rewrite !fmap_cons. cbn [concat].
  apply elem_of_cons in Hitem as [<-|Hitem].
  - exists g. split; [left|]. split; [done|].
    pose proof (own_band _ _ _ _ Hg Hnd Href) as Hown. simpl in Hown. rewrite Hown.
    simpl. by rewrite (concat_own_other _ _ _ _ _ Hall Hk).
  - destruct (IH Hkeys Hitem) as (g' & Hg' & Hst & Hcat).
    exists g'. split; [by right|]. split; [done|].
    rewrite (own_other _ _ _ _ _ Hg), Hcat; [done|]. left. intros Heq. apply Hk.
    rewrite Heq. by apply (list_elem_of_fmap_2 fst _ (band, output)).
Qed.

Lemma add_s3_tables_all_or_nothing_rollback dataset_refs storage_output s s' e :
  add_s3_tables asscalar refuses dataset_refs storage_output s = (s', Raise e) ->
  db s' = db s.
Proof.
  unfold add_s3_tables, with_transaction.
  destruct (for_each _ _ s) as [s1 [[]|e1]]; [done|]. by intros [= <- _].
Qed.

(** *** The UUID supply only grows *)

Definition grows {A} (m : M (State Scalar Catalog) A) : Prop :=
  ∀ s s' r, m s = (s', r) -> uuid_supply s <= uuid_supply s'.

Lemma grows_ret {A} (a : A) : grows (mret a).
Proof. intros s s' r [= <- _]. done. Qed.

Lemma grows_bind {A B} (m : M (State Scalar Catalog) A) (k : A -> M (State Scalar Catalog) B) :
  grows m -> (∀ a, grows (k a)) -> grows (m ≫= k).
Proof.
  intros Hm Hk s s' r. rewrite bind_unfold.
  destruct (m s) as [s1 [a|e]] eqn:Hms.
  - intros Hka. apply Hm in Hms. apply Hk in Hka. lia.
  - intros [= <- _]. by apply Hm in Hms.
Qed.

Lemma grows_uuid4 : grows (uuid4 (Scalar := Scalar) (Catalog := Catalog)).
Proof. intros s s' r [= <- _]. simpl. lia. Qed.

Lemma grows_execute stmt : grows (execute refuses stmt).
Proof.
  intros s s' r. unfold execute. destruct (refuses (db s) stmt); by intros [= <- _].
Qed.

Lemma grows_for_each {A} (xs : list A) (body : A -> M (State Scalar Catalog) unit) :
  (∀ x, grows (body x)) -> grows (for_each xs body).
Proof.
  intros Hbody. induction xs as [|x xs IH]; simpl; [apply grows_ret|].
  apply grows_bind; [apply Hbody|]. intros _. apply IH.
Qed.

Lemma grows_add_band dataset_refs item : grows (add_band asscalar refuses dataset_refs item).
Proof.
  destruct item as [band output]. unfold add_band.
  apply grows_bind; [apply grows_uuid4|]. intros id.
  apply grows_bind.
  { unfold _add_s3_dataset, put_s3_dataset.
    repeat (apply grows_bind; [|intros ?]); try apply grows_ret. apply grows_execute. }
  intros _. apply grows_bind.
  { unfold _add_s3_dataset_chunks. apply grows_for_each. intros km.
    unfold put_s3_dataset_chunk.
    repeat (apply grows_bind; [|intros ?]); try apply grows_ret;
      [apply grows_uuid4|apply grows_execute]. }
  intros _. unfold _add_s3_dataset_mappings. apply grows_for_each. intros ref.
  unfold put_s3_mapping.
  repeat (apply grows_bind; [|intros ?]); try apply grows_ret;
    [apply grows_uuid4|apply grows_execute].
Qed.

Lemma grows_add_s3_tables dataset_refs storage_output :
  grows (add_s3_tables asscalar refuses dataset_refs storage_output).
Proof.
  intros s s' r. unfold add_s3_tables, with_transaction.
  destruct (for_each _ _ s) as [s1 [[]|e]] eqn:Hbody; intros [= <- _]; simpl;
    eapply (grows_for_each _ _ (grows_add_band dataset_refs)); exact Hbody.
Qed.

(** *** Keys *)

(** The ids of [S3_DATASET] are distinct and were drawn from the supply,
    and every chunk row and every mapping row refers to a row of
    [S3_DATASET]. *)
Definition well_keyed s : Prop :=
  Forall (λ row, ds_id row < uuid_supply s) (S3_DATASET (db s))
  ∧ NoDup (ds_id <$> S3_DATASET (db s))
  ∧ Forall (λ c, ch_s3_dataset_id c ∈ ds_id <$> S3_DATASET (db s)) (S3_DATASET_CHUNK (db s))
  ∧ Forall (λ m, mp_s3_dataset_id m ∈ ds_id <$> S3_DATASET (db s)) (S3_DATASET_MAPPING (db s)).

Lemma well_keyed_old_id s id :
  well_keyed s -> id ∈ ds_id <$> S3_DATASET (db s) -> id < uuid_supply s.
Proof.
  intros (Hlt & _) (row & -> & Hrow)%list_elem_of_fmap.
  rewrite Forall_forall in Hlt. by apply Hlt.
Qed.

Lemma group_in_groups dataset_refs items groups g :
  Forall2 (band_stored dataset_refs) items groups -> g ∈ groups ->
  ∃ item, item ∈ items ∧ band_stored dataset_refs item g.
Proof.
  intros Hall [i Hi]%list_elem_of_lookup.
  destruct (Forall2_lookup_r _ _ _ _ _ Hall Hi) as (item & Hitem & Hst).
  exists item. split; [by eapply list_elem_of_lookup_2|done].
Qed.

(** [add_s3_tables] keeps the keys of the S3 tables in order, whether it
    returns or raises. *)
Lemma add_s3_tables_keeps_keys dataset_refs storage_output s s' r :
  well_keyed s ->
  add_s3_tables asscalar refuses dataset_refs storage_output s = (s', r) ->
  well_keyed s'.
Proof.
  intros Hwk Hadd. pose proof (grows_add_s3_tables _ _ _ _ _ Hadd) as Hgrow.
  destruct r as [[]|e].
  - apply add_s3_tables_stored in Hadd as (groups & (Hc & Hd & Hch & Hm & Hu) & Hall & Hnd & Hfresh).
    pose proof Hwk as (Hlt & Hnd0 & Hch0 & Hm0).
    unfold well_keyed. rewrite Hd, Hch, Hm, fmap_app.
    assert (ds_id <$> (group_row <$> groups) = (λ g, ds_id (group_row g)) <$> groups) as Hids
      by (by rewrite <-list_fmap_compose).
    split_and!.
    + apply Forall_app. split.
      * eapply Forall_impl; [exact Hlt|]. simpl. intros; lia.
      * apply Forall_fmap. eapply Forall_impl; [exact Hfresh|]. simpl. intros; lia.
    + apply NoDup_app. split_and!; [done| |by rewrite Hids].
      intros id Hold. rewrite Hids. intros (g & -> & Hg)%list_elem_of_fmap.
      apply (well_keyed_old_id _ _ Hwk) in Hold.
      rewrite Forall_forall in Hfresh. specialize (Hfresh g Hg). lia.
    + apply Forall_app. split.
      * eapply Forall_impl; [exact Hch0|]. simpl. intros c Hc'. apply elem_of_app. by left.
      * apply Forall_forall. intros c Hc'.
        apply list_elem_of_In, in_concat in Hc' as (cs & Hcs & Hc').
        apply list_elem_of_In, list_elem_of_fmap in Hcs as (g & -> & Hg).
        destruct (group_in_groups _ _ _ _ Hall Hg) as (item & _ & Hst).
        apply list_elem_of_In in Hc'. rewrite (band_stored_chunk _ _ _ _ Hst Hc').
        apply elem_of_app. right. rewrite Hids.
        by apply (list_elem_of_fmap_2 (λ g, ds_id (group_row g)) _ g).
    + apply Forall_app. split.
      * eapply Forall_impl; [exact Hm0|]. simpl. intros m Hm'. apply elem_of_app. by left.
      * apply Forall_forall. intros m Hm'.
        apply list_elem_of_In, in_concat in Hm' as (ms & Hms & Hm').
        apply list_elem_of_In, list_elem_of_fmap in Hms as (g & -> & Hg).
        destruct (group_in_groups _ _ _ _ Hall Hg) as (item & _ & Hst).
        apply list_elem_of_In in Hm'.
        destruct (band_stored_mapping _ _ _ _ Hst Hm') as (-> & _).
        apply elem_of_app. right. rewrite Hids.
        by apply (list_elem_of_fmap_2 (λ g, ds_id (group_row g)) _ g).
  - pose proof (add_s3_tables_all_or_nothing_rollback dataset_refs storage_output s s' e Hadd)
      as Hdb.
    destruct Hwk as (Hlt & Hnd0 & Hch0 & Hm0). unfold well_keyed. rewrite Hdb.
    split_and!; try done. eapply Forall_impl; [exact Hlt|]. simpl. intros; lia.
Qed.

(** *** Looking a stored band up *)

(** The columns [get_s3_dataset_chunk] answers for a key map. *)
Definition key_map_columns (key_map : KeyMap NpScalar) : ChunkColumns Scalar :=
  {| cc_s3_key := s3_key key_map; cc_chunk_id := chunk_id key_map;
     cc_compression_scheme := compression key_map;
     cc_micro_shape := (λ chunk_dim : Z * Z, (chunk_dim.2 - chunk_dim.1)%Z) <$> chunk key_map;
     cc_index_min := asscalar <$> index_min key_map;
     cc_index_max := asscalar <$> index_max key_map |}.

Lemma stored_group dataset_refs storage_output s s' band output :
  add_s3_tables asscalar refuses dataset_refs storage_output s = (s', Ok tt) ->
  storage_output !! band = Some output ->
  ∃ groups g, bands_stored dataset_refs (map_to_list storage_output) s s' groups
              ∧ g ∈ groups ∧ band_stored dataset_refs (band, output) g.
Proof.
  intros (groups & Hst)%add_s3_tables_stored Hband. exists groups.
  pose proof Hst as (_ & Hall & _).
  apply elem_of_map_to_list, list_elem_of_lookup in Hband as [i Hi].
  destruct (Forall2_lookup_l _ _ _ _ _ Hall Hi) as (g & Hg & Hbs).
  exists g. split_and!; [done| |done]. by eapply list_elem_of_lookup_2.
Qed.

(** The join for a dataset reference and a band after [add_s3_tables]:
    what it was before, and the band's new row. *)
Lemma joined_rows_after_add dataset_refs storage_output s s' band output ref :
  well_keyed s ->
  add_s3_tables asscalar refuses dataset_refs storage_output s = (s', Ok tt) ->
  storage_output !! band = Some output ->
  NoDup dataset_refs -> ref ∈ dataset_refs ->
  ∃ id, uuid_supply s <= id
    ∧ joined_rows (db s') ref band
      ≡ₚ joined_rows (db s) ref band ++ [chunk_set_row id band output].
Proof.
  intros Hwk Hadd Hband Hnd Href.
  apply add_s3_tables_stored in Hadd as (groups & (Hc & Hd & Hch & Hm & Hu) & Hall & Hids & Hfresh).
  destruct (concat_own dataset_refs (map_to_list storage_output) groups ref band output)
    as (g & Hg & (Hrow & _) & Hcat); try done.
  { apply NoDup_fst_map_to_list. }
  { by apply elem_of_map_to_list. }
  simpl in Hrow. rewrite Forall_forall in Hfresh.
  exists (ds_id (group_row g)).
  split; [by apply Hfresh|].
  rewrite !joined_rows_join, Hd, Hm, join_app_l, !join_app_r.
  rewrite (join_apart (S3_DATASET (db s)) (concat (group_mappings <$> groups))).
  - rewrite (join_apart (group_row <$> groups) (S3_DATASET_MAPPING (db s))).
    + rewrite (join_groups _ _ _ _ _ Hall Hids), Hcat, <-Hrow. by rewrite app_nil_r.
    + intros row m (g' & -> & Hg')%list_elem_of_fmap Hm' Heq.
      pose proof Hwk as (_ & _ & _ & Hm0). rewrite Forall_forall in Hm0.
      specialize (Hm0 m Hm'). rewrite Heq in Hm0.
      apply (well_keyed_old_id s _ Hwk) in Hm0.
      specialize (Hfresh g' Hg'). lia.
  - intros row m Hrow' Hm' Heq.
    apply list_elem_of_In, in_concat in Hm' as (ms & Hms & Hm').
    apply list_elem_of_In, list_elem_of_fmap in Hms as (g' & -> & Hg').
    destruct (group_in_groups _ _ _ _ Hall Hg') as (item & _ & Hst).
    apply list_elem_of_In in Hm'. destruct (band_stored_mapping _ _ _ _ Hst Hm') as (Hid & _).
    destruct Hwk as (Hlt & _). rewrite Forall_forall in Hlt. specialize (Hlt row Hrow').
    specialize (Hfresh g' Hg'). lia.
Qed.

(** X2.  A band that [add_s3_tables] has written is found by
    [get_s3_dataset] under each of the dataset references: the answer
    holds, besides what was there for that reference and band before,
    one row, with the layout of the storage output and a UUID that was
    not in use before. *)
Theorem get_s3_dataset_after_add unavailable dataset_refs storage_output s s' band output ref :
  well_keyed s ->
  add_s3_tables asscalar refuses dataset_refs storage_output s = (s', Ok tt) ->
  storage_output !! band = Some output ->
  NoDup dataset_refs -> ref ∈ dataset_refs ->
  unavailable (db s') = None ->
  ∃ id rows, get_s3_dataset unavailable ref band s' = (s', Ok rows)
    ∧ uuid_supply s <= id
    ∧ rows ≡ₚ joined_rows (db s) ref band ++ [chunk_set_row id band output].
Proof.
  intros Hwk Hadd Hband Hnd Href Hup.
  destruct (joined_rows_after_add _ _ _ _ _ _ _ Hwk Hadd Hband Hnd Href) as (id & Hid & Hrows).
  exists id, (joined_rows (db s') ref band).
  unfold get_s3_dataset, fetchall. by rewrite Hup.
Qed.

Lemma chunks_of_group dataset_refs items groups g :
  Forall2 (band_stored dataset_refs) items groups ->
  NoDup ((λ g, ds_id (group_row g)) <$> groups) -> g ∈ groups ->
  filter (λ c, ch_s3_dataset_id c = ds_id (group_row g)) (concat (group_chunks <$> groups))
  = group_chunks g.
Proof.
  intros Hall. induction Hall as [|item g0 items groups Hg0 Hall IH];
    [by intros _ ?%elem_of_nil|].
  rewrite !fmap_cons. cbn [concat]. intros [Hfresh Hnd]%NoDup_cons Hg.
  rewrite filter_app.
  assert (∀ g', g' ∈ groups -> ds_id (group_row g') ≠ ds_id (group_row g0)) as Hne.
  { intros g' Hg' Heq. apply Hfresh. rewrite <-Heq.
    by apply (list_elem_of_fmap_2 (λ g, ds_id (group_row g)) _ g'). }
  apply elem_of_cons in Hg as [->|Hg].
  - rewrite filter_everything.
    + rewrite filter_nothing; [by rewrite app_nil_r|].
      apply Forall_forall. intros c Hc Heq.
      apply list_elem_of_In, in_concat in Hc as (cs & Hcs & Hc).
      apply list_elem_of_In, list_elem_of_fmap in Hcs as (g' & -> & Hg').
      destruct (group_in_groups _ _ _ _ Hall Hg') as (item' & _ & Hst).
      apply list_elem_of_In in Hc. rewrite (band_stored_chunk _ _ _ _ Hst Hc) in Heq.
      by apply (Hne g').
    + apply Forall_forall. intros c Hc. by apply (band_stored_chunk _ _ _ _ Hg0).
  - rewrite filter_nothing, IH; [done..|].
    apply Forall_forall. intros c Hc Heq.
    rewrite (band_stored_chunk _ _ _ _ Hg0 Hc) in Heq. by apply (Hne g).
Qed.

Lemma chunk_columns_stored (cs : list (S3ChunkRow Scalar)) id (kms : list (KeyMap NpScalar)) :
  Forall2 (λ c key_map, c = chunk_row (ch_id c) id key_map) cs kms ->
  chunk_columns <$> cs = key_map_columns <$> kms.
Proof.
  induction 1 as [|c km cs kms Hc _ IH]; [done|].
  rewrite !fmap_cons, IH. f_equal. by rewrite Hc.
Qed.


End Stored.

Section Specifics.
Context {Scalar Catalog : Type}.
Variable unavailable : Database Scalar Catalog -> option exn.

Implicit Types (s : State Scalar Catalog) (meta : gmap string (S3DatasetRow Scalar)).

Lemma foldl_insert_last band (rows : list (S3DatasetRow Scalar)) meta b :
  foldl (λ meta row, <[band := row]> meta) meta rows !! b
  = if decide (b = band) then from_option Some (meta !! b) (last rows) else meta !! b.
Proof.
  revert meta. induction rows as [|row rows IH]; intros meta; simpl.
  - by destruct (decide (b = band)).
  - rewrite IH. destruct (decide (b = band)) as [->|Hne].
    + rewrite lookup_insert_eq. destruct rows as [|row' rows]; [done|].
      rewrite last_cons_cons. destruct (last (row' :: rows)) eqn:Hlast; [done|].
      by apply last_None in Hlast.
    + by rewrite lookup_insert_ne.
Qed.

Lemma collect_bands_ok dataset_id bands meta s :
  unavailable (db s) = None ->
  ∃ meta', collect_bands unavailable dataset_id bands meta s = (s, Ok meta')
    ∧ ∀ b, meta' !! b
           = if decide (b ∈ bands)
             then from_option Some (meta !! b) (last (joined_rows (db s) dataset_id b))
             else meta !! b.
Proof.
  intros Hup. revert meta. induction bands as [|band bands IH]; intros meta.
  - exists meta. split; [done|]. intros b. rewrite decide_False; [done|]. apply not_elem_of_nil.
  - cbn [collect_bands]. rewrite bind_unfold. unfold get_s3_dataset at 1, fetchall.
    rewrite Hup.
    destruct (IH (foldl (λ meta row, <[band := row]> meta) meta
                        (joined_rows (db s) dataset_id band))) as (meta' & -> & Hmeta').
    exists meta'. split; [done|]. intros b. rewrite Hmeta', foldl_insert_last.
    destruct (decide (b = band)) as [->|Hne].
    + rewrite (decide_True (P := band ∈ band :: bands)) by left.
      destruct (decide (band ∈ bands)); [|done].
      by destruct (last (joined_rows (db s) dataset_id band)).
    + destruct (decide (b ∈ bands)) as [Hin|Hnin].
      * rewrite decide_True; [done|]. by right.
      * rewrite decide_False; [done|]. by intros [?|?]%elem_of_cons.
Qed.

Lemma collect_bands_unavailable dataset_id band bands meta s e :
  unavailable (db s) = Some e ->
  collect_bands unavailable dataset_id (band :: bands) meta s = (s, Raise e).
Proof.
  intros Hup. cbn [collect_bands]. rewrite bind_unfold. unfold get_s3_dataset, fetchall.
  by rewrite Hup.
Qed.

(** X4.  [add_specifics] only reads: it leaves the database as it is.
    The [s3_metadata] it builds has an entry for exactly the measurement
    bands for which [get_s3_dataset] finds a row, holding the last row
    found; a dataset without measurements gets an empty [s3_metadata]
    without a query, and the call raises only when the query does. *)
Theorem add_specifics_last_row dataset_id measurements s s' r :
  add_specifics unavailable dataset_id measurements s = (s', r) ->
  s' = s
  ∧ match r with
    | Ok s3_metadata =>
        ∀ band, s3_metadata !! band
                = if decide (band ∈ measurements)
                  then last (joined_rows (db s) dataset_id band)
                  else None
    | Raise e => measurements ≠ [] ∧ unavailable (db s) = Some e
    end.
Proof.
  unfold add_specifics. destruct measurements as [|band bands].
  - intros [= <- <-]. split; [done|]. intros band. rewrite lookup_empty.
    by rewrite decide_False by apply not_elem_of_nil.
  - unfold with_transaction. destruct (unavailable (db s)) as [e|] eqn:Hup.
    + rewrite (collect_bands_unavailable _ _ _ _ _ e Hup). intros [= <- <-].
      split; [by destruct s|]. done.
    + destruct (collect_bands_ok dataset_id (band :: bands) ∅ s Hup) as (meta' & -> & Hmeta').
      intros [= <- <-]. split; [done|]. intros b. rewrite Hmeta', lookup_empty.
      destruct (decide (b ∈ band :: bands)); [|done].
      by destruct (last (joined_rows (db s) dataset_id b)).
Qed.

End Specifics.

(** *** The whole of [add_datasets] *)

Section Adding.
Context {NpScalar Scalar Catalog Added : Type}.
Variable asscalar : NpScalar -> Scalar.
Variable refuses : Database Scalar Catalog -> Insert Scalar -> option exn.
Variable base_add : Catalog -> Dataset -> Catalog * Result Added.
Variable uri_scheme : string.
Variable unavailable : Database Scalar Catalog -> option exn.

Implicit Types (s : State Scalar Catalog).

(** The S3 tables and the UUID supply are the same in both states. *)
Definition same_tables s s' : Prop :=
  S3_DATASET (db s') = S3_DATASET (db s)
  ∧ S3_DATASET_CHUNK (db s') = S3_DATASET_CHUNK (db s)
  ∧ S3_DATASET_MAPPING (db s') = S3_DATASET_MAPPING (db s)
  ∧ uuid_supply s' = uuid_supply s.

Lemma same_tables_refl s : same_tables s s.
Proof. done. Qed.

Lemma same_tables_trans s1 s2 s3 : same_tables s1 s2 -> same_tables s2 s3 -> same_tables s1 s3.
Proof. intros (? & ? & ? & ?) (? & ? & ? & ?). unfold same_tables. split_and!; congruence. Qed.

Lemma same_tables_well_keyed s s' : same_tables s s' -> well_keyed s -> well_keyed s'.
Proof. intros (Hd & Hc & Hm & Hu). unfold well_keyed. by rewrite Hd, Hc, Hm, Hu. Qed.

Lemma same_tables_joined_rows s s' ref band :
  same_tables s s' -> joined_rows (db s') ref band = joined_rows (db s) ref band.
Proof. intros (Hd & _ & Hm & _). unfold joined_rows. by rewrite Hd, Hm. Qed.

Lemma set_schemes_state (uris : list string) s s' r :
  mapM (M := M (State Scalar Catalog)) (set_scheme uri_scheme) uris s = (s', r) -> s' = s.
Proof.
  revert s' r. induction uris as [|uri uris IH]; intros s' r; [by intros [= <- _]|].
  cbn [mapM]. rewrite bind_unfold. unfold set_scheme at 1.
  destruct (after_colon uri) as [rest|]; [|by intros [= <- _]].
  cbn. rewrite bind_unfold.
  destruct (mapM (M := M (State Scalar Catalog)) (set_scheme uri_scheme) uris s)
    as [s1 [uris'|e]] eqn:Hrest;
    intros [= <- _]; by eapply IH.
Qed.

Lemma add_same_tables dataset s s' r :
  add base_add uri_scheme dataset s = (s', r) -> same_tables s s'.
Proof.
  unfold add. rewrite bind_unfold.
  destruct (mapM (M := M (State Scalar Catalog)) (set_scheme uri_scheme) (uris dataset) s)
    as [s1 [uris'|e]] eqn:Huris; apply set_schemes_state in Huris as ->.
  - unfold super_add. destruct (base_add _ _) as [c ra]. by intros [= <- _].
  - by intros [= <- _].
Qed.

Lemma add_each_same_tables datasets refs n s s' r :
  add_each base_add uri_scheme datasets refs n s = (s', r) -> same_tables s s'.
Proof.
  revert refs n s. induction datasets as [|d datasets IH]; intros refs n s.
  - by intros [= <- _].
  - cbn [add_each]. rewrite bind_unfold.
    destruct (add base_add uri_scheme d s) as [s1 [a|e]] eqn:Hadd;
      apply add_same_tables in Hadd.
    + intros Hrest%IH. by eapply same_tables_trans.
    + by intros [= <- _].
Qed.

(** The steps of a call of [add_datasets] that got past the check of
    [storage_output]. *)
Lemma add_datasets_steps datasets storage_output s s' r :
  attrs datasets !! "storage_output" = Some storage_output ->
  add_datasets asscalar refuses base_add uri_scheme datasets s = (s', r) ->
  (∃ e, add_each base_add uri_scheme (values datasets) [] 0 s = (s', Raise e) ∧ r = Raise e)
  ∨ ∃ s1 rt,
      add_each base_add uri_scheme (values datasets) [] 0 s
      = (s1, Ok (id <$> values datasets, length (values datasets)))
      ∧ add_s3_tables asscalar refuses (id <$> values datasets) storage_output s1 = (s', rt)
      ∧ r = match rt with Ok _ => Ok (length (values datasets)) | Raise e => Raise e end.
Proof.
  intros Hso. rewrite (add_datasets_guard_holds _ _ _ _ _ storage_output) by done.
  rewrite bind_unfold.
  destruct (add_each base_add uri_scheme (values datasets) [] 0 s)
    as [s1 [[refs n]|e]] eqn:Hloop.
  - pose proof (add_each_ok _ _ _ _ _ _ _ _ _ Hloop) as [-> ->]. simpl.
    rewrite bind_unfold.
    destruct (add_s3_tables asscalar refuses (id <$> values datasets) storage_output s1)
      as [s2 [[]|e]] eqn:Htables; intros [= <- <-]; right.
    + by exists s1, (Ok tt).
    + by exists s1, (Raise e).
  - intros [= <- <-]. left. by exists e.
Qed.

(** X1.  [add_datasets] keeps the keys of the S3 tables in order:
    whether it returns or raises, the ids of [S3_DATASET] stay distinct
    and below the UUID supply, and every chunk row and mapping row still
    refers to a row of [S3_DATASET]. *)
Theorem add_datasets_well_keyed datasets s s' r :
  well_keyed s ->
  add_datasets asscalar refuses base_add uri_scheme datasets s = (s', r) ->
  well_keyed s'.
Proof.
  intros Hwk. destruct (attrs datasets !! "storage_output") as [so|] eqn:Hso.
  - intros Hadd. apply (add_datasets_steps _ so _ _ _ Hso) in Hadd
      as [(e & Hloop & _)|(s1 & rt & Hloop & Htables & _)].
    + apply add_each_same_tables in Hloop. by eapply same_tables_well_keyed.
    + apply add_each_same_tables in Hloop.
      eapply add_s3_tables_keeps_keys; [|exact Htables]. by eapply same_tables_well_keyed.
  - rewrite add_datasets_no_storage_output by done. by intros [= <- _].
Qed.

(** X5.  When [add_datasets] raises, whatever raised, the three S3
    tables hold the rows they held before the call: only the base index
    may have been written. *)
Theorem add_datasets_raise_keeps_s3_tables datasets s s' e :
  add_datasets asscalar refuses base_add uri_scheme datasets s = (s', Raise e) ->
  S3_DATASET (db s') = S3_DATASET (db s)
  ∧ S3_DATASET_CHUNK (db s') = S3_DATASET_CHUNK (db s)
  ∧ S3_DATASET_MAPPING (db s') = S3_DATASET_MAPPING (db s).
Proof.
  destruct (attrs datasets !! "storage_output") as [so|] eqn:Hso.
  - intros Hadd. apply (add_datasets_steps _ so _ _ _ Hso) in Hadd
      as [(e' & Hloop & _)|(s1 & rt & Hloop & Htables & Hr)].
    + by apply add_each_same_tables in Hloop as (? & ? & ? & _).
    + apply add_each_same_tables in Hloop as (Hd & Hc & Hm & _).
      destruct rt as [[]|e']; [done|].
      apply add_s3_tables_all_or_nothing_rollback in Htables. by rewrite Htables.
  - rewrite add_datasets_no_storage_output by done. by intros [= <- _].
Qed.

(** X6.  A dataset that [add_datasets] has indexed gets its
    [s3_metadata] from [add_specifics]: for a band of the storage output
    that is among the dataset's measurements, and for which nothing was
    recorded for the dataset before, the entry is the band's row of
    [S3_DATASET], with the layout of the storage output. *)
Theorem add_specifics_after_add_datasets datasets storage_output s s' n dataset band output
    measurements :
  well_keyed s ->
  add_datasets asscalar refuses base_add uri_scheme datasets s = (s', Ok n) ->
  attrs datasets !! "storage_output" = Some storage_output ->
  storage_output !! band = Some output ->
  NoDup (id <$> values datasets) -> dataset ∈ values datasets ->
  band ∈ measurements ->
  joined_rows (db s) (id dataset) band = [] ->
  unavailable (db s') = None ->
  ∃ row_id s3_metadata,
    add_specifics unavailable (id dataset) measurements s' = (s', Ok s3_metadata)
    ∧ s3_metadata !! band = Some (chunk_set_row asscalar row_id band output).
Proof.
  intros Hwk Hadd Hso Hband Hnd Hin Hmeas Hnew Hup.
  apply (add_datasets_steps _ storage_output _ _ _ Hso) in Hadd
    as [(e & _ & [=])|(s1 & rt & Hloop & Htables & Hr)].
  destruct rt as [[]|e]; [|done].
  apply add_each_same_tables in Hloop.
  destruct (joined_rows_after_add asscalar refuses (id <$> values datasets) storage_output
              s1 s' band output (id dataset))
    as (row_id & _ & Hrows); [by eapply same_tables_well_keyed|done..| |].
  { by apply list_elem_of_fmap_2. }
  rewrite (same_tables_joined_rows s s1), Hnew in Hrows by done. simpl in Hrows.
  apply Permutation_sym, Permutation_singleton_l in Hrows.
  exists row_id. unfold add_specifics.
  destruct measurements as [|band0 bands]; [by apply elem_of_nil in Hmeas|].
  destruct (collect_bands_ok unavailable (id dataset) (band0 :: bands) ∅ s' Hup)
    as (meta & Hmeta & Hlookup).
  exists meta. unfold with_transaction. rewrite Hmeta. split; [done|].
  rewrite Hlookup, decide_True by done. by rewrite <-Hrows.
Qed.

(** *** The URI scheme set by [add] *)

Lemma after_colon_scheme (scheme rest : string) :
  after_colon scheme = None -> after_colon (scheme +:+ ":" +:+ rest) = Some rest.
Proof.
  induction scheme as [|c scheme IH]; [done|]. simpl.
  destruct (Ascii.eqb c (Ascii.ascii_of_nat 58)); [done|]. exact IH.
Qed.

Lemma set_schemes_without_colon (uris : list string) uri s :
  uri ∈ uris -> after_colon uri = None ->
  mapM (M := M (State Scalar Catalog)) (set_scheme uri_scheme) uris s
  = (s, Raise (IndexError "list index out of range")).
Proof.
  induction uris as [|uri0 uris IH]; [by intros ?%elem_of_nil|].
  intros Hin Hnone. cbn [mapM]. rewrite bind_unfold. unfold set_scheme at 1.
  destruct (after_colon uri0) as [rest|] eqn:Huri0; [|done].
  apply elem_of_cons in Hin as [->|Hin]; [congruence|].
  cbn. rewrite bind_unfold. by rewrite IH.
Qed.

(** X7.  [add] raises [IndexError] for a dataset one of whose URIs has
    no colon, before the base [add] is reached: nothing is written. *)
Theorem add_uri_without_colon dataset uri s :
  uri ∈ uris dataset -> after_colon uri = None ->
  add base_add uri_scheme dataset s = (s, Raise (IndexError "list index out of range")).
Proof.
  intros Hin Hnone. unfold add. rewrite bind_unfold.
  by rewrite (set_schemes_without_colon _ uri).
Qed.

Lemma set_schemes_again (uris uris' : list string) s s1 s2 :
  after_colon uri_scheme = None ->
  mapM (M := M (State Scalar Catalog)) (set_scheme uri_scheme) uris s = (s1, Ok uris') ->
  mapM (M := M (State Scalar Catalog)) (set_scheme uri_scheme) uris' s2 = (s2, Ok uris').
Proof.
  intros Hscheme. revert uris' s1. induction uris as [|uri uris IH]; intros uris' s1.
  - by intros [= _ <-].
  - cbn [mapM]. rewrite bind_unfold. unfold set_scheme at 1.
    destruct (after_colon uri) as [rest|]; [|done]. cbn. rewrite bind_unfold.
    destruct (mapM (M := M (State Scalar Catalog)) (set_scheme uri_scheme) uris s)
      as [s3 [rests|e]] eqn:Hrest; [|done].
    intros [= _ <-]. cbn [mapM]. rewrite bind_unfold. unfold set_scheme at 1.
    rewrite (after_colon_scheme _ _ Hscheme). cbn. rewrite bind_unfold.
    by rewrite (IH _ _ eq_refl).
Qed.

(** X8.  Setting the scheme is idempotent when the scheme has no colon:
    a dataset whose URIs [add] has rewritten is, when added again,
    passed to the base [add] with the same URIs. *)
Theorem add_again_same_uris dataset_id (uris uris' : list string) s s1 s2 :
  after_colon uri_scheme = None ->
  mapM (M := M (State Scalar Catalog)) (set_scheme uri_scheme) uris s = (s1, Ok uris') ->
  add base_add uri_scheme {| id := dataset_id; uris := uris' |} s2
  = super_add base_add {| id := dataset_id; uris := uris' |} s2.
Proof.
  intros Hscheme Hset. unfold add. rewrite bind_unfold. simpl.
  by rewrite (set_schemes_again _ _ _ _ _ Hscheme Hset).
Qed.

End Adding.
End S3QueryProps.


(** ** The S3 index of the small installation *)

Module S3Runs.
Import S3 S3Query S3QueryProps Demo.

(** The database answers every query. *)
Definition available (d : Database Z (list UUID)) : option exn := None.

(** A batch whose storage output has a band without a base name. *)
Definition west_batch : Datasets Z :=
  {| attrs := {[ "storage_output" := two_bands ]}; values := dataset_of <$> [1; 2] |}.

Lemma empty_index_well_keyed : well_keyed empty_index.
Proof. unfold well_keyed. simpl. split_and!; constructor. Defined.

Lemma add_datasets_well_keyed_run :
  ∃ s', add_datasets (batch_of [1; 2]) empty_index = (s', Ok 2)
        ∧ well_keyed empty_index ∧ well_keyed s'.
Proof.
  eexists. split; [vm_compute; reflexivity|]. split; [exact empty_index_well_keyed|].
  apply (add_datasets_well_keyed (λ x : Z, x) refuses base_add "s3" (batch_of [1; 2])
           empty_index _ (Ok 2) empty_index_well_keyed).
  vm_compute; reflexivity.
Defined.

Lemma get_s3_dataset_after_add_run :
  ∃ s',
    add_s3_tables (λ x : Z, x) refuses [1; 2] {[ "red" := band_output (1, 1)%Z ]} empty_index
    = (s', Ok tt)
    ∧ ∃ id rows, get_s3_dataset available 2 "red" s' = (s', Ok rows)
        ∧ uuid_supply empty_index <= id
        ∧ rows ≡ₚ joined_rows (db empty_index) 2 "red"
                  ++ [chunk_set_row (λ x : Z, x) id "red" (band_output (1, 1)%Z)].
Proof.
  eexists. split; [vm_compute; reflexivity|].
  apply (get_s3_dataset_after_add (λ x : Z, x) refuses available [1; 2]
           {[ "red" := band_output (1, 1)%Z ]} empty_index _ "red" (band_output (1, 1)%Z) 2
           empty_index_well_keyed).
  - vm_compute; reflexivity.
  - vm_compute; reflexivity.
  - apply (bool_decide_unpack _). vm_compute. exact I.
  - apply (bool_decide_unpack _). vm_compute. exact I.
  - reflexivity.
Defined.


(** The index after a batch of two datasets. *)
Definition indexed : State Z (list UUID) := (add_datasets (batch_of [1; 2]) empty_index).1.

Lemma add_specifics_last_row_run :
  ∃ s' r,
    add_specifics available 1 ["red"; "nir"] indexed = (s', r)
    ∧ s' = indexed
    ∧ match r with
      | Ok s3_metadata =>
          ∀ band, s3_metadata !! band
                  = if decide (band ∈ ["red"; "nir"])
                    then last (joined_rows (db indexed) 1 band)
                    else None
      | Raise e => ["red"; "nir"] ≠ [] ∧ available (db indexed) = Some e
      end.
Proof.
  eexists _, _. split; [vm_compute; reflexivity|].
  apply (add_specifics_last_row available 1 ["red"; "nir"] indexed).
  vm_compute; reflexivity.
Defined.

Lemma add_datasets_raise_keeps_s3_tables_run :
  ∃ s' e,
    add_datasets west_batch empty_index = (s', Raise e)
    ∧ S3_DATASET (db s') = S3_DATASET (db empty_index)
    ∧ S3_DATASET_CHUNK (db s') = S3_DATASET_CHUNK (db empty_index)
    ∧ S3_DATASET_MAPPING (db s') = S3_DATASET_MAPPING (db empty_index).
Proof.
  eexists _, _. split; [vm_compute; reflexivity|].
  eapply (add_datasets_raise_keeps_s3_tables (λ x : Z, x) refuses base_add "s3" west_batch
            empty_index _ _).
  vm_compute; reflexivity.
Defined.

Lemma add_specifics_after_add_datasets_run :
  ∃ s',
    add_datasets (batch_of [1; 2]) empty_index = (s', Ok 2)
    ∧ ∃ row_id s3_metadata,
        add_specifics available (id (dataset_of 2)) ["red"] s' = (s', Ok s3_metadata)
        ∧ s3_metadata !! "red"
          = Some (chunk_set_row (λ x : Z, x) row_id "red" (band_output (1, 1)%Z)).
Proof.
  eexists. split; [vm_compute; reflexivity|].
  apply (add_specifics_after_add_datasets (λ x : Z, x) refuses base_add "s3" available
           (batch_of [1; 2]) {[ "red" := band_output (1, 1)%Z ]} empty_index _ 2 (dataset_of 2)
           "red" (band_output (1, 1)%Z) ["red"] empty_index_well_keyed).
  - vm_compute; reflexivity.
  - vm_compute; reflexivity.
  - vm_compute; reflexivity.
  - apply (bool_decide_unpack _). vm_compute. exact I.
  - change (dataset_of 2 ∈ [dataset_of 1; dataset_of 2]). do 2 constructor.
  - apply (bool_decide_unpack _). vm_compute. exact I.
  - reflexivity.
  - reflexivity.
Defined.

Lemma add_uri_without_colon_run :
  add base_add "s3" {| id := 1; uris := ["file:///data/tile.nc"; "tile.nc"] |} empty_index
  = (empty_index, Raise (IndexError "list index out of range")).
Proof.
  apply (add_uri_without_colon (Scalar := Z) base_add "s3"
           {| id := 1; uris := ["file:///data/tile.nc"; "tile.nc"] |} "tile.nc" empty_index).
  - apply (bool_decide_unpack _). vm_compute. exact I.
  - reflexivity.
Defined.

Lemma add_again_same_uris_run :
  ∃ uris',
    mapM (M := M (State Z (list UUID))) (set_scheme "s3") ["file:///data/tile.nc"] empty_index
    = (empty_index, Ok uris')
    ∧ add base_add "s3" {| id := 1; uris := uris' |} indexed
      = super_add base_add {| id := 1; uris := uris' |} indexed.
Proof.
  eexists. split; [vm_compute; reflexivity|].
  apply (add_again_same_uris (Scalar := Z) base_add "s3" 1 ["file:///data/tile.nc"] _
           empty_index empty_index indexed).
  - reflexivity.
  - vm_compute; reflexivity.
Defined.

End S3Runs.


(** ** Whole runs of [process_tasks] *)

Module RunProps.
Import Sched SchedProps.

Section Runs.
Context {World Task Handle Datasets : Type} {Exec : Executor World Task Handle Datasets}.
Variable index_datasets : Datasets -> M World nat.

Implicit Types (st : Loop World Task Handle) (p : Polled World Task Handle).
Implicit Types (w : World) (hs : list Handle) (ts : list Task).

(** *** What the log says of a run *)

(** The loop over [failed] logs a failure for each one it counts, and
    submits nothing. *)
Lemma fetch_failed_counts failed w lg n :
  ∃ k, (fetch_failed failed w lg n).2 = n + k
       ∧ task_failures (fetch_failed failed w lg n).1.2 = task_failures lg + k
       ∧ submitted (fetch_failed failed w lg n).1.2 = submitted lg.
Proof.
  revert w lg n. induction failed as [|h failed IH]; intros w lg n; simpl.
  - exists 0. split_and!; [lia|lia|done].
  - destruct (result h w) as [w' [v|e]].
    + apply IH.
    + destruct (IH w' (lg ++ [TaskFailed e]) (n + 1)) as (k & Hn & Hf & Hs).
      exists (S k). rewrite Hn, Hf, Hs, task_failures_app, submitted_app. simpl.
      rewrite app_nil_r. split_and!; [lia|lia|done].
Qed.

(** The tasks submitted so far followed by those not yet pulled are the
    input sequence, and the failure count is the number of failures
    logged. *)
Definition logged ts st : Prop :=
  submitted (log st) ++ tasks st = ts ∧ n_failed st = task_failures (log st).

Lemma cycle_logged ts queue_size st st' :
  cycle index_datasets queue_size st = Continue st' -> logged ts st -> logged ts st'.
Proof.
  intros Hc [Hseq Hn].
  pose proof (cycle_pending _ _ _ _ Hc) as (p & Hp & _).
  destruct (cycle_continues index_datasets _ _ _ Hp) as (st'' & Hc' & Htasks & Hnf & Hsub & Htf & _).
  rewrite Hc in Hc'. injection Hc' as <-.
  apply poll_unfold in Hp as (w1 & lg1 & futures & w2 & Hs & _ & _ & _ & Hf & Hdrop).
  pose proof (submit_tasks_log (take (room queue_size (pending st)) (tasks st))
                (world st) (log st)) as [Hsl Hfl].
  rewrite Hs in Hsl, Hfl. simpl in Hsl, Hfl.
  match type of Hf with
  | fetch_failed ?f ?w ?lg ?n = _ =>
      destruct (fetch_failed_counts f w lg n) as (k & Hk & Hkf & Hks)
  end.
  rewrite Hf in Hk, Hkf, Hks. simpl in Hk, Hkf, Hks.
  rewrite task_failures_app in Hkf. rewrite submitted_app in Hks. simpl in Hkf, Hks.
  rewrite app_nil_r in Hks. split.
  - rewrite Hsub, Htasks, Hks, Hsl, Hdrop, <-app_assoc, take_drop. exact Hseq.
  - rewrite Hnf, Htf, Hk, Hkf, Hfl. lia.
Qed.

Lemma state_at_logged ts queue_size k st0 st :
  state_at index_datasets queue_size k st0 = Some st -> logged ts st0 -> logged ts st.
Proof.
  revert st0. induction k as [|k IH]; intros st0 Hk Hl; simpl in Hk.
  - by injection Hk as <-.
  - destruct (cycle index_datasets queue_size st0) as [|st1] eqn:Hc; [done|].
    eapply IH; [exact Hk|]. by eapply cycle_logged.
Qed.

(** X9.  At every top-up of a run, whatever the executor did, the tasks
    submitted so far, in the order of the log, followed by the tasks not
    yet pulled, are the input sequence: tasks are submitted in order and
    none twice, a batch pushed back after a failed gather included; and
    [n_failed] is the number of task failures logged. *)
Theorem submitted_in_order_once queue_size w ts k st :
  state_at index_datasets queue_size k (start w ts) = Some st ->
  submitted (log st) ++ tasks st = ts ∧ n_failed st = task_failures (log st).
Proof.
  intros Hk. by apply (state_at_logged ts _ _ _ _ Hk).
Qed.

(** *** Returning *)

Lemma run_state_at fuel queue_size st0 n_ok n_bad :
  run index_datasets fuel queue_size st0 = Some (n_ok, n_bad) ->
  ∃ k st, k < fuel ∧ state_at index_datasets queue_size k st0 = Some st
          ∧ cycle index_datasets queue_size st = Return n_ok n_bad.
Proof.
  revert st0. induction fuel as [|fuel IH]; intros st0; simpl; [done|].
  destruct (cycle index_datasets queue_size st0) as [a b|st1] eqn:Hc.
  - intros [= <- <-]. exists 0, st0. split_and!; [lia|done..].
  - intros (k & st & Hlt & Hk & Hret)%IH. exists (S k), st. simpl. rewrite Hc.
    split_and!; [lia|done..].
Qed.

(** The loop breaks only when nothing is pending and the top-up
    submitted nothing. *)
Lemma cycle_return_drained queue_size st n_ok n_bad :
  cycle index_datasets queue_size st = Return n_ok n_bad ->
  n_ok = n_successful st ∧ n_bad = n_failed st ∧ pending st = []
  ∧ ((1 <= queue_size)%Z -> tasks st = []).
Proof.
  unfold cycle. destruct (poll queue_size st) as [p|] eqn:Hp.
  { destruct (p_completed p); [done|]. by destruct (gather _ _ _) as [? [?|?]]. }
  intros [= <- <-]. unfold poll in Hp.
  pose proof (submit_tasks_length (take (room queue_size (pending st)) (tasks st))
                (world st) (log st)) as Hlen.
  destruct (submit_tasks _ _ _) as [[w1 lg1] futures]. simpl in Hlen.
  destruct (pending st ++ futures) as [|h hs] eqn:Hin.
  - apply app_eq_nil in Hin as [Hpend ->]. split_and!; [done..|].
    intros Hq. rewrite length_take in Hlen. simpl in Hlen.
    unfold room in Hlen. rewrite Hpend in Hlen. simpl in Hlen.
    destruct (tasks st); [done|]. simpl in Hlen. lia.
  - destruct (get_ready (h :: hs) w1) as [w2 [[c f] p']].
    by destruct (fetch_failed f w2 _ (n_failed st)) as [[w3 lg3] nf].
Qed.

(** X10.  With a queue size of at least one, [process_tasks] returns
    only from a state in which every task of the input has been
    submitted, once and in order, and no handle is pending; the counts
    it returns are those of that state, the second one the number of
    task failures logged. *)
Theorem process_tasks_returns_drained fuel w ts queue_size n_ok n_bad :
  (1 <= queue_size)%Z ->
  process_tasks index_datasets fuel w ts queue_size = Some (n_ok, n_bad) ->
  ∃ k st, state_at index_datasets queue_size k (start w ts) = Some st
    ∧ submitted (log st) = ts ∧ tasks st = [] ∧ pending st = []
    ∧ n_ok = n_successful st ∧ n_bad = task_failures (log st).
Proof.
  intros Hq (k & st & _ & Hk & Hret)%run_state_at.
  apply cycle_return_drained in Hret as (-> & -> & Hpend & Htasks).
  specialize (Htasks Hq).
  destruct (state_at_logged ts _ _ _ _ Hk) as [Hseq Hn]; [done|].
  exists k, st. rewrite Htasks, app_nil_r in Hseq. by split_and!.
Qed.

(** X11.  With a queue size of zero or less, or without tasks, the loop
    breaks at its first test: [process_tasks] returns [(0, 0)], and with
    a queue size of zero or less it does so whatever the tasks, none of
    which is submitted. *)
Theorem process_tasks_nothing_to_do fuel w ts queue_size :
  (queue_size <= 0)%Z ∨ ts = [] ->
  process_tasks index_datasets (S fuel) w ts queue_size = Some (0, 0)
  ∧ cycle index_datasets queue_size (start w ts) = Return 0 0.
Proof.
  intros Hno. unfold process_tasks. simpl.
  assert (cycle index_datasets queue_size (start w ts) = Return 0 0) as ->; [|done].
  unfold cycle, poll. simpl.
  assert (take (room queue_size []) ts = []) as ->; [|done].
  destruct Hno as [Hq| ->]; [|by rewrite take_nil].
  assert (room queue_size (@nil Handle) = 0) as -> by (unfold room; simpl; lia). done.
Qed.

(** *** Keeping the queue full *)

Lemma state_at_pending_bound queue_size k st0 st :
  ready_partitions ->
  (Z.of_nat (length (pending st0)) <= queue_size)%Z ->
  state_at index_datasets queue_size k st0 = Some st ->
  (Z.of_nat (length (pending st)) <= queue_size)%Z.
Proof.
  intros Hpart. revert st0. induction k as [|k IH]; intros st0 Hb Hk; simpl in Hk.
  - by injection Hk as <-.
  - destruct (cycle index_datasets queue_size st0) as [|st1] eqn:Hc; [done|].
    eapply IH; [|exact Hk]. by eapply cycle_bound.
Qed.

(** X12.  With an executor whose [get_ready] partitions its argument,
    every top-up of a run fills the queue: the set it polls holds
    [queue_size] handles, or all that is left when pending handles and
    remaining tasks together are fewer. *)
Theorem top_up_fills_queue queue_size w ts k st p :
  ready_partitions ->
  (1 <= queue_size)%Z ->
  state_at index_datasets queue_size k (start w ts) = Some st ->
  poll queue_size st = Some p ->
  length (p_in_flight p)
  = Nat.min (Z.to_nat queue_size) (length (pending st) + length (tasks st)).
Proof.
  intros Hpart Hq Hk Hp.
  assert (Z.of_nat (length (pending st)) <= queue_size)%Z as Hb.
  { eapply state_at_pending_bound; [done| |exact Hk]. simpl. lia. }
  rewrite (poll_in_flight_length _ _ _ Hp). unfold room. lia.
Qed.

(** *** Ending, or not *)

(** Nothing stays pending after a poll, and gathering completed handles
    and indexing their results does not raise. *)
Definition resolves_at_once : Prop :=
  ∀ hs w, (get_ready hs w).2.2 = [].

Definition gather_succeeds : Prop :=
  ∀ hs w, ∃ w' n, gather index_datasets hs w = (w', Ok n).

Lemma cycle_resolved queue_size st st' :
  resolves_at_once -> gather_succeeds ->
  cycle index_datasets queue_size st = Continue st' ->
  pending st' = []
  ∧ tasks st' = drop (room queue_size (pending st)) (tasks st).
Proof.
  intros Hres Hgather. unfold cycle.
  destruct (poll queue_size st) as [p|] eqn:Hp; [|done].
  apply poll_unfold in Hp as (w1 & lg1 & futures & w2 & _ & _ & _ & Hr & _ & Hdrop).
  specialize (Hres (p_in_flight p) w1). rewrite Hr in Hres. simpl in Hres.
  destruct (p_completed p) as [|h hs'].
  - intros [= <-]. simpl. by rewrite Hres, Hdrop.
  - destruct (Hgather (h :: hs') (p_world p)) as (w' & n & ->).
    intros [= <-]. simpl. by rewrite Hres, Hdrop.
Qed.

Lemma run_resolved fuel queue_size st :
  resolves_at_once -> gather_succeeds ->
  (1 <= queue_size)%Z -> pending st = [] ->
  ceil_div (length (tasks st)) (Z.to_nat queue_size) < fuel ->
  ∃ n_ok n_bad, run index_datasets fuel queue_size st = Some (n_ok, n_bad).
Proof.
  intros Hres Hgather Hq. revert st.
  induction fuel as [|fuel IH]; intros st Hpend Hfuel; [lia|]. simpl.
  destruct (cycle index_datasets queue_size st) as [a b|st1] eqn:Hc; [by exists a, b|].
  pose proof (cycle_resolved _ _ _ Hres Hgather Hc) as [Hpend1 Htasks1].
  apply IH; [done|]. rewrite Htasks1, length_drop, Hpend.
  assert (room queue_size (@nil Handle) = Z.to_nat queue_size) as ->
    by (unfold room; simpl; lia).
  destruct (tasks st) as [|t ts0] eqn:Hts.
  - apply cycle_pending in Hc as (p & Hp & _).
    pose proof (poll_in_flight_length _ _ _ Hp) as Hlen.
    apply poll_unfold in Hp as (_ & _ & _ & _ & _ & _ & Hne & _).
    rewrite Hpend, Hts in Hlen. simpl in Hlen. rewrite Nat.min_0_r in Hlen.
    by destruct (p_in_flight p).
  - rewrite (DiffProps.ceil_div_step (length (t :: ts0))) in Hfuel by (simpl; lia). lia.
Qed.

(** X13.  With an executor that leaves nothing pending after a poll and
    results that are gathered and indexed without an exception, the loop
    ends: for [n] tasks and a queue size [q] of at least one,
    [process_tasks] returns within [ceil(n / q) + 1] cycles. *)
Theorem process_tasks_ends fuel w ts queue_size :
  resolves_at_once -> gather_succeeds ->
  (1 <= queue_size)%Z ->
  ceil_div (length ts) (Z.to_nat queue_size) < fuel ->
  ∃ n_ok n_bad, process_tasks index_datasets fuel w ts queue_size = Some (n_ok, n_bad).
Proof.
  intros Hres Hgather Hq Hfuel. unfold process_tasks. by apply run_resolved.
Qed.

(** Every poll of a non-empty set reports something completed, and
    fetching results raises. *)
Definition always_completes : Prop :=
  ∀ hs w, hs ≠ [] -> (get_ready hs w).2.1.1 ≠ [].

Definition results_raise : Prop :=
  ∀ hs w, ∃ w' e, results hs w = (w', Raise e).

Lemma cycle_requeues queue_size st :
  always_completes -> results_raise ->
  pending st ≠ [] ∨ ((1 <= queue_size)%Z ∧ tasks st ≠ []) ->
  ∃ st', cycle index_datasets queue_size st = Continue st' ∧ pending st' ≠ [].
Proof.
  intros Hcompl Hraise Hsome.
  assert (∃ p, poll queue_size st = Some p) as [p Hp].
  { destruct (decide (pending st = [])) as [Hpend|Hpend];
      [|destruct (poll_again queue_size st Hpend) as (p & _ & Hp & _); by exists p].
    destruct Hsome as [?|[Hq Hts]]; [done|]. unfold poll.
    pose proof (submit_tasks_length (take (room queue_size (pending st)) (tasks st))
                  (world st) (log st)) as Hlen.
    destruct (submit_tasks _ _ _) as [[w1 lg1] futures]. simpl in Hlen.
    rewrite Hpend in *. simpl in *. destruct futures as [|h hs].
    - rewrite length_take in Hlen. unfold room in Hlen. simpl in Hlen.
      destruct (tasks st); [done|]. simpl in Hlen. lia.
    - destruct (get_ready (h :: hs) w1) as [w2 [[c f] p']].
      destruct (fetch_failed f w2 _ (n_failed st)) as [[w3 lg3] nf]. by eexists. }
  unfold cycle. rewrite Hp.
  apply poll_unfold in Hp as (w1 & lg1 & futures & w2 & _ & _ & Hne & Hr & _).
  specialize (Hcompl (p_in_flight p) w1 Hne). rewrite Hr in Hcompl. simpl in Hcompl.
  destruct (p_completed p) as [|h hs'] eqn:Hcomp; [done|].
  unfold gather. rewrite S3Props.bind_unfold.
  destruct (Hraise (h :: hs') (p_world p)) as (w' & e & ->).
  eexists. split; [done|]. simpl. intros [_ ?]%app_eq_nil. done.
Qed.

(** X14.  The loop has no bound on gathering again: with an executor
    that reports something completed at every poll and whose [results]
    always raise, [process_tasks] never returns, whatever the number of
    cycles it is given, once there is a task to submit. *)
Theorem process_tasks_gathers_forever fuel w ts queue_size :
  always_completes -> results_raise ->
  (1 <= queue_size)%Z -> ts ≠ [] ->
  process_tasks index_datasets fuel w ts queue_size = None.
Proof.
  intros Hcompl Hraise Hq Hts. unfold process_tasks.
  assert (pending (start w ts : Loop World Task Handle) ≠ []
          ∨ ((1 <= queue_size)%Z ∧ tasks (start w ts : Loop World Task Handle) ≠ [])) as Hsome
    by (right; done).
  revert Hsome. generalize (start w ts : Loop World Task Handle).
  induction fuel as [|fuel IH]; intros st Hsome; [done|]. simpl.
  destruct (cycle_requeues queue_size st Hcompl Hraise Hsome) as (st' & -> & Hpend).
  apply IH. by left.
Qed.

End Runs.
End RunProps.


(** ** Two plain executors

    Tasks are numbers, a handle is the position of its task among those
    submitted, and every handle is reported completed at the first poll.
    The results of the first executor are the handles; the second one
    has lost its workers, and fetching results raises. *)

Module Workers.
Import Sched SchedProps RunProps.

Definition workers (up : bool) : Executor (list nat) nat nat nat := {|
  submit task w := (w ++ [task], length w);
  get_ready futures w := (w, (futures, [], []));
  result future := raise (KeyError "no such future");
  results futures :=
    if up then mret futures else raise (OtherError "connection lost")
|}.

(** Each result is indexed as one dataset. *)
Definition index_one (datasets : nat) : M (list nat) nat := mret 1.

Lemma workers_resolve up : resolves_at_once (Exec := workers up).
Proof. by intros hs w. Qed.

Lemma index_each_one_each (rs : list nat) n (w : list nat) :
  index_each index_one rs n w = (w, Ok (n + length rs)).
Proof.
  revert n. induction rs as [|r rs IH]; intros n; simpl.
  - by rewrite Nat.add_0_r.
  - rewrite S3Props.bind_unfold. simpl. rewrite IH. do 2 f_equal. lia.
Qed.

Lemma workers_gather : gather_succeeds (Exec := workers true) index_one.
Proof.
  intros hs w. exists w, (length hs). unfold gather. rewrite S3Props.bind_unfold. simpl.
  unfold _index_datasets. by rewrite index_each_one_each.
Qed.

Lemma workers_complete up : always_completes (Exec := workers up).
Proof. by intros hs w Hne. Qed.

Lemma workers_lost : results_raise (Exec := workers false).
Proof. intros hs w. by exists w, (OtherError "connection lost"). Qed.

End Workers.

(** ** Runs of the small installation *)

Module Runs.
Import Diff Sched SchedProps RunProps Demo Workers.

Lemma submitted_in_order_once_run :
  ∃ st, state_at index_datasets 2 2 (start world0 [one_day; out_west; no_data]) = Some st
        ∧ submitted (log st) ++ tasks st = [one_day; out_west; no_data]
        ∧ n_failed st = task_failures (log st).
Proof.
  eexists. split; [vm_compute; reflexivity|].
  apply (submitted_in_order_once index_datasets 2 world0 [one_day; out_west; no_data] 2).
  vm_compute; reflexivity.
Defined.

Lemma process_tasks_returns_drained_run :
  process_tasks index_datasets 10 world0 [one_day; next_day; no_data] 2 = Some (2, 1)
  ∧ ∃ k st,
      state_at index_datasets 2 k (start world0 [one_day; next_day; no_data]) = Some st
      ∧ submitted (log st) = [one_day; next_day; no_data] ∧ tasks st = [] ∧ pending st = []
      ∧ 2 = n_successful st ∧ 1 = task_failures (log st).
Proof.
  split; [vm_compute; reflexivity|].
  apply (process_tasks_returns_drained index_datasets 10 world0 [one_day; next_day; no_data]
           2 2 1); [lia | vm_compute; reflexivity].
Defined.

Lemma process_tasks_nothing_to_do_run :
  process_tasks index_datasets 1 world0 [one_day; next_day] 0 = Some (0, 0)
  ∧ cycle index_datasets 0 (start world0 [one_day; next_day]) = Return 0 0.
Proof.
  apply (process_tasks_nothing_to_do index_datasets 0 world0 [one_day; next_day] 0).
  left. lia.
Defined.

Lemma top_up_fills_queue_run :
  ∃ st p,
    state_at index_datasets 2 1 (start world0 [one_day; next_day; no_data]) = Some st
    ∧ poll 2 st = Some p
    ∧ length (p_in_flight p) = Nat.min (Z.to_nat 2) (length (pending st) + length (tasks st)).
Proof.
  eexists _, _. split; [vm_compute; reflexivity|]. split; [vm_compute; reflexivity|].
  eapply (top_up_fills_queue index_datasets 2 world0 [one_day; next_day; no_data] 1);
    [exact DemoProps.demo_partitions | lia | vm_compute; reflexivity | vm_compute; reflexivity].
Defined.

Lemma process_tasks_ends_run :
  ∃ n_ok n_bad,
    process_tasks (H := workers true) index_one 3 [] [1; 2; 3] 2 = Some (n_ok, n_bad).
Proof.
  apply (process_tasks_ends (Exec := workers true) index_one 3 [] [1; 2; 3] 2
           (workers_resolve true) workers_gather); [lia | vm_compute; lia].
Defined.

Lemma process_tasks_gathers_forever_run :
  process_tasks (H := workers false) index_one 50 [] [1; 2; 3] 2 = None.
Proof.
  apply (process_tasks_gathers_forever (Exec := workers false) index_one 50 [] [1; 2; 3] 2
           (workers_complete false) workers_lost); [lia | done].
Defined.

End Runs.


(** ** Command-line helpers *)

Module CliProps.
Import Cli.

(** *** Splitting *)

Fixpoint count (sep : Ascii.ascii) (s : string) : nat :=
  match s with
  | EmptyString => 0
  | String c rest => (if Ascii.eqb c sep then 1 else 0) + count sep rest
  end.

(** [sep.join(pieces)] *)
Fixpoint join (sep : Ascii.ascii) (pieces : list string) : string :=
  match pieces with
  | [] => EmptyString
  | [piece] => piece
  | piece :: rest => piece +:+ String sep (join sep rest)
  end.

Lemma py_split_cons sep maxsplit s : ∃ piece pieces, py_split sep maxsplit s = piece :: pieces.
Proof.
  revert maxsplit. induction s as [|c s IH]; intros maxsplit; simpl; [by eexists _, _|].
  destruct (Ascii.eqb c sep).
  - destruct maxsplit as [[|n]|]; by eexists _, _.
  - destruct (IH maxsplit) as (piece & pieces & ->). by eexists _, _.
Qed.

(** A string is cut at each separator, as long as cuts are left. *)
Lemma py_split_length sep maxsplit s :
  length (py_split sep maxsplit s)
  = S (match maxsplit with Some n => Nat.min n (count sep s) | None => count sep s end).
Proof.
  revert maxsplit. induction s as [|c s IH]; intros maxsplit; simpl.
  - destruct maxsplit as [n|]; [|done]. by rewrite Nat.min_0_r.
  - destruct (Ascii.eqb c sep).
    + destruct maxsplit as [[|n]|]; simpl; [done|..]; by rewrite IH.
    + destruct (py_split_cons sep maxsplit s) as (piece & pieces & Hs).
      specialize (IH maxsplit). rewrite Hs in IH |- *. simpl in *. exact IH.
Qed.

Lemma join_cons sep piece piece' pieces :
  join sep (piece :: piece' :: pieces) = piece +:+ String sep (join sep (piece' :: pieces)).
Proof. done. Qed.

(** Joining the pieces gives the string back. *)
Lemma py_split_join sep maxsplit s : join sep (py_split sep maxsplit s) = s.
Proof.
  revert maxsplit. induction s as [|c s IH]; intros maxsplit; [done|].
  cbn [py_split]. destruct (Ascii.eqb c sep) eqn:Hc.
  - apply Ascii.eqb_eq in Hc as ->.
    destruct maxsplit as [[|n]|]; [done|..].
    + destruct (py_split_cons sep (Some n) s) as (piece & pieces & Hs).
      specialize (IH (Some n)). rewrite Hs in IH |- *. by rewrite join_cons, IH.
    + destruct (py_split_cons sep None s) as (piece & pieces & Hs).
      specialize (IH None). rewrite Hs in IH |- *. by rewrite join_cons, IH.
  - destruct (py_split_cons sep maxsplit s) as (piece & pieces & Hs).
    specialize (IH maxsplit). rewrite Hs in IH |- *.
    destruct pieces as [|piece' pieces]; [simpl in *; by rewrite IH|].
    rewrite join_cons in IH |- *. by rewrite <-IH.
Qed.

Lemma py_split_none sep maxsplit s : count sep s = 0 -> py_split sep maxsplit s = [s].
Proof.
  induction s as [|c s IH]; simpl; [done|].
  destruct (Ascii.eqb c sep); [done|]. intros Hs. by rewrite IH.
Qed.

Lemma py_split_two sep (a b : string) :
  count sep a = 0 -> count sep b = 0 -> py_split sep None (a +:+ String sep b) = [a; b].
Proof.
  intros Ha Hb. induction a as [|c a IH]; simpl in *.
  - rewrite Ascii.eqb_refl. by rewrite py_split_none.
  - destruct (Ascii.eqb c sep); [done|]. by rewrite IH.
Qed.

Lemma py_split_pieces sep maxsplit s piece pieces :
  py_split sep maxsplit s = piece :: pieces -> count sep piece = 0 ∨ maxsplit = Some 0.
Proof.
  revert maxsplit piece pieces. induction s as [|c s IH]; intros maxsplit piece pieces; simpl.
  - intros [= <- _]. by left.
  - destruct (Ascii.eqb c sep) eqn:Hc.
    + destruct maxsplit as [[|n]|]; [by right|..]; intros [= <- _]; by left.
    + destruct (py_split sep maxsplit s) as [|piece0 pieces0] eqn:Hs.
      * intros [= <- _]. left. simpl. by rewrite Hc.
      * intros [= <- _]. destruct (IH _ _ _ Hs) as [Hp|Hm]; [|by right].
        left. simpl. by rewrite Hc, Hp.
Qed.

Lemma count_app sep (a b : string) : count sep (a +:+ b) = count sep a + count sep b.
Proof. induction a as [|c a IH]; simpl; [done|]. rewrite IH. lia. Qed.

(** *** [compose] *)

(** X15.  [compose] applies the functions from the last to the first:
    the first one given is the outermost.  Composing two lists of
    functions one after the other is composing their compositions. *)
Theorem compose_last_first {A} (functions more : list (A -> A)) (x : A) :
  compose functions x = foldr (λ f y, f y) x functions
  ∧ compose (functions ++ more) x = compose functions (compose more x).
Proof.
  assert (∀ (fs : list (A -> A)) (g : A -> A) y,
            foldl compose2 g fs y = g (foldr (λ f z, f z) y fs)) as Hfold.
  { induction fs as [|f fs IH]; intros g y; simpl; [done|]. by rewrite IH. }
  unfold compose. split; [apply Hfold|].
  rewrite !Hfold. by rewrite foldr_app.
Qed.

(** *** Years and endpoints *)

Section Numbers.
Variable int_ : string -> option Z.

(** X16.  What [_validate_year] accepts is a pair or a triple: a value
    without a hyphen gives the year twice; a value with one hyphen gives
    a pair; a value with two or more hyphens is cut twice and, when its
    three pieces are numbers, gives a triple rather than a range. *)
Theorem _validate_year_length value years :
  _validate_year int_ (Some value) = Pass (Some years) ->
  length years = Nat.max 2 (S (Nat.min 2 (count hyphen value)))
  ∧ (count hyphen value = 0 -> ∃ year, int_ value = Some year ∧ years = [year; year]).
Proof.
  unfold _validate_year.
  destruct (mapM int_ (py_split hyphen (Some 2) value)) as [parsed|] eqn:Hparsed; [|done].
  pose proof (length_mapM _ _ _ Hparsed) as Hlen.
  rewrite py_split_length in Hlen. intros Hyears. split.
  - destruct parsed as [|y [|y' parsed]]; simpl in Hlen; [lia|..];
      injection Hyears as <-; simpl; lia.
  - intros Hnone. rewrite py_split_none in Hparsed by done. simpl in Hparsed.
    destruct (int_ value) as [year|]; [|done]. injection Hparsed as <-.
    injection Hyears as <-. by exists year.
Qed.


Context {Executor : Type}.
Variable get_executor : option (string * Z) -> Workers -> Result Executor.
Variable mk_celery_executor : string -> Z -> Result Executor.

(** X18.  [_setup_executor] never lets a [ValueError] out, whether it
    comes from the number of workers, from the endpoint or from making
    the executor: each becomes the usage error of [ctx.fail], which
    names the executor type and its argument. *)
Theorem _setup_executor_no_value_error value :
  match _setup_executor int_ get_executor mk_celery_executor value with
  | Uncaught e => is_ValueError e = false
  | UsageError message =>
      message = "Failed to create '" +:+ value.1 +:+ "' executor with '"
                +:+ str_of value.2 +:+ "'"
  | BadParameter _ => False
  | Pass _ => True
  end.
Proof.
  unfold _setup_executor.
  destruct (EXECUTOR_TYPES int_ get_executor mk_celery_executor !! value.1) as [make|]; [|done].
  by destruct (make value.2) as [executor|[]].
Qed.

Lemma EXECUTOR_TYPES_endpoint kind :
  kind ∈ ["distributed"; "dask"; "celery"] ->
  ∃ make, EXECUTOR_TYPES int_ get_executor mk_celery_executor !! kind = Some make
          ∧ ∀ addr e, parse_endpoint int_ addr = Raise e -> make (Some addr) = Raise e.
Proof.
  intros Hkind. unfold EXECUTOR_TYPES.
  assert (kind = "distributed" ∨ kind = "dask" ∨ kind = "celery") as Hk.
  { rewrite !elem_of_cons in Hkind. destruct Hkind as [?|[?|[?|Hnil]]]; auto.
    by apply elem_of_nil in Hnil. }
  destruct Hk as [-> | [-> | ->]].
  - exists (distributed int_ get_executor).
    split; [by rewrite !lookup_insert_ne, lookup_insert_eq by done|].
    intros addr e He. simpl. by rewrite He.
  - exists (distributed int_ get_executor). split; [by rewrite lookup_insert_eq|].
    intros addr e He. simpl. by rewrite He.
  - exists (celery int_ mk_celery_executor).
    split; [by rewrite lookup_insert_ne, lookup_insert_eq by done|].
    intros addr e He. simpl. by rewrite He.
Qed.

(** X19.  For the executor types [distributed], [dask] and [celery], an
    address that does not hold exactly one colon ends in the usage
    error, and no executor is made. *)
Theorem _setup_executor_bad_endpoint kind addr :
  kind ∈ ["distributed"; "dask"; "celery"] ->
  count colon addr ≠ 1 ->
  _setup_executor int_ get_executor mk_celery_executor (kind, Some addr)
  = UsageError ("Failed to create '" +:+ kind +:+ "' executor with '" +:+ addr +:+ "'").
Proof.
  intros Hkind Hcolons.
  destruct (EXECUTOR_TYPES_endpoint kind Hkind) as (make & Hmake & Hraise).
  unfold _setup_executor. simpl. rewrite Hmake.
  assert (∃ msg, parse_endpoint int_ addr = Raise (ValueError msg)) as [msg Hparse].
  { unfold parse_endpoint. pose proof (py_split_length colon None addr) as Hlen.
    destruct (py_split colon None addr) as [|a [|b [|c pieces]]]; simpl in Hlen;
      [by eexists|by eexists|lia|by eexists]. }
  by rewrite (Hraise _ _ Hparse).
Qed.

End Numbers.

(** *** [PathlibPath] *)

(** X20.  [PathlibPath.__init__] never names the parameter a file: the
    second test is an [if], not an [elif], so that what the first one
    set is overwritten.  The type is ['Directory'] for a parameter that
    takes directories only and ['Path'] for every other one, the one
    that takes files only included. *)
Theorem PathlibPath_never_file exists_ file_okay dir_okay writable readable resolve_path :
  let self := __init__ exists_ file_okay dir_okay writable readable resolve_path in
  path_type self = Some (if dir_okay && negb file_okay then "Directory" else "Path")
  ∧ name self = Some (if dir_okay && negb file_okay then "directory" else "path")
  ∧ path_type self ≠ Some "File".
Proof.
  by destruct file_okay, dir_okay.
Qed.

Section Convert.
Context {Path : Type}.
Variable path_of : string -> Path.
Variable resolve : Path -> Path.
Variable path_exists is_file is_dir : Path -> bool.
Variable access_w access_r : string -> bool.
Variable filename_to_ui : string -> string.

(** X21.  [convert] returns the path, resolved if asked for, exactly
    when the parameter does not ask for an existing path, in which case
    nothing is looked at, or all the checks asked for hold: the path
    exists, is no file unless files are allowed, no directory unless
    directories are, and the value as given is writable and readable
    when asked for. *)
Theorem convert_accepts self value rv :
  convert path_of resolve path_exists is_file is_dir access_w access_r filename_to_ui
          self value = Pass rv
  ↔ rv = (if resolve_path self then resolve (path_of value) else path_of value)
    ∧ (exists_ self = true ->
       path_exists rv = true
       ∧ (file_okay self = false -> is_file rv = false)
       ∧ (dir_okay self = false -> is_dir rv = false)
       ∧ (writable self = true -> access_w value = true)
       ∧ (readable self = true -> access_r value = true)).
Proof.
  unfold convert, fail.
  generalize (if resolve_path self then resolve (path_of value) else path_of value) as p.
  intros p.
  destruct (exists_ self); simpl;
    [|split; [intros [= <-]; by split|by intros [-> _]]].
  split.
  - intros Hpass.
    destruct (path_exists p) eqn:He; simpl in Hpass; [|by destruct (path_type self)].
    destruct (file_okay self), (is_file p) eqn:Hf; simpl in Hpass;
      try (by destruct (path_type self));
      (destruct (dir_okay self), (is_dir p) eqn:Hd; simpl in Hpass;
       try (by destruct (path_type self)));
      (destruct (writable self), (access_w value); simpl in Hpass;
       try (by destruct (path_type self)));
      (destruct (readable self), (access_r value); simpl in Hpass;
       try (by destruct (path_type self)));
      injection Hpass as <-; rewrite ?He, ?Hf, ?Hd; by repeat split.
  - intros [-> Hchecks]. destruct (Hchecks eq_refl) as (-> & Hf & Hd & Hw & Hr). simpl.
    destruct (file_okay self); [|rewrite (Hf eq_refl)]; simpl;
      (destruct (dir_okay self); [|rewrite (Hd eq_refl)]; simpl);
      (destruct (writable self); [rewrite (Hw eq_refl)|]; simpl);
      (destruct (readable self); [rewrite (Hr eq_refl)|]; simpl); done.
Qed.

End Convert.

End CliProps.


(** ** Command lines of the small installation *)

Module CliRuns.
Import Cli CliProps.

(** Decimal numbers. *)
Definition digit (c : Ascii.ascii) : option Z :=
  let n := Ascii.nat_of_ascii c in
  if decide (48 <= n <= 57) then Some (Z.of_nat (n - 48)) else None.

Fixpoint digits (s : string) (acc : Z) : option Z :=
  match s with
  | EmptyString => Some acc
  | String c rest => d ← digit c; digits rest (10 * acc + d)
  end.

Definition parse_int (s : string) : option Z :=
  match s with
  | EmptyString => None
  | _ => digits s 0
  end.

(** Executors are named by how they were made. *)
Definition get_executor (scheduler : option (string * Z)) (workers : Workers)
  : Result (option (string * Z) * Workers) :=
  Ok (scheduler, workers).

Definition mk_celery_executor (host : string) (port : Z)
  : Result (option (string * Z) * Workers) :=
  Ok (Some (host, port), NoWorkers).

Lemma _validate_year_length_run :
  _validate_year parse_int (Some "1996-2001-2005") = Pass (Some [1996; 2001; 2005]%Z)
  ∧ length [1996; 2001; 2005]%Z = Nat.max 2 (S (Nat.min 2 (count hyphen "1996-2001-2005")))
  ∧ (count hyphen "1996-2001-2005" = 0 ->
     ∃ year, parse_int "1996-2001-2005" = Some year
             ∧ [1996; 2001; 2005]%Z = [year; year]).
Proof.
  split; [vm_compute; reflexivity|].
  apply (_validate_year_length parse_int "1996-2001-2005" [1996; 2001; 2005]%Z).
  vm_compute; reflexivity.
Defined.

Lemma _setup_executor_bad_endpoint_run :
  _setup_executor parse_int get_executor mk_celery_executor ("distributed", Some "::1:8786")
  = UsageError ("Failed to create '" +:+ "distributed" +:+ "' executor with '"
                +:+ "::1:8786" +:+ "'").
Proof.
  apply (_setup_executor_bad_endpoint parse_int get_executor mk_celery_executor
           "distributed" "::1:8786").
  - apply (bool_decide_unpack _). vm_compute. exact I.
  - vm_compute. lia.
Defined.

End CliRuns.


(** ** From the unit of work to the index *)

Module WorkProps.
Import Diff S3 Sched S3Props.

Section Indexing.
Context {World Datasets : Type}.
Variable index_datasets : Datasets -> M World nat.

Lemma index_each_app (rs1 rs2 : list Datasets) n w :
  index_each index_datasets (rs1 ++ rs2) n w
  = match index_each index_datasets rs1 n w with
    | (w1, Ok n1) => index_each index_datasets rs2 n1 w1
    | (w1, Raise e) => (w1, Raise e)
    end.
Proof.
  revert n w. induction rs1 as [|r rs1 IH]; intros n w; [done|].
  simpl. rewrite !bind_unfold. destruct (index_datasets r w) as [w1 [k|e]]; [|done].
  apply IH.
Qed.

(** X22.  [_index_datasets] is not all or nothing: when indexing one of
    the results raises, the exception is passed on from the world in
    which the results before it are indexed, and their count is lost
    with it; the results after it are not looked at. *)
Theorem _index_datasets_keeps_partial (indexed rest : list Datasets) datasets w w1 w2 n e :
  _index_datasets index_datasets indexed w = (w1, Ok n) ->
  index_datasets datasets w1 = (w2, Raise e) ->
  _index_datasets index_datasets (indexed ++ datasets :: rest) w = (w2, Raise e).
Proof.
  unfold _index_datasets. intros Hdone Hraise.
  rewrite index_each_app, Hdone. simpl. rewrite bind_unfold. by rewrite Hraise.
Qed.

End Indexing.

Section Work.
Context {Sources Geobox NpScalar Scalar Data Catalog Added : Type}.
Variable load_data : list (Time * Sources) -> Geobox -> Result Data.
Variable make_dataset : Geobox -> Time -> Sources -> Dataset.
Variable write_dataset_to_storage :
  Data -> list Dataset -> Extent -> Result (gmap string (Output NpScalar)).
Variable asscalar : NpScalar -> Scalar.
Variable refuses : Database Scalar Catalog -> Insert Scalar -> option exn.
Variable base_add : Catalog -> Dataset -> Catalog * Result Added.
Variable uri_scheme : string.

(** X23.  What [ingest_work] returns is fit for [Index.add_datasets]: it
    carries a [storage_output] attribute, so the check for it cannot
    fail, and it holds one dataset per time stamp of the tile, so that
    indexing it, when it succeeds, counts as many datasets as the tile
    has time stamps. *)
Theorem ingest_work_indexable tile tile_index datasets :
  Ingest.ingest_work load_data make_dataset write_dataset_to_storage tile tile_index
  = Ok datasets ->
  is_Some (attrs datasets !! "storage_output")
  ∧ length (values datasets) = length (sources tile)
  ∧ ∀ s s' n,
      add_datasets asscalar refuses base_add uri_scheme datasets s = (s', Ok n) ->
      n = length (sources tile).
Proof.
  unfold Ingest.ingest_work. destruct (load_data _ _) as [data|e]; [|done]. simpl.
  destruct (write_dataset_to_storage _ _ _) as [storage_output|e]; [|done]. simpl.
  intros [= <-]. simpl. split_and!.
  - rewrite lookup_singleton_eq. by eexists.
  - by rewrite length_fmap.
  - intros s s' n Hadd. apply add_datasets_count in Hadd. simpl in Hadd.
    by rewrite length_fmap in Hadd.
Qed.

End Work.
End WorkProps.

Module WorkRuns.
Import Diff S3 Sched WorkProps Demo.

Lemma _index_datasets_keeps_partial_run :
  ∃ w1 w2 e,
    _index_datasets index_datasets [batch_of [7]] world0 = (w1, Ok 1)
    ∧ index_datasets S3Runs.west_batch w1 = (w2, Raise e)
    ∧ _index_datasets index_datasets ([batch_of [7]] ++ S3Runs.west_batch :: [batch_of [9]])
                      world0
      = (w2, Raise e).
Proof.
  eexists _, _, _. split; [vm_compute; reflexivity|]. split; [vm_compute; reflexivity|].
  eapply (_index_datasets_keeps_partial index_datasets [batch_of [7]] [batch_of [9]]
            S3Runs.west_batch world0);
    vm_compute; reflexivity.
Defined.

Lemma ingest_work_indexable_run :
  ∃ datasets,
    ingest_work two_days = Ok datasets
    ∧ is_Some (attrs datasets !! "storage_output")
    ∧ length (values datasets) = length (sources (tile two_days))
    ∧ ∀ s s' n,
        add_datasets datasets s = (s', Ok n) -> n = length (sources (tile two_days)).
Proof.
  eexists. split; [vm_compute; reflexivity|].
  apply (ingest_work_indexable load_data make_dataset write_dataset_to_storage
           (λ x : Z, x) refuses base_add "s3" (tile two_days) (tile_index two_days)).
  vm_compute; reflexivity.
Defined.

End WorkRuns.


(** ** The measurements of a configuration *)

Module ConfigProps.
Import Config.

Section Merging.
Context {Float : Type}.
Variable float_bool : Float -> bool.

Implicit Types (measurement spec merged : gmap string (Value Float)).

(** What [spec.get(k) or measurement[k]] gives, when it gives
    something. *)
Definition overridden measurement spec (k : string) : option (Value Float) :=
  if truthy float_bool (get spec k) then spec !! k else measurement !! k.

Lemma or_index measurement spec k :
  (if truthy float_bool (get spec k) then Ok (get spec k) else index measurement k)
  = match overridden measurement spec k with
    | Some v => Ok v
    | None => Raise (KeyError k)
    end.
Proof.
  unfold overridden, get, index. destruct (spec !! k) as [v|]; simpl.
  - by destruct (truthy float_bool v).
  - done.
Qed.

Lemma bind_Ok {A B} (m : Result A) (f : A -> Result B) b :
  m ≫= f = Ok b -> ∃ a, m = Ok a ∧ f a = Ok b.
Proof. destruct m as [a|e]; [|done]. intros Hf. by exists a. Qed.

Ltac among :=
  rewrite !elem_of_cons; auto.

Ltac not_among :=
  let Hin := fresh "Hin" in
  intros Hin; rewrite !elem_of_cons in Hin;
  repeat (destruct Hin as [Hin|Hin]; [done|]); by apply elem_of_nil in Hin.

Lemma merge_measurement_lookup measurement spec merged k :
  merge_measurement float_bool measurement spec = Ok merged ->
  merged !! k
  = if decide (k ∈ ["nodata"; "dtype"; "resampling_method"])
    then overridden measurement spec k
    else measurement !! k.
Proof.
  unfold merge_measurement. cbn [mapM]. rewrite !or_index.
  destruct (overridden measurement spec "nodata") as [v1|] eqn:H1; [|done].
  destruct (overridden measurement spec "dtype") as [v2|] eqn:H2; [|done].
  destruct (overridden measurement spec "resampling_method") as [v3|] eqn:H3; [|done].
  cbn. intros [= <-].
  destruct (decide (k = "resampling_method")) as [->|Hk3];
    [by rewrite lookup_insert_eq, decide_True by among|].
  rewrite lookup_insert_ne by done.
  destruct (decide (k = "dtype")) as [->|Hk2];
    [by rewrite lookup_insert_eq, decide_True by among|].
  rewrite lookup_insert_ne by done.
  destruct (decide (k = "nodata")) as [->|Hk1];
    [by rewrite lookup_insert_eq, decide_True by among|].
  rewrite lookup_insert_ne by done. rewrite decide_False; [done|]. not_among.
Qed.

Lemma merge_measurement_type_lookup measurement spec merged k :
  merge_measurement_type measurement spec = Ok merged ->
  merged !! k
  = if decide (k ∈ ["name"; "nodata"; "dtype"])
    then (match spec !! k with Some v => Some v | None => measurement !! k end)
    else measurement !! k.
Proof.
  unfold merge_measurement_type, index. cbn [mapM].
  destruct (measurement !! "name") as [m1|] eqn:H1; [|done].
  destruct (measurement !! "nodata") as [m2|] eqn:H2; [|done].
  destruct (measurement !! "dtype") as [m3|] eqn:H3; [|done].
  cbn. intros [= <-].
  destruct (decide (k = "dtype")) as [->|Hk3].
  { rewrite lookup_insert_eq, decide_True by among. rewrite H3.
    by destruct (spec !! "dtype"). }
  rewrite lookup_insert_ne by done.
  destruct (decide (k = "nodata")) as [->|Hk2].
  { rewrite lookup_insert_eq, decide_True by among. rewrite H2.
    by destruct (spec !! "nodata"). }
  rewrite lookup_insert_ne by done.
  destruct (decide (k = "name")) as [->|Hk1].
  { rewrite lookup_insert_eq, decide_True by among. rewrite H1.
    by destruct (spec !! "name"). }
  rewrite lookup_insert_ne by done. rewrite decide_False; [done|]. not_among.
Qed.

(** X24.  [get_measurements] answers with one measurement per entry of
    the configuration, in order: the source measurement the entry names
    by [src_varname], in which [nodata], [dtype] and [resampling_method]
    are those of the entry where the entry gives a value that counts as
    true, and those of the source measurement otherwise; every other key
    is as in the source measurement. *)
Theorem get_measurements_overrides (measurements : gmap string (gmap string (Value Float)))
    (config_measurements merged_all : list (gmap string (Value Float))) :
  get_measurements float_bool measurements config_measurements = Ok merged_all ->
  Forall2 (λ spec merged,
             ∃ src_varname measurement,
               spec !! "src_varname" = Some (VStr src_varname)
               ∧ measurements !! src_varname = Some measurement
               ∧ ∀ k, merged !! k
                      = if decide (k ∈ ["nodata"; "dtype"; "resampling_method"])
                        then overridden measurement spec k
                        else measurement !! k)
          config_measurements merged_all.
Proof.
  unfold get_measurements. revert merged_all.
  induction config_measurements as [|spec specs IH]; intros merged_all.
  - intros [= <-]. constructor.
  - cbn [mapM]. intros (merged & Hone & (rest & Hrest & [= <-])%bind_Ok)%bind_Ok.
    constructor; [|by apply IH].
    apply bind_Ok in Hone as (key & Hkey & (measurement & Hm & Hmerge)%bind_Ok).
    unfold index in Hkey. destruct (spec !! "src_varname") as [key'|] eqn:Hsrc; [|done].
    injection Hkey as ->. destruct key as [|b|n|x|src]; try done.
    simpl in Hm. unfold index in Hm.
    destruct (measurements !! src) as [measurement'|] eqn:Hsource; [|done].
    injection Hm as ->. exists src, measurement. split_and!; [done..|].
    intros k. by apply merge_measurement_lookup.
Qed.

(** X25.  The two ways of merging disagree on an override that counts
    as false, a [nodata] of [0] for one: [get_measurements] keeps the
    value of the source measurement, the output product of
    [morph_dataset_type] takes the override. *)
Theorem falsy_override_diverges measurement spec merged merged_type k v m :
  k ∈ ["nodata"; "dtype"] ->
  spec !! k = Some v -> truthy float_bool v = false ->
  measurement !! k = Some m ->
  merge_measurement float_bool measurement spec = Ok merged ->
  merge_measurement_type measurement spec = Ok merged_type ->
  merged !! k = Some m ∧ merged_type !! k = Some v.
Proof.
  intros Hk Hspec Hfalsy Hm Hmerge Htype.
  assert (k = "nodata" ∨ k = "dtype") as Hk'.
  { rewrite !elem_of_cons in Hk. destruct Hk as [?|[?|Hnil]]; auto.
    by apply elem_of_nil in Hnil. }
  split.
  - rewrite (merge_measurement_lookup _ _ _ k Hmerge).
    rewrite decide_True by (destruct Hk' as [-> | ->]; among).
    unfold overridden, get. rewrite Hspec. simpl. by rewrite Hfalsy.
  - rewrite (merge_measurement_type_lookup _ _ _ k Htype).
    rewrite decide_True by (destruct Hk' as [-> | ->]; among). by rewrite Hspec.
Qed.


End Merging.
End ConfigProps.


(** ** A configuration of the small installation *)

Module ConfigRuns.
Import Config ConfigProps.

(** Floats are not needed here. *)
Definition no_float (x : Empty_set) : bool := match x with end.

(** A source measurement, and an entry of the configuration that
    renames it and sets [nodata] to zero. *)
Definition red : gmap string (Value Empty_set) :=
  {[ "name" := VStr "red"; "nodata" := VInt (-999); "dtype" := VStr "int16" ]}.

Definition red_spec : gmap string (Value Empty_set) :=
  {[ "src_varname" := VStr "red"; "name" := VStr "red_band"; "nodata" := VInt 0;
     "resampling_method" := VStr "nearest" ]}.

Lemma get_measurements_overrides_run :
  ∃ merged_all,
    get_measurements no_float {[ "red" := red ]} [red_spec] = Ok merged_all
    ∧ Forall2 (λ spec merged,
                 ∃ src_varname measurement,
                   spec !! "src_varname" = Some (VStr src_varname)
                   ∧ ({[ "red" := red ]} : gmap string (gmap string (Value Empty_set)))
                       !! src_varname = Some measurement
                   ∧ ∀ k, merged !! k
                          = if decide (k ∈ ["nodata"; "dtype"; "resampling_method"])
                            then overridden no_float measurement spec k
                            else measurement !! k)
              [red_spec] merged_all.
Proof.
  eexists. split; [reflexivity|].
  apply (get_measurements_overrides no_float {[ "red" := red ]} [red_spec]).
  reflexivity.
Defined.

Lemma falsy_override_diverges_run :
  ∃ merged merged_type,
    merge_measurement no_float red red_spec = Ok merged
    ∧ merge_measurement_type red red_spec = Ok merged_type
    ∧ merged !! "nodata" = Some (VInt (-999)) ∧ merged_type !! "nodata" = Some (VInt 0).
Proof.
  eexists _, _. split; [reflexivity|]. split; [reflexivity|].
  apply (falsy_override_diverges no_float red red_spec _ _ "nodata" (VInt 0) (VInt (-999))).
  - rewrite !elem_of_cons. auto.
  - reflexivity.
  - reflexivity.
  - reflexivity.
  - reflexivity.
  - reflexivity.
Defined.

End ConfigRuns.

(** ** The task list *)

Module TaskListProps.
Import Diff TaskList S3Props.

Section Tasks.
Context {Index D Geobox Product DateTime Coord : Type}.
Variable dataset_id : D -> S3.UUID.
Variable datasets_get : Index -> S3.UUID -> Result (option D).
Variable datetime : Z -> Z -> Z -> Result DateTime.
Variable list_cells : Product -> Query DateTime Coord -> gmap Extent (Cell (list D) Geobox).
Variable now : Z.

Implicit Types (env : Env D) (config : Config Coord).
Implicit Types (task : Task (list D) Geobox) (made : Task (list (option D)) Geobox).

(** *** The year *)

Lemma time_range_two first last rest :
  time_range datetime (Some (first :: last :: rest)) = time_range datetime (Some [first; last]).
Proof. done. Qed.

(** X27.  Of the years only the first two are read: a tuple of three, as
    [_validate_year] returns for a value with two hyphens, makes the
    same task list as its first two components. *)
Theorem create_task_list_two_years index output_type source_type config first last rest env :
  create_task_list dataset_id datasets_get datetime list_cells now index output_type
                   (Some (first :: last :: rest)) source_type config env
  = create_task_list dataset_id datasets_get datetime list_cells now index output_type
                     (Some [first; last]) source_type config env.
Proof.
  unfold create_task_list, build_query. by rewrite time_range_two.
Qed.

(** *** Valid tasks *)

(** No fusing is needed, or a fuser is configured. *)
Definition valid config task : bool :=
  match fuse_data config with
  | Some _ => true
  | None => match require_fusing (tile task) with [] => true | _ :: _ => false end
  end.

Definition skipped config (tasks : list (Task (list D) Geobox)) : list (LogRecord D) :=
  (λ task, Skipping (tile_index task) (require_fusing (tile task)))
    <$> filter (λ task, ¬ valid config task) tasks.

(** The cache of the later environment holds what the earlier one
    held. *)
Definition cache_grows env env' : Prop :=
  ∀ id v, cache env !! id = Some v -> cache env' !! id = Some v.

(** A yielded task against the task it was made from: the same grid
    index, footprint and time stamps, and in the place of each source
    dataset what the cache holds for its id. *)
Definition updated env task made : Prop :=
  tile_index made = tile_index task
  ∧ geobox (tile made) = geobox (tile task)
  ∧ Forall2 (λ entry entry' : Time * _,
               entry'.1 = entry.1
               ∧ Forall2 (λ dataset lineage, cache env !! dataset_id dataset = Some lineage)
                         entry.2 entry'.2)
            (sources (tile task)) (sources (tile made)).

Lemma updated_grows env env' task made :
  cache_grows env env' -> updated env task made -> updated env' task made.
Proof.
  intros Hgrow (Hi & Hg & Hs). split_and!; [done..|].
  eapply Forall2_impl; [exact Hs|]. intros e e' [Ht Hd]. split; [done|].
  eapply Forall2_impl; [exact Hd|]. intros d l. apply Hgrow.
Qed.

Lemma check_valid_ok config task env :
  check_valid config task env
  = (if valid config task then env
     else {| cache := cache env;
             log := log env ++ [Skipping (tile_index task) (require_fusing (tile task))] |},
     Ok (valid config task)).
Proof.
  unfold check_valid, valid. destruct (fuse_data config); [done|].
  by destruct (require_fusing (tile task)).
Qed.

Lemma lineage_ok index id env env' v :
  with_cache (Lineage.get_full_lineage datasets_get index id) env = (env', Ok v) ->
  log env' = log env ∧ cache_grows env env' ∧ cache env' !! id = Some v.
Proof.
  unfold with_cache.
  destruct (Lineage.get_full_lineage datasets_get index id (cache env)) as [c r] eqn:Hget.
  intros [= <- ->]. simpl. split_and!; [done| |].
  - intros id' v' Hv'.
    pose proof (LineageProps.get_full_lineage_keeps datasets_get index id _ _ _ Hv') as Hkeep.
    by rewrite Hget in Hkeep.
  - by eapply LineageProps.get_full_lineage_stored.
Qed.

Lemma update_sources_ok index datasets env env' lineages :
  update_sources dataset_id datasets_get index datasets env = (env', Ok lineages) ->
  log env' = log env ∧ cache_grows env env'
  ∧ Forall2 (λ dataset lineage, cache env' !! dataset_id dataset = Some lineage)
            datasets lineages.
Proof.
  unfold update_sources. revert env env' lineages.
  induction datasets as [|d ds IH]; intros env env' lineages.
  - intros [= <- <-]. split_and!; [done|by intros ??|constructor].
  - cbn [mapM].
    intros (env1 & v & (Hlog1 & Hgrow1 & Hv)%lineage_ok
            & (env2 & vs & (Hlog2 & Hgrow2 & Hvs)%IH & [= <- <-])%bind_ok)%bind_ok.
    split_and!; [congruence|intros ???; eauto|].
    constructor; [by apply Hgrow2|done].
Qed.

Lemma update_task_ok index task env env' made :
  update_task dataset_id datasets_get index task env = (env', Ok made) ->
  log env' = log env ∧ cache_grows env env' ∧ updated env' task made.
Proof.
  unfold update_task. intros (env1 & entries & Hentries & [= <- <-])%bind_ok.
  unfold updated. simpl.
  enough (log env1 = log env ∧ cache_grows env env1
          ∧ Forall2 (λ entry entry' : Time * _,
                       entry'.1 = entry.1
                       ∧ Forall2 (λ dataset lineage,
                                    cache env1 !! dataset_id dataset = Some lineage)
                                 entry.2 entry'.2)
                    (sources (tile task)) entries) as (? & ? & ?) by done.
  revert env env1 entries Hentries. generalize (sources (tile task)). intros es.
  induction es as [|e es IH]; intros env env1 entries.
  - intros [= <- <-]. split_and!; [done|by intros ??|constructor].
  - cbn [mapM].
    intros (env2 & e' & (env3 & ls & (Hlog3 & Hgrow3 & Hls)%update_sources_ok & [= <- <-])%bind_ok
            & (env4 & es' & (Hlog4 & Hgrow4 & Hes)%IH & [= <- <-])%bind_ok)%bind_ok.
    split_and!; [congruence|intros ???; eauto|].
    constructor; [|done]. split; [done|]. simpl.
    eapply Forall2_impl; [exact Hls|]. intros d l. apply Hgrow4.
Qed.

Lemma yield_tasks_ok config index tasks env env' yielded :
  yield_tasks dataset_id datasets_get config index tasks env = (env', Ok yielded) ->
  log env' = log env ++ skipped config tasks
  ∧ cache_grows env env'
  ∧ Forall2 (updated env') (filter (λ task, valid config task) tasks) yielded.
Proof.
  revert env env' yielded. induction tasks as [|task tasks IH]; intros env env' yielded.
  - intros [= <- <-]. unfold skipped. simpl. rewrite app_nil_r.
    split_and!; [done|by intros ??|constructor].
  - cbn [yield_tasks]. rewrite bind_unfold, check_valid_ok.
    unfold skipped. rewrite !filter_cons.
    destruct (valid config task) eqn:Hvalid.
    + rewrite (decide_True (P := Is_true true)) by exact I.
      rewrite (decide_False (P := ¬ Is_true true)) by (intros Hn; apply Hn; exact I).
      intros (env1 & made & (Hlog1 & Hgrow1 & Hup)%update_task_ok
              & (env2 & rest & (Hlog2 & Hgrow2 & Hrest)%IH & [= <- <-])%bind_ok)%bind_ok.
      split_and!; [by rewrite Hlog2, Hlog1|intros ???; eauto|].
      constructor; [by eapply updated_grows|done].
    + rewrite (decide_False (P := Is_true false)) by exact id.
      rewrite (decide_True (P := ¬ Is_true false)) by exact id.
      intros (Hlog & Hgrow & Hrest)%IH. simpl in Hlog.
      split_and!; [|done..]. rewrite Hlog, fmap_cons. by rewrite <-app_assoc.
Qed.

(** The steps of a call that returns. *)
Lemma create_task_list_ok index output_type year source_type config env env' config' yielded :
  create_task_list dataset_id datasets_get datetime list_cells now index output_type year
                   source_type config env = (env', Ok (config', yielded)) ->
  ∃ query tasks,
    build_query datetime year config = Ok query
    ∧ find_diff list_cells source_type output_type (default 1 (tile_size_time config)) query
      = Some tasks
    ∧ log env' = log env ++ TasksDiscovered (length tasks) :: skipped config tasks
    ∧ cache_grows env env'
    ∧ Forall2 (updated env') (filter (λ task, valid config task) tasks) yielded
    ∧ taskfile_version config' = Some now.
Proof.
  unfold create_task_list.
  change (build_query datetime year
            {| ingestion_bounds := ingestion_bounds config;
               tile_size_time := tile_size_time config;
               fuse_data := fuse_data config; taskfile_version := Some now |})
    with (build_query datetime year config).
  destruct (build_query datetime year config) as [query|e]; [|done]. simpl.
  destruct (find_diff _ _ _ _ _) as [tasks|] eqn:Hdiff; [|done].
  intros (env1 & [] & [= <-] & (env2 & ts & (Hlog & Hgrow & Hall)%yield_tasks_ok
                               & [= <- <- <-])%bind_ok)%bind_ok.
  exists query, tasks. split_and!; [done|exact Hdiff| |by intros ???; apply Hgrow|exact Hall|done].
  simpl in Hlog. rewrite Hlog. by rewrite <-app_assoc.
Qed.

(** X28.  The tasks [create_task_list] yields are, in order, the tasks
    of [find_diff] that need no fusing, or all of them when the
    configuration names a fuser; each has the grid index, the footprint
    and the time stamps of the task it was made from, and in the place
    of each source dataset what the lineage cache holds for its id
    after the call. *)
Theorem create_task_list_yields_valid index output_type year source_type config env env'
    config' yielded :
  create_task_list dataset_id datasets_get datetime list_cells now index output_type year
                   source_type config env = (env', Ok (config', yielded)) ->
  ∃ query tasks,
    build_query datetime year config = Ok query
    ∧ find_diff list_cells source_type output_type (default 1 (tile_size_time config)) query
      = Some tasks
    ∧ Forall2 (updated env') (filter (λ task, valid config task) tasks) yielded
    ∧ (fuse_data config = None ->
       Forall (λ made, Forall (λ entry : Time * _, length entry.2 <= 1)
                               (sources (tile made))) yielded).
Proof.
  intros (query & tasks & Hq & Hdiff & _ & _ & Hall & _)%create_task_list_ok.
  exists query, tasks. split_and!; [done..|].
  intros Hnone. clear Hq Hdiff. revert Hall. generalize yielded.
  induction tasks as [|task tasks IH]; intros ys.
  - intros ->%Forall2_nil_inv_l. constructor.
  - rewrite filter_cons. destruct (decide (valid config task)) as [Hvalid|Hvalid]; [|apply IH].
    intros (made & ys' & (_ & _ & Hs) & Hrest & ->)%Forall2_cons_inv_l.
    constructor; [|by apply IH].
    unfold valid in Hvalid. rewrite Hnone in Hvalid.
    destruct (require_fusing (tile task)) as [|? ?] eqn:Hrf; [|done].
    unfold require_fusing in Hrf.
    assert (Forall (λ entry : Time * list D, length entry.2 <= 1) (sources (tile task)))
      as Hone.
    { apply Forall_forall. intros entry Hentry.
      destruct (decide (1 < length entry.2)) as [Hmore|]; [|lia].
      assert (entry.2 ∈ filter (λ source : list D, 1 < length source) (sources (tile task)).*2)
        as Hin by (apply list_elem_of_filter; split; [done|by apply list_elem_of_fmap_2]).
      rewrite Hrf in Hin. by apply elem_of_nil in Hin. }
    clear Hrf. revert Hone. induction Hs as [|e e' es es' [_ Hd] _ IHs]; [constructor|].
    intros [He Hes]%Forall_cons_1. constructor; [|by apply IHs].
    apply Forall2_length in Hd. lia.
Qed.

(** X29.  What [create_task_list] adds to the log when it returns: the
    number of tasks [find_diff] discovered, then one warning for each
    task skipped, in order, with its grid index and the sources that
    would need fusing. *)
Theorem create_task_list_log index output_type year source_type config env env' config'
    yielded :
  create_task_list dataset_id datasets_get datetime list_cells now index output_type year
                   source_type config env = (env', Ok (config', yielded)) ->
  ∃ query tasks,
    find_diff list_cells source_type output_type (default 1 (tile_size_time config)) query
    = Some tasks
    ∧ log env' = log env ++ TasksDiscovered (length tasks) :: skipped config tasks
    ∧ length yielded + length (skipped config tasks) = length tasks.
Proof.
  intros (query & tasks & Hq & Hdiff & Hlog & _ & Hall & _)%create_task_list_ok.
  exists query, tasks. split_and!; [done..|].
  apply Forall2_length in Hall. rewrite <-Hall. unfold skipped. rewrite length_fmap.
  clear. induction tasks as [|task tasks IH]; [done|].
  rewrite !filter_cons. destruct (valid config task).
  - rewrite (decide_True (P := Is_true true)) by exact I.
    rewrite (decide_False (P := ¬ Is_true true)) by (intros Hn; apply Hn; exact I).
    simpl. lia.
  - rewrite (decide_False (P := Is_true false)) by exact id.
    rewrite (decide_True (P := ¬ Is_true false)) by exact id. simpl. lia.
Qed.

(** *** The default time size *)

Lemma runs_of_one {Sources} fuel (tiles : list (Time * Sources)) :
  Forall (λ run, length run = 1) (runs_of fuel 1 tiles).
Proof.
  revert tiles. induction fuel as [|fuel IH]; intros tiles; [constructor|].
  destruct tiles as [|e tiles]; [constructor|].
  cbn [runs_of]. constructor; [done|]. apply IH.
Qed.

Lemma slice_tasks_one (cells : gmap Extent (Cell (list D) Geobox)) :
  Forall (λ task, length (sources (tile task)) = 1) (slice_tasks cells 1).
Proof.
  unfold slice_tasks. induction (map_to_list cells) as [|[extent cell] items IH]; [constructor|].
  rewrite fmap_cons. cbn [flat_map]. apply Forall_app. split; [|exact IH].
  simpl. rewrite <-list_fmap_compose. apply Forall_fmap.
  eapply Forall_impl; [apply (runs_of_one (length (sources cell)) (sources cell))|].
  by intros run Hrun.
Qed.

(** X30.  Without a time size in the configuration the time size is
    one: every task [create_task_list] yields has exactly one time
    stamp. *)
Theorem create_task_list_default_time_size index output_type year source_type config env env'
    config' yielded :
  tile_size_time config = None ->
  create_task_list dataset_id datasets_get datetime list_cells now index output_type year
                   source_type config env = (env', Ok (config', yielded)) ->
  Forall (λ made, length (sources (tile made)) = 1) yielded.
Proof.
  intros Hdefault (query & tasks & _ & Hdiff & _ & _ & Hall & _)%create_task_list_ok.
  rewrite Hdefault in Hdiff. simpl in Hdiff. unfold find_diff in Hdiff.
  destruct (remove_duplicates _ _) as [cells|]; [|done]. injection Hdiff as <-.
  pose proof (slice_tasks_one cells) as Hone.
  revert Hall Hone. generalize (slice_tasks cells 1). intros tasks. revert yielded.
  induction tasks as [|task tasks IH]; intros ys.
  - intros ->%Forall2_nil_inv_l. constructor.
  - rewrite filter_cons. intros Hall [Ht Hts]%Forall_cons_1.
    destruct (decide (valid config task)); [|by apply IH].
    apply Forall2_cons_inv_l in Hall as (made & ys' & (_ & _ & Hs) & Hrest & ->).
    constructor; [|by apply IH]. apply Forall2_length in Hs. lia.
Qed.

End Tasks.
End TaskListProps.


(** ** A task list of the small installation *)

Module TaskListRuns.
Import Diff TaskList TaskListProps.

(** A dataset is its id, and the index knows every dataset; a point in
    time is its year, month and day. *)
Definition dataset_id (dataset : nat) : S3.UUID := dataset.

Definition datasets_get (index : unit) (id_ : S3.UUID) : Result (option nat) := Ok (Some id_).

Definition datetime (year month day : Z) : Result (Z * Z * Z) :=
  if decide (1 <= year <= 9999)%Z then Ok (year, month, day)
  else Raise (ValueError "year is out of range").

(** The source product has one cell with three days, the second of them
    with two datasets; nothing is ingested yet. *)
Definition list_cells (source : bool) (query : Query (Z * Z * Z) Z)
  : gmap Extent (Cell (list nat) unit) :=
  if source
  then {[ (0, 0)%Z := {| geobox := tt;
                         sources := [(1%Z, [10]); (2%Z, [20; 21]); (3%Z, [30])] |} ]}
  else ∅.

Definition plain : Config Z :=
  {| ingestion_bounds := None; tile_size_time := None; fuse_data := None;
     taskfile_version := None |}.

Definition fresh : Env nat := {| cache := ∅; log := [] |}.

Definition create : M (Env nat) (Config Z * list (Task (list (option nat)) unit)) :=
  create_task_list dataset_id datasets_get datetime list_cells 1500000000 tt false
                   (Some [1996; 2001]%Z) true plain.

Lemma create_task_list_yields_valid_run :
  ∃ env' config' yielded,
    create fresh = (env', Ok (config', yielded))
    ∧ ∃ query tasks,
        build_query datetime (Some [1996; 2001]%Z) plain = Ok query
        ∧ find_diff list_cells true false (default 1 (tile_size_time plain)) query = Some tasks
        ∧ Forall2 (updated dataset_id env') (filter (λ task, valid plain task) tasks) yielded
        ∧ (fuse_data plain = None ->
           Forall (λ made, Forall (λ entry : Time * _, length entry.2 <= 1)
                                  (sources (tile made))) yielded).
Proof.
  eexists _, _, _. split; [vm_compute; reflexivity|].
  eapply (create_task_list_yields_valid dataset_id datasets_get datetime list_cells
            1500000000 tt false (Some [1996; 2001]%Z) true plain fresh).
  vm_compute; reflexivity.
Defined.

Lemma create_task_list_log_run :
  ∃ env' config' yielded,
    create fresh = (env', Ok (config', yielded))
    ∧ ∃ query tasks,
        find_diff list_cells true false (default 1 (tile_size_time plain)) query = Some tasks
        ∧ log env' = log fresh ++ TasksDiscovered (length tasks) :: skipped plain tasks
        ∧ length yielded + length (skipped plain tasks) = length tasks.
Proof.
  eexists _, _, _. split; [vm_compute; reflexivity|].
  eapply (create_task_list_log dataset_id datasets_get datetime list_cells
            1500000000 tt false (Some [1996; 2001]%Z) true plain fresh).
  vm_compute; reflexivity.
Defined.

Lemma create_task_list_default_time_size_run :
  ∃ env' config' yielded,
    create fresh = (env', Ok (config', yielded))
    ∧ Forall (λ made, length (sources (tile made)) = 1) yielded.
Proof.
  eexists _, _, _. split; [vm_compute; reflexivity|].
  eapply (create_task_list_default_time_size dataset_id datasets_get datetime list_cells
            1500000000 tt false (Some [1996; 2001]%Z) true plain fresh);
    [reflexivity | vm_compute; reflexivity].
Defined.

End TaskListRuns.
